(** * QPlanarity: the random planar graph generator and the crossing tracker

    A shallow embedding of [main.py]: the generator [RandomGraph2] and the
    crossing bookkeeping of [Scene] ([init], [updateNode], [checkVictory]).
    Python sets and dicts are stdpp's [gset] and [gmap]; Python lists are
    lists with Python's index rule; exceptions are outcomes of a small
    state-and-exception monad that keeps the state reached when the
    exception was raised. *)

From Stdlib Require Import ZArith QArith Lia.
From stdpp Require Import base option list sets gmap fin_sets fin_maps.

Set Warnings "-clear-no-such-hyp".

Open Scope Z_scope.

(** ** Exceptions and the state monad *)

(** The Python exceptions the modelled code can raise.  [OutOfFuel] is not a
    Python exception: it is the model's answer when the recursion budget
    handed to a function is used up. *)
Inductive exn :=
  | IndexError | KeyError | AssertionError | RuntimeError
  | AttributeError | ZeroDivisionError | OutOfFuel.

Inductive outcome (A : Type) :=
  | Ok (a : A)
  | Raise (e : exn).
Arguments Ok {A} a.
Arguments Raise {A} e.

Definition M (S A : Type) : Type := S → outcome A * S.

Definition ret {S A} (a : A) : M S A := λ s, (Ok a, s).
Definition raise {S A} (e : exn) : M S A := λ s, (Raise e, s).
Definition bind {S A B} (c : M S A) (k : A → M S B) : M S B :=
  λ s, match c s with
       | (Ok a, s') => k a s'
       | (Raise e, s') => (Raise e, s')
       end.
Definition get {S} : M S S := λ s, (Ok s, s).
Definition modify {S} (f : S → S) : M S unit := λ s, (Ok tt, f s).

Declare Scope py_scope.
Delimit Scope py_scope with py.
Notation "x <- c ;; k" := (bind c (λ x, k))
  (at level 100, c at next level, right associativity) : py_scope.
Notation "c ;;; k" := (bind c (λ _, k))
  (at level 100, right associativity) : py_scope.
Open Scope py_scope.

(** [for x in l: body x] *)
Fixpoint for_each {S A} (l : list A) (body : A → M S unit) : M S unit :=
  match l with
  | [] => ret tt
  | x :: l' => body x ;;; for_each l' body
  end.

(** Python's index rule for a sequence of length [len]: a negative index
    counts from the end, an index out of range is refused. *)
Definition py_norm (len : nat) (i : Z) : option nat :=
  if (0 <=? i) && (i <? Z.of_nat len) then Some (Z.to_nat i)
  else if (i <? 0) && (- Z.of_nat len <=? i) then Some (Z.to_nat (Z.of_nat len + i))
  else None.

Definition py_index {A} (l : list A) (i : Z) : option A :=
  k ← py_norm (length l) i; l !! k.

(** [seq[i]], raising [IndexError]. *)
Definition getitem {S A} (l : list A) (i : Z) : M S A :=
  match py_index l i with
  | Some x => ret x
  | None => raise IndexError
  end.

(** ** Edges *)

Definition edge : Type := Z * Z.

(** [v in ab] for a 2-tuple [ab]. *)
Definition in_pair (v : Z) (ab : edge) : bool :=
  bool_decide (v = ab.1) || bool_decide (v = ab.2).

(** ** The random source

    [rnd.random()] and [rnd.choice] draw from Python's global generator.  The
    model reads them from a tape: the [t]-th draw is [random_at t] when a
    float is asked for and [index_at t] when an index is.  The order in which
    a Python set is visited is not fixed by the language either; a visit
    draws an index and starts the walk around the set there.  Every theorem
    about the generator holds for every tape, so neither the distribution nor
    the rounding of the floats matters. *)
Record tape := { random_at : nat → Q; index_at : nat → nat }.

Definition Qgtb (x y : Q) : bool := negb (Qle_bool x y).
Definition Qltb (x y : Q) : bool := negb (Qle_bool y x).

Module Gen.

(** The fields of a [RandomGraph2] object, and the number of draws made. *)
Record graph := {
  outside_edges : gset edge;
  node_idx : Z;
  limit : Z;
  denseness_parameter : Q;
  sparseness_parameter : Q;
  edges : gset edge;
  clock : nat
}.

Definition set_outside (f : gset edge → gset edge) (g : graph) : graph :=
  {| outside_edges := f (outside_edges g); node_idx := node_idx g;
     limit := limit g; denseness_parameter := denseness_parameter g;
     sparseness_parameter := sparseness_parameter g;
     edges := edges g; clock := clock g |}.
Definition set_edges (f : gset edge → gset edge) (g : graph) : graph :=
  {| outside_edges := outside_edges g; node_idx := node_idx g;
     limit := limit g; denseness_parameter := denseness_parameter g;
     sparseness_parameter := sparseness_parameter g;
     edges := f (edges g); clock := clock g |}.
Definition set_node_idx (n : Z) (g : graph) : graph :=
  {| outside_edges := outside_edges g; node_idx := n;
     limit := limit g; denseness_parameter := denseness_parameter g;
     sparseness_parameter := sparseness_parameter g;
     edges := edges g; clock := clock g |}.
Definition tick (g : graph) : graph :=
  {| outside_edges := outside_edges g; node_idx := node_idx g;
     limit := limit g; denseness_parameter := denseness_parameter g;
     sparseness_parameter := sparseness_parameter g;
     edges := edges g; clock := S (clock g) |}.

Section Generator.
Variable rnd : tape.

(** [rnd.random()] *)
Definition random : M graph Q :=
  λ g, (Ok (random_at rnd (clock g)), tick g).

(** [rnd.choice(seq)]; an empty sequence raises [IndexError]. *)
Definition choice {A} (l : list A) : M graph A :=
  λ g, match l !! (index_at rnd (clock g) mod length l)%nat with
       | Some x => (Ok x, tick g)
       | None => (Raise IndexError, tick g)
       end.

(** The elements of a set in the order of one visit. *)
Definition visit (s : gset edge) : M graph (list edge) :=
  λ g, (Ok (rotate (index_at rnd (clock g)) (elements s)), tick g).

(** [self.outside_edges.remove(ab)]: [KeyError] when [ab] is absent. *)
Definition outside_remove (ab : edge) : M graph unit :=
  g <- get ;;
  if decide (ab ∈ outside_edges g) then modify (set_outside (λ s, s ∖ {[ab]}))
  else raise KeyError.
Definition outside_add (ab : edge) : M graph unit :=
  modify (set_outside (λ s, {[ab]} ∪ s)).
Definition edges_add (ab : edge) : M graph unit :=
  modify (set_edges (λ s, {[ab]} ∪ s)).

(** The body of the [while True] loop of [addLines], lines 72-81; [k] bounds
    the number of further iterations. *)
Fixpoint fan (k : nat) (ab : edge) (base pivot : Z) : M graph unit :=
  outside_remove ab ;;;
  edges_add ab ;;;
  g <- get ;;
  outside_add (base, node_idx g) ;;;
  outside_add (pivot, node_idx g) ;;;
  let base := node_idx g in
  let ab := (pivot, node_idx g) in
  modify (set_node_idx (node_idx g + 1)) ;;;
  r <- random ;;
  g <- get ;;
  if Qgtb r (denseness_parameter g) || (limit g <=? node_idx g) then ret tt
  else match k with
       | O => raise OutOfFuel
       | S k' => fan k' ab base pivot
       end.

(** [addLines], lines 60-81.  The recursive retry of line 69 and the loop
    both spend [fuel]. *)
Fixpoint addLines (fuel : nat) : M graph unit :=
  match fuel with
  | O => raise OutOfFuel
  | S fuel' =>
    g <- get ;;
    ab <- choice (elements (outside_edges g)) ;;
    pivot <- choice [ab.1; ab.2] ;;
    let base := ab.1 + ab.2 - pivot in
    let cnt := size (filter (λ xy, in_pair pivot xy = true) (edges g)) in
    r <- random ;;
    if Qgtb (inject_Z (Z.of_nat cnt) * r) 2 then addLines fuel'
    else fan fuel' ab base pivot
  end.

(** The [for] loop of lines 91-99 over the boundary in visiting order. *)
Inductive scan_result := Curled | Found (xy : edge) | NotFound.

Fixpoint scan (endpoints : edge) (l : list edge) : scan_result :=
  match l with
  | [] => NotFound
  | xy :: l' =>
    if bool_decide (xy = endpoints) then Curled
    else if in_pair xy.1 endpoints || in_pair xy.2 endpoints then Found xy
    else scan endpoints l'
  end.

(** Lines 103-107: the pair of far ends after [xy] is merged into
    [endpoints]. *)
Definition merge (endpoints xy : edge) : edge :=
  let xy' := if in_pair xy.1 endpoints
             then (endpoints.1 + endpoints.2 - xy.1, xy.2)
             else (endpoints.1 + endpoints.2 - xy.2, xy.1) in
  (Z.min xy'.1 xy'.2, Z.max xy'.1 xy'.2).

(** The [while True] loop of [removeLines], lines 89-110, followed by line
    111.  [retry] is the recursive call of line 95. *)
Fixpoint walk (retry : M graph unit) (k : nat) (endpoints : edge) : M graph unit :=
  g <- get ;;
  order <- visit (outside_edges g) ;;
  match scan endpoints order with
  | Curled => retry
  | NotFound => raise AssertionError
  | Found xy =>
    outside_remove xy ;;;
    edges_add xy ;;;
    let endpoints := merge endpoints xy in
    r <- random ;;
    g <- get ;;
    if Qgtb r (sparseness_parameter g) then outside_add endpoints
    else match k with
         | O => raise OutOfFuel
         | S k' => walk retry k' endpoints
         end
  end.

(** [removeLines], lines 82-111. *)
Fixpoint removeLines (fuel : nat) : M graph unit :=
  match fuel with
  | O => raise OutOfFuel
  | S fuel' =>
    g <- get ;;
    ab <- choice (elements (outside_edges g)) ;;
    outside_remove ab ;;;
    edges_add ab ;;;
    walk (removeLines fuel') fuel' ab
  end.

(** The inner [while] of [__init__], lines 51-55. *)
Fixpoint shrink (fuel : nat) (outside_limit : Z) : M graph unit :=
  g <- get ;;
  if Z.of_nat (size (outside_edges g)) >? outside_limit then
    r <- random ;;
    g <- get ;;
    if Qltb r (/ inject_Z (1 + node_idx g)) then ret tt
    else match fuel with
         | O => raise OutOfFuel
         | S fuel' => removeLines fuel' ;;; shrink fuel' outside_limit
         end
  else ret tt.

(** The outer [while] of [__init__], lines 49-55. *)
Fixpoint grow (fuel : nat) (node_limit outside_limit : Z) : M graph unit :=
  g <- get ;;
  if node_idx g <? node_limit then
    match fuel with
    | O => raise OutOfFuel
    | S fuel' =>
      addLines fuel' ;;;
      shrink fuel' outside_limit ;;;
      grow fuel' node_limit outside_limit
    end
  else ret tt.

(** [int(node_limit*0.75 + 0.5)]: [int] truncates towards zero. *)
Definition default_outside_limit (node_limit : Z) : Z :=
  Z.quot (3 * node_limit + 2) 4.

(** The object as line 37-48 set it up, before the loop. *)
Definition fresh (node_limit : Z) : graph :=
  {| outside_edges := {[ (0,1); (1,2); (0,2) ]};
     node_idx := 3;
     limit := node_limit;
     denseness_parameter := 3 # 10;
     sparseness_parameter := 6 # 10;
     edges := ∅;
     clock := 0 |}.

(** [RandomGraph2.__init__], lines 36-58. *)
Definition construct (fuel : nat) (node_limit : Z) (outside_limit : option Z)
  : M graph unit :=
  let outside_limit := default (default_outside_limit node_limit) outside_limit in
  grow fuel node_limit outside_limit ;;;
  g <- get ;;
  modify (set_edges (λ s, s ∪ outside_edges g)).

Definition RandomGraph2 (fuel : nat) (node_limit : Z) (outside_limit : option Z)
  : outcome unit * graph :=
  construct fuel node_limit outside_limit (fresh node_limit).

End Generator.

(** The tape on which every draw is zero: [random()] is [0.0], a choice
    takes the first element and a visit starts at the first element. *)
Definition zero_tape : tape := {| random_at := λ _, 0%Q; index_at := λ _, 0%nat |}.

(** The tape on which [random()] is always [0.5] and the [t]-th index drawn
    is [t]. *)
Definition half_tape : tape := {| random_at := λ _, (1 # 2)%Q; index_at := λ t, t |}.

(** *** What the claims say about a generated graph *)

Definition all_edges (g : graph) : gset edge := edges g ∪ outside_edges g.

(** A stored tuple [(a,b)] in canonical order, over vertices below [n]. *)
Definition canonical (n : Z) (ab : edge) : Prop := 0 ≤ ab.1 ∧ ab.1 < ab.2 ∧ ab.2 < n.

Definition adjacent (E : gset edge) (x y : Z) : Prop := (x, y) ∈ E ∨ (y, x) ∈ E.

(** Two vertices are connected when a path of edges joins them. *)
Definition connected (E : gset edge) : relation Z := rtc (adjacent E).

(** The number of edges at a vertex, as [addLines] counts it on line 67. *)
Definition degree (E : gset edge) (v : Z) : nat :=
  size (filter (λ xy, in_pair v xy = true) E).

Definition two_incident (E : gset edge) (v : Z) : Prop :=
  ∃ e1 e2, e1 ≠ e2 ∧ e1 ∈ E ∧ e2 ∈ E ∧ in_pair v e1 = true ∧ in_pair v e2 = true.

(** The invariant of the construction on the edges stored so far and the
    number of vertices handed out. *)
Record sound (E : gset edge) (n : Z) : Prop := {
  sound_idx : 3 ≤ n;
  sound_canon : ∀ ab, ab ∈ E → canonical n ab;
  sound_reach : ∀ v, 0 ≤ v < n → connected E 0 v;
  sound_deg : ∀ v, 0 ≤ v < n → two_incident E v
}.

Record good (L : Z) (g : graph) : Prop := {
  good_sound : sound (all_edges g) (node_idx g);
  good_limit : limit g = L;
  good_count : node_idx g ≤ Z.max 3 L
}.

End Gen.


(** ** The scene: which edges cross which *)

Module Scene.

(** The Qt signals of [Scene]. *)
Inductive signal := Progress (done total : nat) | Refit | Victory.

(** What [collidingItems] can return: line items, which carry their edge in
    [.ab], and node items. *)
Inductive item := LineItem (ab : edge) | NodeItem (idx : nat).

(** [len(set(l.ab + ab)) < 4]: the two edges share an end (or one of them
    is a loop). *)
Definition touching (l ab : edge) : bool :=
  (size (list_to_set (C := gset Z) [l.1; l.2; ab.1; ab.2]) <? 4)%nat.

Section Tracker.
Context {point : Type}.

(** The geometry is Qt's: whether the shapes of two line items intersect,
    given their end points, and whether the shape of a line item meets the
    disc of a node at a position. *)
Variable segmentsCross : point → point → point → point → bool.
Variable lineMeetsNode : point → point → point → bool.

(** The fields of a [Scene] the bookkeeping uses.  [nodes] holds the
    position of each [Node]; [lines] the end points last given to each line
    item by [addLine] or [setLine]; [nodes_shown] tells whether the node
    items have been added to the scene; [emitted] lists the signals sent. *)
Record scene := {
  nodes : list point;
  nodes_shown : bool;
  lines : gmap edge (point * point);
  node2lines : list (list edge);
  collisions : gmap edge (gset edge);
  untangled : gset edge;
  emitted : list signal
}.

Definition set_nodes (f : list point → list point) (sc : scene) : scene :=
  {| nodes := f (nodes sc); nodes_shown := nodes_shown sc; lines := lines sc;
     node2lines := node2lines sc; collisions := collisions sc;
     untangled := untangled sc; emitted := emitted sc |}.
Definition set_nodes_shown (b : bool) (sc : scene) : scene :=
  {| nodes := nodes sc; nodes_shown := b; lines := lines sc;
     node2lines := node2lines sc; collisions := collisions sc;
     untangled := untangled sc; emitted := emitted sc |}.
Definition set_lines (f : gmap edge (point * point) → gmap edge (point * point))
  (sc : scene) : scene :=
  {| nodes := nodes sc; nodes_shown := nodes_shown sc; lines := f (lines sc);
     node2lines := node2lines sc; collisions := collisions sc;
     untangled := untangled sc; emitted := emitted sc |}.
Definition set_node2lines (l : list (list edge)) (sc : scene) : scene :=
  {| nodes := nodes sc; nodes_shown := nodes_shown sc; lines := lines sc;
     node2lines := l; collisions := collisions sc;
     untangled := untangled sc; emitted := emitted sc |}.
Definition set_collisions (f : gmap edge (gset edge) → gmap edge (gset edge))
  (sc : scene) : scene :=
  {| nodes := nodes sc; nodes_shown := nodes_shown sc; lines := lines sc;
     node2lines := node2lines sc; collisions := f (collisions sc);
     untangled := untangled sc; emitted := emitted sc |}.
Definition set_untangled (f : gset edge → gset edge) (sc : scene) : scene :=
  {| nodes := nodes sc; nodes_shown := nodes_shown sc; lines := lines sc;
     node2lines := node2lines sc; collisions := collisions sc;
     untangled := f (untangled sc); emitted := emitted sc |}.
Definition emit (x : signal) : M scene unit :=
  modify (λ sc,
  {| nodes := nodes sc; nodes_shown := nodes_shown sc; lines := lines sc;
     node2lines := node2lines sc; collisions := collisions sc;
     untangled := untangled sc; emitted := emitted sc ++ [x] |}).

(** [RandomGraph2.getEdges], lines 113-118, for a graph of [n] vertices
    whose edge set is visited in the order [es]. *)
Definition n2e_append (n2e : list (list edge)) (i : Z) (ab : edge)
  : option (list (list edge)) :=
  k ← py_norm (length n2e) i;
  l ← n2e !! k;
  Some (<[k := l ++ [ab]]> n2e).

Fixpoint n2e_fill (es : list edge) (n2e : list (list edge))
  : option (list (list edge)) :=
  match es with
  | [] => Some n2e
  | ab :: es' =>
    n2e ← n2e_append n2e ab.1 ab;
    n2e ← n2e_append n2e ab.2 ab;
    n2e_fill es' n2e
  end.

Definition getEdges (n : nat) (es : list edge) : option (list (list edge)) :=
  n2e_fill es (replicate n []).

(** [self.lines[ab].collidingItems(Qt.IntersectsItemShape)]: the other items
    of the scene whose shape meets that of the line item of [ab]. *)
Definition collidingItems (sc : scene) (ab : edge) : list item :=
  match lines sc !! ab with
  | None => []
  | Some (p, q) =>
    omap (λ lrs : edge * (point * point),
            if bool_decide (lrs.1 ≠ ab) && segmentsCross p q lrs.2.1 lrs.2.2
            then Some (LineItem lrs.1) else None)
         (map_to_list (lines sc))
    ++
    (if nodes_shown sc
     then omap (λ ic : nat * point,
                  if lineMeetsNode p q ic.2 then Some (NodeItem ic.1) else None)
               (imap (λ i c, (i, c)) (nodes sc))
     else [])
  end.

(** [collisions.setdefault(k, set()).add(x)] *)
Definition setdefault_add (k x : edge) : M scene unit :=
  modify (set_collisions (λ m, <[k := default ∅ (m !! k) ∪ {[x]}]> m)).

(** The body of the loop of [init] over the edges, lines 175-184. *)
Definition add_line (ab : edge) : M scene unit :=
  sc <- get ;;
  pa <- getitem (nodes sc) ab.1 ;;
  pb <- getitem (nodes sc) ab.2 ;;
  modify (set_lines (λ m, <[ab := (pa, pb)]> m)) ;;;
  sc <- get ;;
  for_each (collidingItems sc ab) (λ l,
    match l with
    | NodeItem _ => raise AttributeError
    | LineItem l_ab =>
      if touching l_ab ab then ret tt
      else setdefault_add ab l_ab ;;; setdefault_add l_ab ab
    end).

(** The scene as [init] starts on it, with the nodes placed at [pos]. *)
Definition blank (pos : list point) : scene :=
  {| nodes := pos; nodes_shown := false; lines := ∅; node2lines := [];
     collisions := ∅; untangled := ∅; emitted := [] |}.

(** [Scene.init], lines 154-197, for the graph with edge set [es] (in the
    order it is visited) and the nodes placed at [pos].  Line 156 asks for
    the graph by the name [RandomGraph1], which the file does not define,
    and lines 167-169 place the nodes on a circle with floating-point
    trigonometry; both the graph and the positions are taken as given. *)
Definition init_body (es : list edge) : M scene unit :=
  sc <- get ;;
  match getEdges (length (nodes sc)) es with
  | None => raise IndexError
  | Some n2e =>
    for_each es add_line ;;;
    sc <- get ;;
    modify (set_untangled (λ _, list_to_set es ∖ dom (collisions sc))) ;;;
    modify (set_nodes_shown true) ;;;
    modify (set_node2lines n2e)
  end.

Definition init (es : list edge) (pos : list point) : outcome unit * scene :=
  init_body es (blank pos).

(** Lines 218-227: the edges now crossing [ab]. *)
Definition current_crossings (sc : scene) (ab : edge) : gset edge :=
  foldl (λ coll l,
           match l with
           | NodeItem _ => coll
           | LineItem l_ab => if touching l_ab ab then coll else coll ∪ {[l_ab]}
           end) ∅ (collidingItems sc ab).

(** The body of the loop of lines 232-243.  The loop runs over the set
    [collisions[ab]] itself: when [xy] is [ab] the body has changed the set
    it runs over and Python raises [RuntimeError] at the next step. *)
Definition unlink (ab : edge) (coll : gset edge) (xy : edge) : M scene unit :=
  if decide (xy ∈ coll) then ret tt
  else
    sc <- get ;;
    match collisions sc !! xy with
    | None => raise KeyError
    | Some s =>
      if decide (ab ∈ s) then
        modify (set_collisions (λ m, <[xy := s ∖ {[ab]}]> m)) ;;;
        (if decide (size (s ∖ {[ab]}) = 0%nat) then
           modify (set_collisions (λ m, delete xy m)) ;;;
           modify (set_untangled (λ u, {[xy]} ∪ u))
         else ret tt) ;;;
        (if decide (xy = ab) then raise RuntimeError else ret tt)
      else raise KeyError
    end.

(** The body of the loop of lines 249-254. *)
Definition link (ab : edge) (xy : edge) : M scene unit :=
  sc <- get ;;
  (if decide (xy ∈ dom (collisions sc)) then ret tt
   else
     (if decide (xy ∈ untangled sc)
      then modify (set_untangled (λ u, u ∖ {[xy]}))
      else raise KeyError) ;;;
     modify (set_collisions (λ m, <[xy := ∅]> m))) ;;;
  setdefault_add xy ab.

(** The body of the loop of [updateNode] over the edges of the node, lines
    216-257. *)
Definition update_edge (ab : edge) : M scene unit :=
  sc <- get ;;
  (if decide (ab ∈ dom (lines sc)) then ret tt else raise KeyError) ;;;
  pa <- getitem (nodes sc) ab.1 ;;
  pb <- getitem (nodes sc) ab.2 ;;
  modify (set_lines (λ m, <[ab := (pa, pb)]> m)) ;;;
  sc <- get ;;
  let coll := current_crossings sc ab in
  for_each (elements (default ∅ (collisions sc !! ab))) (unlink ab coll) ;;;
  if decide (0 < size coll)%nat then
    modify (set_collisions (λ m, <[ab := coll]> m)) ;;;
    modify (set_untangled (λ u, u ∖ {[ab]})) ;;;
    for_each (elements coll) (link ab)
  else
    sc <- get ;;
    if decide (ab ∈ dom (collisions sc)) then
      modify (set_collisions (λ m, delete ab m)) ;;;
      modify (set_untangled (λ u, {[ab]} ∪ u))
    else ret tt.

(** [Scene.updateNode], lines 213-259, for a node whose [idx] is [idx].
    Line 258 divides by [len(self.lines)]. *)
Definition updateNode (idx : Z) : M scene unit :=
  sc <- get ;;
  es <- getitem (node2lines sc) idx ;;
  for_each es update_edge ;;;
  sc <- get ;;
  if decide (size (lines sc) = 0%nat) then raise ZeroDivisionError
  else emit (Progress (size (untangled sc)) (size (lines sc))).

(** [Node.mouseMoveEvent], lines 138-140, of the node [self.nodes[i]]: the
    node takes the position [p] and the scene is told. *)
Definition mouseMoveEvent (i : nat) (p : point) : M scene unit :=
  modify (set_nodes (λ l, <[i := p]> l)) ;;;
  updateNode (Z.of_nat i).

(** [Scene.checkVictory], lines 270-276. *)
Definition checkVictory : M scene unit :=
  emit Refit ;;;
  sc <- get ;;
  if decide (size (collisions sc) ≠ 0%nat) then ret tt
  else emit Victory.

(** A session: [init], then one [mouseMoveEvent] per move. *)
Definition play (es : list edge) (pos : list point) (moves : list (nat * point))
  : outcome unit * scene :=
  (init_body es ;;; for_each moves (λ m, mouseMoveEvent m.1 m.2)) (blank pos).

(** [f] is recorded as crossing [e]. *)
Definition linked (m : gmap edge (gset edge)) (e f : edge) : Prop :=
  ∃ s, m !! e = Some s ∧ f ∈ s.

(** Whether two line items intersect does not depend on which of the two is
    asked. *)
Definition cross_symmetric : Prop :=
  ∀ p q r s, segmentsCross p q r s = segmentsCross r s p q.

(** No edge is mapped to the empty set. *)
Definition nonempty_sets (m : gmap edge (gset edge)) : Prop :=
  ∀ e s, m !! e = Some s → s ≠ ∅.

(** The shapes of the line items of [e] and [f], as last set, intersect. *)
Definition hit (L : gmap edge (point * point)) (e f : edge) : bool :=
  match L !! e, L !! f with
  | Some (p, q), Some (r, s) => segmentsCross p q r s
  | _, _ => false
  end.

(** The collision map of a scene with line items for the edges [E]: a
    symmetric relation between edges of [E] without a common end, and no
    empty sets. *)
Record links_ok (E : gset edge) (sc : scene) : Prop := {
  lo_lines : dom (lines sc) = E;
  lo_sym : ∀ e f, linked (collisions sc) e f → linked (collisions sc) f e;
  lo_apart : ∀ e f, linked (collisions sc) e f → touching f e = false ∧ e ∈ E;
  lo_nonempty : nonempty_sets (collisions sc)
}.

(** The invariant of a scene after [init]. *)
Record wf (E : gset edge) (sc : scene) : Prop := {
  wf_links : links_ok E sc;
  wf_range : ∀ e : edge, e ∈ E →
    0 ≤ e.1 < Z.of_nat (length (nodes sc)) ∧ 0 ≤ e.2 < Z.of_nat (length (nodes sc));
  wf_part : untangled sc = E ∖ dom (collisions sc);
  wf_n2l_length : length (node2lines sc) = length (nodes sc);
  wf_n2l_sound : ∀ (i : nat) (l : list edge) (e : edge),
    node2lines sc !! i = Some l → e ∈ l → e ∈ E;
  wf_n2l_complete : ∀ e : edge, e ∈ E →
    (∃ l, node2lines sc !! Z.to_nat e.1 = Some l ∧ e ∈ l) ∧
    (∃ l, node2lines sc !! Z.to_nat e.2 = Some l ∧ e ∈ l)
}.

(** The collision map records exactly the pairs of edges without a common
    end whose line items intersect. *)
Definition exact (E : gset edge) (sc : scene) : Prop :=
  ∀ e f, linked (collisions sc) e f ↔
         e ∈ E ∧ f ∈ E ∧ touching f e = false ∧ hit (lines sc) e f = true.

(** Every line item of [F] runs between the positions of its two nodes. *)
Definition synced (F : gset edge) (sc : scene) : Prop :=
  ∀ e : edge, e ∈ F →
    ∃ p q, nodes sc !! Z.to_nat e.1 = Some p ∧ nodes sc !! Z.to_nat e.2 = Some q ∧
           lines sc !! e = Some (p, q).

(** Everything but the collision map and the untangled set is the same. *)
Definition same_frame (sc sc' : scene) : Prop :=
  nodes sc' = nodes sc ∧ nodes_shown sc' = nodes_shown sc ∧
  lines sc' = lines sc ∧ node2lines sc' = node2lines sc ∧
  emitted sc' = emitted sc.

End Tracker.

(** The edge [e] is in the list kept for vertex [i]. *)
Definition listed (n2e : list (list edge)) (i : nat) (e : edge) : Prop :=
  ∃ l, n2e !! i = Some l ∧ e ∈ l.

(** What a session is run on: the edges are those of a set (no repeats)
    that is not empty, their ends are vertices of the scene, and every move
    is of a node of the scene. *)
Definition valid_session {point : Type} (es : list edge) (pos : list point)
    (moves : list (nat * point)) : Prop :=
  NoDup es ∧ es ≠ [] ∧
  Forall (λ e : edge, 0 ≤ e.1 < Z.of_nat (length pos) ∧
                      0 ≤ e.2 < Z.of_nat (length pos)) es ∧
  Forall (λ m : nat * point, (m.1 < length pos)%nat) moves.

(** *** A concrete geometry on integer points *)

Definition orient (p q r : Z * Z) : Z :=
  Z.sgn ((q.1 - p.1) * (r.2 - p.2) - (q.2 - p.2) * (r.1 - p.1)).

(** Two segments cross properly: the ends of each lie strictly on both
    sides of the other. *)
Definition properCross (p q r s : Z * Z) : bool :=
  (orient p q r * orient p q s <? 0) && (orient r s p * orient r s q <? 0).

Definition noNodeHit (p q c : Z * Z) : bool := false.

(** The square [0 1 2 3] with both diagonals, laid out so that the
    diagonals cross. *)
Definition square_edges : list edge := [(0,1); (1,2); (2,3); (0,3); (0,2); (1,3)].
Definition square_pos : list (Z * Z) := [(0,0); (2,0); (2,2); (0,2)].

(** The scene [init] builds on the square. *)
Definition square_scene : @scene (Z * Z) :=
  (init properCross noNodeHit square_edges square_pos).2.

(** Dragging vertex 1 across the diagonal undoes the crossing; dragging it
    further makes two sides cross. *)
Definition square_moves : list (nat * (Z * Z)) := [(1%nat, (-1, 3)); (1%nat, (1, 3))].

End Scene.

(** ** The rest of the program *)

Module Rest.
Import Gen Scene.

(** The outcome of a step of the constructor is none of Python's lookup
    errors, and a normal end leaves a boundary to go on with. *)
Definition fine (r : outcome unit * graph) : Prop :=
  (r.1 = Ok tt ∨ r.1 = Raise AssertionError ∨ r.1 = Raise OutOfFuel) ∧
  (r.1 = Ok tt → outside_edges r.2 ≠ ∅).

(** The tape on which [random()] is always [0.7] and every index drawn is
    zero: no fan goes on, no contraction walks on after its first edge. *)
Definition high_tape : tape := {| random_at := λ _, (7 # 10)%Q; index_at := λ _, 0%nat |}.

(** A constructor stopped after the first [addLines] of a graph of six
    vertices in which every fan goes on to the limit: the boundary is a
    ring of six edges. *)
Definition ring6 : graph := (addLines zero_tape 10 (fresh 6)).2.

(** *** The placing of the nodes, lines 158-169 of [Scene.init]

    [a = int(math.sqrt(n))], then [while math.gcd(a,n) > 1: a += 1]; node
    [i] is put at the place [(a*i + 0xbabe) % n] of [n] places round a
    circle.  [n] is not negative ([math.sqrt] refuses a negative number);
    [k] bounds the turns of the loop. *)
Fixpoint stride_loop (k : nat) (a n : Z) : option Z :=
  if 1 <? Z.gcd a n then
    match k with
    | O => None
    | S k' => stride_loop k' (a + 1) n
    end
  else Some a.

Definition stride (n : Z) : option Z :=
  stride_loop (Z.to_nat (n + 1)) (Z.sqrt n) n.

Definition place (a n i : Z) : Z := (a * i + 47806) mod n.

(** The pens of the line items and the brushes of the nodes. *)
Inductive pen := thick_pen | black_pen | gray_pen.
Inductive brush := red_brush | blue_brush.

(** A loop that keeps what each turn produces. *)
Fixpoint collect {S A B} (l : list A) (body : A → M S B) : M S (list B) :=
  match l with
  | [] => ret []
  | x :: l' => y <- body x ;; ys <- collect l' body ;; ret (y :: ys)
  end.

(** [Contents.progress], lines 320-321, the slot of the [progress] signal:
    the percentage written on the label.  [100.0*a/b] raises
    [ZeroDivisionError] when [b] is zero. *)
Definition progress (a b : nat) : outcome Q :=
  if decide (b = 0%nat) then Raise ZeroDivisionError
  else Ok (100 * inject_Z (Z.of_nat a) / inject_Z (Z.of_nat b))%Q.

Section Events.
Context {point : Type}.
Variable segmentsCross : point → point → point → point → bool.
Variable lineMeetsNode : point → point → point → bool.

(** [Scene.hover], lines 199-211, for the node [self.nodes[idx]].  The
    pens and brushes are not part of the tracker's state; the call is
    modelled by what it sets, in the order it sets it: the pen of each line
    item of [node2lines[idx]], then the brush of the node [a+b-idx] of each
    of these edges (the same node is raised to [z_count], a float that
    nothing reads).  [self.lines[ab]] raises [KeyError] and [self.nodes[o]]
    raises [IndexError]. *)
Definition hover (idx : nat) (onoff : bool)
  : M (@scene point) (list (edge * pen) * list (nat * brush)) :=
  sc <- get ;;
  others <- getitem (node2lines sc) (Z.of_nat idx) ;;
  pens <- collect others (λ ab : edge,
    if decide (ab ∈ dom (lines sc)) then
      ret (ab, if onoff then thick_pen
               else if decide (ab ∈ untangled sc) then black_pen else gray_pen)
    else raise KeyError) ;;
  brushes <- collect others (λ ab : edge,
    match py_norm (length (nodes sc)) (ab.1 + ab.2 - Z.of_nat idx) with
    | Some o => ret (o, if onoff then red_brush else blue_brush)
    | None => raise IndexError
    end) ;;
  ret (pens, brushes).

(** A call leaves the part [f] of the scene as it was, however it ends. *)
Definition unchanged {A B} (f : @scene point → B) (c : M (@scene point) A) : Prop :=
  ∀ sc, f (c sc).2 = f sc.

(** [Node.mousePressEvent], lines 136-137, of the node [self.nodes[i]]. *)
Definition mousePressEvent (i : nat) : M (@scene point) unit :=
  updateNode segmentsCross lineMeetsNode (Z.of_nat i).

(** [Node.mouseReleaseEvent], lines 141-142. *)
Definition mouseReleaseEvent : M (@scene point) unit := checkVictory.

(** The segments between the nodes of [e] and of [f], where the nodes are
    now, intersect. *)
Definition crossing_at (pos : list point) (e f : edge) : bool :=
  match pos !! Z.to_nat e.1, pos !! Z.to_nat e.2,
        pos !! Z.to_nat f.1, pos !! Z.to_nat f.2 with
  | Some p, Some q, Some r, Some s => segmentsCross p q r s
  | _, _, _, _ => false
  end.

End Events.

(** Two ways of dragging vertex 1 of the square to the same place. *)
Definition square_moves_direct : list (nat * (Z * Z)) := [(1%nat, (1, 3))].

(** The edges of the square in another order. *)
Definition square_edges_shuffled : list edge :=
  [(1,3); (0,2); (0,3); (2,3); (1,2); (0,1)].

End Rest.

(** * Proofs *)

Lemma in_pair_true v ab : in_pair v ab = true ↔ v = ab.1 ∨ v = ab.2.
Proof.
  unfold in_pair. rewrite orb_true_iff, !bool_decide_eq_true. tauto.
Qed.

Module GenFacts.
Import Gen.

Lemma connected_mono E E' x y : E ⊆ E' → connected E x y → connected E' x y.
Proof.
  intros Hsub. unfold connected. apply rtc_subrel.
  intros a b [H|H]; [left|right]; set_solver.
Qed.

Lemma adjacent_sym E x y : adjacent E x y → adjacent E y x.
Proof. unfold adjacent. tauto. Qed.

Lemma connected_sym E x y : connected E x y → connected E y x.
Proof.
  induction 1 as [|x y z Hxy _ IH]; [constructor|].
  eapply rtc_r; [exact IH|]. by apply adjacent_sym.
Qed.

Lemma two_incident_mono E E' v : E ⊆ E' → two_incident E v → two_incident E' v.
Proof.
  intros Hsub (e1 & e2 & Hne & H1 & H2 & Hv1 & Hv2).
  exists e1, e2. repeat split; auto.
Qed.

Lemma two_incident_degree E v : two_incident E v → (2 ≤ degree E v)%nat.
Proof.
  intros (e1 & e2 & Hne & H1 & H2 & Hv1 & Hv2). unfold degree.
  assert (Hsub : ({[e1; e2]} : gset edge) ⊆ filter (λ xy, in_pair v xy = true) E).
  { intros e He. apply elem_of_filter.
    apply elem_of_union in He as [He|He]; apply elem_of_singleton in He; subst e; auto. }
  apply subseteq_size in Hsub.
  rewrite size_union in Hsub by set_solver.
  rewrite !size_singleton in Hsub. lia.
Qed.

Lemma canonical_mono n n' ab : n ≤ n' → canonical n ab → canonical n' ab.
Proof. unfold canonical. lia. Qed.

(** The starting triangle. *)
Lemma sound_triangle : sound {[ (0,1); (1,2); (0,2) ]} 3.
Proof.
  split.
  - lia.
  - intros ab Hab. unfold canonical.
    repeat (apply elem_of_union in Hab as [Hab|Hab]);
      apply elem_of_singleton in Hab; subst ab; simpl; lia.
  - intros v Hv.
    assert (v = 0 ∨ v = 1 ∨ v = 2) as [-> | [-> | ->]] by lia.
    + constructor.
    + apply rtc_once. left. set_solver.
    + apply rtc_once. left. set_solver.
  - intros v Hv.
    assert (v = 0 ∨ v = 1 ∨ v = 2) as [-> | [-> | ->]] by lia.
    + exists (0,1), (0,2). repeat split; [congruence|set_solver..].
    + exists (0,1), (1,2). repeat split; [congruence|set_solver..].
    + exists (1,2), (0,2). repeat split; [congruence|set_solver..].
Qed.

(** More edges between the vertices already there keep the invariant. *)
Lemma sound_weaken E E' n :
  sound E n → E ⊆ E' → (∀ ab, ab ∈ E' → canonical n ab) → sound E' n.
Proof.
  intros [Hn Hc Hr Hd] Hsub Hc'. split; auto.
  - intros v Hv. eapply connected_mono; eauto.
  - intros v Hv. eapply two_incident_mono; eauto.
Qed.

(** One triangle of a fan: the new vertex [n] is tied to [base] and [pivot]. *)
Lemma sound_fan E n base pivot :
  sound E n → base ≠ pivot → 0 ≤ base < n → 0 ≤ pivot < n →
  sound ({[ (pivot, n) ]} ∪ ({[ (base, n) ]} ∪ E)) (n + 1).
Proof.
  intros [Hn Hc Hr Hd] Hne Hb Hp. split.
  - lia.
  - intros ab Hab. apply elem_of_union in Hab as [Hab|Hab].
    { apply elem_of_singleton in Hab. subst ab. unfold canonical. simpl. lia. }
    apply elem_of_union in Hab as [Hab|Hab].
    { apply elem_of_singleton in Hab. subst ab. unfold canonical. simpl. lia. }
    eapply canonical_mono; [|by apply Hc]. lia.
  - intros v Hv. destruct (decide (v = n)) as [->|Hvn].
    + eapply rtc_r.
      * eapply connected_mono; [|apply (Hr base Hb)]. set_solver.
      * left. set_solver.
    + eapply connected_mono; [|apply Hr; lia]. set_solver.
  - intros v Hv. destruct (decide (v = n)) as [->|Hvn].
    + exists (pivot, n), (base, n). repeat split.
      * congruence.
      * set_solver.
      * set_solver.
      * apply in_pair_true. by right.
      * apply in_pair_true. by right.
    + eapply two_incident_mono; [|apply Hd; lia]. set_solver.
Qed.

Lemma canonical_merge n endpoints xy :
  canonical n endpoints → canonical n xy → xy ≠ endpoints →
  in_pair xy.1 endpoints || in_pair xy.2 endpoints = true →
  canonical n (merge endpoints xy).
Proof.
  destruct endpoints as [c d], xy as [a b]. unfold canonical, merge. simpl.
  intros Hcd Hab Hne Hconn.
  assert (¬ (a = c ∧ b = d)) by (intros [-> ->]; by apply Hne).
  destruct (in_pair a (c, d)) eqn:Ha.
  - apply in_pair_true in Ha. simpl in *. lia.
  - simpl in Hconn. apply in_pair_true in Hconn. simpl in *. lia.
Qed.

Lemma scan_found endpoints l xy :
  scan endpoints l = Found xy →
  xy ∈ l ∧ xy ≠ endpoints ∧ in_pair xy.1 endpoints || in_pair xy.2 endpoints = true.
Proof.
  induction l as [|x l IH]; simpl; [done|].
  case_bool_decide as Hx; [done|].
  destruct (in_pair x.1 endpoints || in_pair x.2 endpoints) eqn:Hc.
  - intros [= <-]. split; [left|]. done.
  - intros H. destruct (IH H) as (? & ? & ?). split; [by right|done].
Qed.

Section GeneratorFacts.
Variable rnd : tape.
Variable L : Z.

Lemma good_tick g : good L g → good L (tick g).
Proof. intros [Hs Hl Hc]. by split. Qed.

Lemma good_build g E n :
  sound E n → all_edges g = E → node_idx g = n → limit g = L → n ≤ Z.max 3 L →
  good L g.
Proof. intros Hs <- <- Hl Hc. by split. Qed.

(** Moving a boundary edge into the permanent set loses no edge. *)
Lemma all_edges_move (ab : edge) (E O : gset edge) :
  ab ∈ O → ({[ab]} ∪ E) ∪ (O ∖ {[ab]}) = E ∪ O.
Proof.
  intros Hab. apply set_eq. intros x.
  destruct (decide (x = ab)) as [->|Hne]; set_solver.
Qed.

(** *** [addLines] *)

Lemma fan_eq k ab base pivot g :
  fan rnd k ab base pivot g =
  if decide (ab ∈ outside_edges g) then
    let n := node_idx g in
    let g1 := tick (set_node_idx (n + 1)
                (set_outside (λ s, {[ (pivot, n) ]} ∪ s)
                  (set_outside (λ s, {[ (base, n) ]} ∪ s)
                    (set_edges (λ s, {[ab]} ∪ s)
                      (set_outside (λ s, s ∖ {[ab]}) g))))) in
    if Qgtb (random_at rnd (clock g)) (denseness_parameter g) || (limit g <=? n + 1)
    then (Ok tt, g1)
    else match k with
         | O => (Raise OutOfFuel, g1)
         | S k' => fan rnd k' (pivot, n) n pivot g1
         end
  else (Raise KeyError, g).
Proof.
  destruct k; cbn [fan];
    cbv [bind get outside_remove outside_add edges_add modify random ret raise];
    (destruct (decide (ab ∈ outside_edges g)); simpl;
     [destruct (Qgtb _ _ || _); reflexivity | reflexivity]).
Qed.

Lemma fan_good k : ∀ ab base pivot g,
  good L g → node_idx g < L → base ≠ pivot →
  0 ≤ base < node_idx g → 0 ≤ pivot < node_idx g →
  good L (fan rnd k ab base pivot g).2.
Proof.
  induction k as [|k IH]; intros ab base pivot g Hg Hlt Hne Hb Hp;
    rewrite fan_eq; case_decide as Hab; try done; cbv zeta.
  all: destruct Hg as [Hs Hl Hc].
  all: match goal with |- context [tick ?g0] =>
         assert (Hg1 : good L (tick g0)) end.
  all: try (eapply good_build; [eapply (sound_fan _ _ base pivot); eauto | | reflexivity | exact Hl | simpl; lia];
            unfold all_edges; simpl;
            rewrite <- (all_edges_move ab (edges g) (outside_edges g)) by done;
            set_solver).
  all: destruct (Qgtb _ _ || _) eqn:Hstop; simpl; try done.
  apply orb_false_iff in Hstop as [_ Hstop]. apply Z.leb_gt in Hstop.
  apply IH; simpl; try lia; done.
Qed.

Lemma addLines_eq fuel g :
  addLines rnd (S fuel) g =
  match elements (outside_edges g) !!
          (index_at rnd (clock g) mod length (elements (outside_edges g)))%nat with
  | None => (Raise IndexError, tick g)
  | Some ab =>
    match [ab.1; ab.2] !! (index_at rnd (S (clock g)) mod 2)%nat with
    | None => (Raise IndexError, tick (tick g))
    | Some pivot =>
      let cnt := size (filter (λ xy, in_pair pivot xy = true) (edges g)) in
      if Qgtb (inject_Z (Z.of_nat cnt) * random_at rnd (S (S (clock g)))) 2
      then addLines rnd fuel (tick (tick (tick g)))
      else fan rnd fuel ab (ab.1 + ab.2 - pivot) pivot (tick (tick (tick g)))
    end
  end.
Proof.
  cbn [addLines]. cbv [bind get choice random].
  destruct (elements _ !! _) as [ab|]; [|reflexivity]. simpl.
  destruct ([ab.1; ab.2] !! _) as [pivot|]; [|reflexivity]. simpl.
  destruct (Qgtb _ _); reflexivity.
Qed.

Lemma addLines_good fuel : ∀ g,
  good L g → node_idx g < L → good L (addLines rnd fuel g).2.
Proof.
  induction fuel as [|fuel IH]; intros g Hg Hlt; [done|].
  rewrite addLines_eq.
  destruct (elements _ !! _) as [ab|] eqn:Hab; [|by apply good_tick].
  destruct ([ab.1; ab.2] !! _) as [pivot|] eqn:Hpiv;
    [|by do 2 apply good_tick].
  cbv zeta.
  assert (Hg3 : good L (tick (tick (tick g)))) by (by do 3 apply good_tick).
  destruct (Qgtb _ _); [by apply IH|].
  apply list_elem_of_lookup_2 in Hab. apply elem_of_elements in Hab.
  assert (Hcan : canonical (node_idx g) ab).
  { apply (sound_canon _ _ (good_sound _ _ Hg)). unfold all_edges. set_solver. }
  apply list_elem_of_lookup_2 in Hpiv.
  assert (pivot = ab.1 ∨ pivot = ab.2) as Hp by set_solver.
  destruct Hcan as (H0 & H1 & H2).
  apply fan_good; simpl; auto; lia.
Qed.

(** *** [removeLines] *)

Lemma walk_eq retry k endpoints g :
  walk rnd retry k endpoints g =
  match scan endpoints (rotate (index_at rnd (clock g)) (elements (outside_edges g))) with
  | Curled => retry (tick g)
  | NotFound => (Raise AssertionError, tick g)
  | Found xy =>
    if decide (xy ∈ outside_edges g) then
      let g2 := tick (set_edges (λ s, {[xy]} ∪ s)
                       (set_outside (λ s, s ∖ {[xy]}) (tick g))) in
      if Qgtb (random_at rnd (S (clock g))) (sparseness_parameter g)
      then (Ok tt, set_outside (λ s, {[merge endpoints xy]} ∪ s) g2)
      else match k with
           | O => (Raise OutOfFuel, g2)
           | S k' => walk rnd retry k' (merge endpoints xy) g2
           end
    else (Raise KeyError, tick g)
  end.
Proof.
  destruct k; cbn [walk];
    cbv [bind get visit outside_remove outside_add edges_add modify random ret raise];
    (destruct (scan _ _) as [|xy|]; try reflexivity; simpl;
     destruct (decide (xy ∈ outside_edges g)); simpl;
     [destruct (Qgtb _ _); reflexivity | reflexivity]).
Qed.

Lemma walk_good retry :
  (∀ g, good L g → good L (retry g).2) →
  ∀ k endpoints g,
  good L g → canonical (node_idx g) endpoints →
  good L (walk rnd retry k endpoints g).2.
Proof.
  intros Hretry. induction k as [|k IH]; intros endpoints g Hg Hend;
    rewrite walk_eq.
  all: destruct (scan _ _) as [|xy|] eqn:Hscan;
    [by apply Hretry, good_tick| |by apply good_tick].
  all: case_decide as Hxy; [|by apply good_tick]; cbv zeta.
  all: apply scan_found in Hscan as (_ & Hne & Hconn).
  all: assert (Hcan : canonical (node_idx g) xy)
    by (apply (sound_canon _ _ (good_sound _ _ Hg)); unfold all_edges; set_solver).
  all: pose proof (canonical_merge _ _ _ Hend Hcan Hne Hconn) as Hm.
  all: destruct Hg as [Hs Hl Hc].
  all: match goal with |- context [(Raise OutOfFuel, ?g0)] =>
         assert (Hg2 : good L g0)
       | |- context [walk _ _ _ _ ?g0] => assert (Hg2 : good L g0) end.
  all: try (eapply good_build; [exact Hs | | reflexivity | exact Hl | exact Hc];
            unfold all_edges; simpl; by apply all_edges_move).
  all: destruct (Qgtb _ _); simpl; try done; try (by apply IH).
  all: destruct Hg2 as [Hs2 Hl2 Hc2];
    eapply good_build; [| reflexivity | reflexivity | exact Hl | exact Hc];
    eapply sound_weaken; [exact Hs2 | unfold all_edges; simpl; set_solver |].
  all: intros e He; unfold all_edges in He; simpl in He;
    destruct (decide (e = merge endpoints xy)) as [->|Hee]; [exact Hm |];
    apply (sound_canon _ _ Hs2); unfold all_edges; simpl; set_solver.
Qed.

Lemma removeLines_eq fuel g :
  removeLines rnd (S fuel) g =
  match elements (outside_edges g) !!
          (index_at rnd (clock g) mod length (elements (outside_edges g)))%nat with
  | None => (Raise IndexError, tick g)
  | Some ab =>
    if decide (ab ∈ outside_edges g) then
      walk rnd (removeLines rnd fuel) fuel ab
        (set_edges (λ s, {[ab]} ∪ s) (set_outside (λ s, s ∖ {[ab]}) (tick g)))
    else (Raise KeyError, tick g)
  end.
Proof.
  cbn [removeLines].
  cbv [bind get choice outside_remove edges_add modify ret raise].
  destruct (elements _ !! _) as [ab|]; [|reflexivity]. simpl.
  destruct (decide (ab ∈ outside_edges g)); reflexivity.
Qed.

Lemma removeLines_good fuel : ∀ g, good L g → good L (removeLines rnd fuel g).2.
Proof.
  induction fuel as [|fuel IH]; intros g Hg; [done|].
  rewrite removeLines_eq.
  destruct (elements _ !! _) as [ab|] eqn:Hab; [|by apply good_tick].
  case_decide as Hin; [|by apply good_tick].
  assert (Hcan : canonical (node_idx g) ab)
    by (apply (sound_canon _ _ (good_sound _ _ Hg)); unfold all_edges; set_solver).
  destruct Hg as [Hs Hl Hc].
  apply walk_good; [exact IH| |exact Hcan].
  eapply good_build; [exact Hs | | reflexivity | exact Hl | exact Hc].
  unfold all_edges; simpl. by apply all_edges_move.
Qed.

(** *** The loops of [__init__] *)

Lemma shrink_good fuel outside_limit : ∀ g,
  good L g → good L (shrink rnd fuel outside_limit g).2.
Proof.
  induction fuel as [|fuel IH]; intros g Hg; cbn [shrink];
    cbv [bind get random]; destruct (_ >? _); try done;
    destruct (Qltb _ _); simpl; try (by apply good_tick).
  pose proof (removeLines_good fuel _ (good_tick _ Hg)) as Hr.
  destruct (removeLines _ _ _) as [[[]|e] s']; simpl in *; [by apply IH|done].
Qed.

Lemma grow_good fuel outside_limit : ∀ g,
  good L g → good L (grow rnd fuel L outside_limit g).2.
Proof.
  induction fuel as [|fuel IH]; intros g Hg; cbn [grow];
    cbv [bind get]; destruct (_ <? _) eqn:Hlt; try done.
  apply Z.ltb_lt in Hlt.
  pose proof (addLines_good fuel _ Hg Hlt) as H1.
  destruct (addLines _ _ _) as [[[]|e] s1]; simpl in *; [|done].
  pose proof (shrink_good fuel outside_limit _ H1) as H2.
  destruct (shrink _ _ _ _) as [[[]|e] s2]; simpl in *; [by apply IH|done].
Qed.

(** When the outer loop ends normally its condition is false. *)
Lemma grow_ok fuel node_limit outside_limit : ∀ g g',
  grow rnd fuel node_limit outside_limit g = (Ok tt, g') → node_limit ≤ node_idx g'.
Proof.
  induction fuel as [|fuel IH]; intros g g'; cbn [grow];
    cbv [bind get]; destruct (_ <? _) eqn:Hlt;
    try (intros [= <-]; by apply Z.ltb_ge in Hlt); try done.
  destruct (addLines _ _ _) as [[[]|e] s1]; [|done].
  destruct (shrink _ _ _ _) as [[[]|e] s2]; [|done].
  apply IH.
Qed.

Lemma good_fresh : good L (fresh L).
Proof.
  eapply good_build; [apply sound_triangle| |reflexivity|reflexivity|lia].
  unfold all_edges, fresh. simpl. set_solver.
Qed.

Lemma construct_eq fuel outside_limit g :
  construct rnd fuel L outside_limit g =
  match grow rnd fuel L (default (default_outside_limit L) outside_limit) g with
  | (Ok _, g') => (Ok tt, set_edges (λ s, s ∪ outside_edges g') g')
  | (Raise e, g') => (Raise e, g')
  end.
Proof.
  unfold construct. cbv [bind get modify].
  destruct (grow _ _ _ _ _) as [[[]|e] g']; reflexivity.
Qed.

(** Whatever the outcome, the object is left with the invariant. *)
Lemma RandomGraph2_good fuel outside_limit :
  good L (RandomGraph2 rnd fuel L outside_limit).2.
Proof.
  unfold RandomGraph2. rewrite construct_eq.
  pose proof (grow_good fuel (default (default_outside_limit L) outside_limit)
                _ good_fresh) as Hg.
  destruct (grow _ _ _ _ _) as [[[]|e] g']; simpl in *; [|done].
  destruct Hg as [Hs Hl Hc].
  eapply good_build; [exact Hs| |reflexivity|exact Hl|exact Hc].
  unfold all_edges. simpl. set_solver.
Qed.

Lemma RandomGraph2_ok fuel outside_limit g :
  RandomGraph2 rnd fuel L outside_limit = (Ok tt, g) →
  sound (edges g) (node_idx g) ∧ L ≤ node_idx g ∧ node_idx g ≤ Z.max 3 L ∧
  outside_edges g ⊆ edges g.
Proof.
  intros Hrun.
  pose proof (RandomGraph2_good fuel outside_limit) as Hg. rewrite Hrun in Hg.
  unfold RandomGraph2 in Hrun. rewrite construct_eq in Hrun.
  destruct (grow _ _ _ _ _) as [[[]|e] g'] eqn:Hgrow; [|done].
  apply grow_ok in Hgrow. injection Hrun as <-. simpl in *.
  destruct Hg as [Hs Hl Hc]. unfold all_edges in Hs. simpl in *.
  split; [|split; [|split]]; [|exact Hgrow|exact Hc|set_solver].
  by replace (edges g' ∪ outside_edges g')
    with (edges g' ∪ outside_edges g' ∪ outside_edges g') by set_solver.
Qed.

End GeneratorFacts.

(** *** A run that always returns: the zero tape *)

Lemma Qgtb_mult_zero c : Qgtb (inject_Z c * 0) 2 = false.
Proof.
  unfold Qgtb, Qle_bool, Qmult. simpl. rewrite Z.mul_0_r. reflexivity.
Qed.

Lemma Qltb_zero_inv n : 0 ≤ n → Qltb 0 (/ inject_Z (1 + n)) = true.
Proof.
  intros Hn. destruct (1 + n) as [|p|p] eqn:Hp; try lia. reflexivity.
Qed.

Lemma fan_zero k : ∀ ab base pivot g,
  ab ∈ outside_edges g → denseness_parameter g = (3 # 10)%Q →
  (Z.to_nat (limit g - node_idx g) ≤ S k)%nat →
  ∃ g', fan zero_tape k ab base pivot g = (Ok tt, g') ∧
        limit g ≤ node_idx g' ∧ node_idx g ≤ node_idx g' ∧ limit g' = limit g.
Proof.
  induction k as [|k IH]; intros ab base pivot g Hab Hd Hk;
    rewrite fan_eq; (case_decide; [|done]); cbv zeta; rewrite Hd;
    change (Qgtb (random_at zero_tape (clock g)) (3 # 10)) with false;
    rewrite orb_false_l; destruct (_ <=? _) eqn:Hstop;
    try (eexists; split; [reflexivity|]; simpl;
         apply Z.leb_le in Hstop; split; [|split]; [lia|lia|reflexivity]);
    apply Z.leb_gt in Hstop; [lia|].
  destruct (IH (pivot, node_idx g) (node_idx g) pivot
    (tick (set_node_idx (node_idx g + 1)
       (set_outside (λ s, {[ (pivot, node_idx g) ]} ∪ s)
          (set_outside (λ s, {[ (base, node_idx g) ]} ∪ s)
             (set_edges (λ s, {[ab]} ∪ s)
                (set_outside (λ s, s ∖ {[ab]}) g)))))))
    as (g' & Hrun & H1 & H2 & H3); simpl; [set_solver|done|lia|].
  exists g'. simpl in *. split; [exact Hrun|]. split; [lia|]. split; [lia|done].
Qed.

Lemma addLines_zero fuel g :
  outside_edges g ≠ ∅ → denseness_parameter g = (3 # 10)%Q →
  (Z.to_nat (limit g - node_idx g) ≤ S fuel)%nat →
  ∃ g', addLines zero_tape (S fuel) g = (Ok tt, g') ∧
        limit g ≤ node_idx g' ∧ node_idx g ≤ node_idx g' ∧ limit g' = limit g.
Proof.
  intros Hne Hd Hk. rewrite addLines_eq.
  destruct (elements (outside_edges g)) as [|ab l] eqn:Hel.
  { apply elements_empty_inv in Hel. by apply leibniz_equiv in Hel. }
  change (index_at zero_tape (clock g)) with 0%nat.
  change (index_at zero_tape (S (clock g))) with 0%nat.
  rewrite Nat.Div0.mod_0_l. simpl lookup. cbv zeta.
  change (random_at zero_tape (S (S (clock g)))) with 0%Q.
  cbv beta iota. rewrite Qgtb_mult_zero.
  destruct (fan_zero fuel ab (ab.1 + ab.2 - ab.1) ab.1 (tick (tick (tick g))))
    as (g' & Hrun & H1 & H2 & H3); simpl; try done.
  { apply elem_of_elements. rewrite Hel. left. }
  by exists g'.
Qed.

Lemma shrink_zero fuel outside_limit g :
  0 ≤ node_idx g →
  ∃ g', shrink zero_tape fuel outside_limit g = (Ok tt, g') ∧
        node_idx g' = node_idx g.
Proof.
  intros Hn. destruct fuel; cbn [shrink]; cbv [bind get random];
    (destruct (_ >? _); [|by eexists]); simpl;
    change (random_at zero_tape (clock g)) with 0%Q;
    rewrite Qltb_zero_inv by done; by eexists.
Qed.

Lemma grow_zero fuel outside_limit g :
  outside_edges g ≠ ∅ → denseness_parameter g = (3 # 10)%Q →
  3 ≤ node_idx g →
  (Z.to_nat (limit g - node_idx g) + 2 ≤ fuel)%nat →
  ∃ g', grow zero_tape fuel (limit g) outside_limit g = (Ok tt, g').
Proof.
  intros Hne Hd Hn Hfuel. destruct fuel as [|[|fuel]]; try lia.
  cbn [grow]. cbv [bind get]. destruct (_ <? _) eqn:Hlt; [|by eexists].
  destruct (addLines_zero fuel g Hne Hd) as (g1 & -> & H1 & H2 & H3); [lia|].
  destruct (shrink_zero (S fuel) outside_limit g1) as (g2 & -> & H4); [lia|].
  rewrite <- H3, <- H4 in H1.
  rewrite <- H3. apply Z.ltb_ge in H1. rewrite H1. by eexists.
Qed.

Lemma RandomGraph2_zero node_limit outside_limit :
  ∃ g, RandomGraph2 zero_tape (Z.to_nat node_limit + 2) node_limit outside_limit
       = (Ok tt, g).
Proof.
  unfold RandomGraph2. rewrite construct_eq.
  destruct (grow_zero (Z.to_nat node_limit + 2)
              (default (default_outside_limit node_limit) outside_limit)
              (fresh node_limit)) as (g' & Hg); simpl; try done; try lia.
  simpl in Hg. rewrite Hg. by eexists.
Qed.

End GenFacts.

(** * The claims about the generator *)

Module GenClaims.
Import Gen GenFacts.

(** A boundary of one edge cannot be contracted: the edge is taken, nothing
    is left to walk along, and the sanity check of line 100 fails. *)
Lemma removeLines_single rnd fuel g e :
  outside_edges g = {[e]} →
  (removeLines rnd (S fuel) g).1 = Raise AssertionError.
Proof.
  intros He. rewrite removeLines_eq, He, elements_singleton. simpl length.
  rewrite Nat.mod_1_r. simpl lookup. cbv beta iota.
  rewrite decide_True by set_solver.
  rewrite walk_eq. simpl outside_edges. rewrite He.
  replace (({[e]} : gset edge) ∖ {[e]}) with (∅ : gset edge) by set_solver.
  rewrite elements_empty. unfold rotate. rewrite drop_nil, take_nil. reflexivity.
Qed.

(** C4 (generator validity).  For every [node_limit >= 3] the constructor can
    return, and whenever it returns, for whatever random draws and boundary
    limit, the graph has exactly [node_limit] vertices [0 .. node_limit-1],
    any two of them are joined by a path, no edge is stored twice (neither
    as the same tuple nor reversed, and no edge is a loop), and every vertex
    lies on at least two edges. *)
Theorem generator_validity (node_limit : Z) :
  3 ≤ node_limit →
  (∃ rnd fuel g, RandomGraph2 rnd fuel node_limit None = (Ok tt, g)) ∧
  ∀ rnd fuel outside_limit g,
    RandomGraph2 rnd fuel node_limit outside_limit = (Ok tt, g) →
    node_idx g = node_limit ∧
    (∀ ab, ab ∈ edges g → 0 ≤ ab.1 < node_limit ∧ 0 ≤ ab.2 < node_limit) ∧
    (∀ u v, 0 ≤ u < node_limit → 0 ≤ v < node_limit → connected (edges g) u v) ∧
    (∀ a b, (a, b) ∈ edges g → a ≠ b ∧ (b, a) ∉ edges g) ∧
    (∀ v, 0 ≤ v < node_limit → (2 ≤ degree (edges g) v)%nat).
Proof.
  intros Hn. split.
  { exists zero_tape, (Z.to_nat node_limit + 2)%nat. apply RandomGraph2_zero. }
  intros rnd fuel outside_limit g Hrun.
  apply RandomGraph2_ok in Hrun as ([_ Hcan Hreach Hdeg] & Hge & Hle & _).
  assert (Hidx : node_idx g = node_limit) by lia.
  rewrite Hidx in *. split; [done|]. split; [|split; [|split]].
  - intros ab Hab. destruct (Hcan ab Hab) as (? & ? & ?). lia.
  - intros u v Hu Hv. etrans; [apply connected_sym|]; by apply Hreach.
  - intros a b Hab. destruct (Hcan _ Hab) as (? & ? & ?). simpl in *.
    split; [lia|]. intros Hba. destruct (Hcan _ Hba) as (? & ? & ?). simpl in *. lia.
  - intros v Hv. by apply two_incident_degree, Hdeg.
Qed.

Lemma generator_validity_witness :
  let g := (RandomGraph2 zero_tape 8 6 None).2 in
  node_idx g = 6 ∧ connected (edges g) 2 5 ∧ (2 ≤ degree (edges g) 5)%nat.
Proof.
  intros g.
  destruct (generator_validity 6 ltac:(lia)) as [_ H].
  destruct (H zero_tape 8%nat None g ltac:(vm_compute; reflexivity))
    as (H1 & _ & H3 & _ & H5).
  split; [exact H1|]. split; [apply H3; lia | apply H5; lia].
Defined.

(** C9 (canonical order).  Every tuple [(a,b)] held in the permanent edge set
    or in the boundary set has [0 <= a < b < node_idx].  It holds in the
    state the constructor ends in, whether it returns, raises or runs out of
    fuel; as the fuel can end the run at any turn of any loop, it holds
    throughout the construction. *)
Theorem stored_edges_canonical rnd fuel node_limit outside_limit (ab : edge) :
  let g := (RandomGraph2 rnd fuel node_limit outside_limit).2 in
  ab ∈ edges g ∪ outside_edges g → 0 ≤ ab.1 ∧ ab.1 < ab.2 ∧ ab.2 < node_idx g.
Proof.
  intros g Hab.
  apply (sound_canon _ _ (good_sound _ _ (RandomGraph2_good rnd node_limit fuel outside_limit))).
  exact Hab.
Qed.

Lemma stored_edges_canonical_witness :
  let g := (RandomGraph2 half_tape 3 5 None).2 in
  (3, 4) ∈ edges g ∪ outside_edges g ∧ 3 < 4 ∧ 4 < node_idx g.
Proof.
  intros g.
  assert (Hin : (3, 4) ∈ edges g ∪ outside_edges g) by (vm_compute; reflexivity).
  split; [exact Hin|].
  destruct (stored_edges_canonical half_tape 3 5 None (3, 4) Hin) as (_ & H1 & H2).
  split; [exact H1 | exact H2].
Defined.

(** C6, as the code has it.  A [node_limit] of 3 or less is not rejected:
    there is no check of the parameter, the outer loop is not entered, no
    random number is drawn, and the object holds the starting triangle with
    its three vertices.  No exception is raised. *)
Theorem small_limit_gives_triangle rnd fuel node_limit outside_limit :
  node_limit ≤ 3 →
  ∃ g, RandomGraph2 rnd fuel node_limit outside_limit = (Ok tt, g) ∧
       node_idx g = 3 ∧ edges g = {[ (0,1); (1,2); (0,2) ]} ∧
       outside_edges g = {[ (0,1); (1,2); (0,2) ]} ∧ clock g = 0%nat.
Proof.
  intros Hn. unfold RandomGraph2. rewrite construct_eq.
  assert (Hgrow : ∀ ol, grow rnd fuel node_limit ol (fresh node_limit)
                        = (Ok tt, fresh node_limit)).
  { intros ol. destruct fuel; cbn [grow]; cbv [bind get];
      change (node_idx (fresh node_limit)) with 3;
      (destruct (3 <? node_limit) eqn:Hlt; [apply Z.ltb_lt in Hlt; lia|done]). }
  rewrite Hgrow. eexists. split; [reflexivity|]. simpl.
  repeat split; set_solver.
Qed.

Lemma small_limit_gives_triangle_witness :
  ∃ g, RandomGraph2 half_tape 0 2 None = (Ok tt, g) ∧ node_idx g = 3.
Proof.
  destruct (small_limit_gives_triangle half_tape 0 2 None ltac:(lia))
    as (g & Hrun & Hidx & _).
  exists g. split; [exact Hrun | exact Hidx].
Defined.

(** C6 counterexample: with [node_limit = 2] the constructor returns
    normally, with a graph of three vertices, instead of raising. *)
Lemma small_limit_not_rejected :
  (RandomGraph2 zero_tape 0 2 None).1 = Ok tt ∧
  (∀ e, (RandomGraph2 zero_tape 0 2 None).1 ≠ Raise e) ∧
  node_idx (RandomGraph2 zero_tape 0 2 None).2 = 3 ∧
  elements (edges (RandomGraph2 zero_tape 0 2 None).2) ≠ [].
Proof.
  split; [reflexivity|]. split; [intros e; vm_compute; discriminate|].
  split; [reflexivity|]. vm_compute. discriminate.
Qed.

(** C8, at the failing input: [node_limit = 4] with the default boundary
    limit, [random()] always [0.5].  The contraction walks round the whole
    boundary, meets the edge equal to [endpoints], retries, and the retry
    takes the last boundary edge and trips the sanity check of line 100: the
    constructor ends in [AssertionError] with an empty boundary. *)
Theorem contract_retry_trips_assertion :
  (RandomGraph2 half_tape 20 4 None).1 = Raise AssertionError ∧
  outside_edges (RandomGraph2 half_tape 20 4 None).2 = ∅.
Proof.
  split; vm_compute; reflexivity.
Qed.

End GenClaims.

(** * Facts about the scene *)

Module SceneFacts.
Import Scene.

Lemma size_list_to_set_le (l : list Z) : (size (list_to_set (C := gset Z) l) ≤ length l)%nat.
Proof.
  induction l as [|x l IH].
  - rewrite list_to_set_nil, size_empty. done.
  - rewrite list_to_set_cons, size_union_alt, size_singleton. simpl.
    assert (size (list_to_set (C := gset Z) l ∖ {[x]}) ≤ size (list_to_set (C := gset Z) l))%nat
      by (apply subseteq_size; set_solver).
    lia.
Qed.

Lemma size_list_to_set_NoDup (l : list Z) :
  size (list_to_set (C := gset Z) l) = length l → NoDup l.
Proof.
  induction l as [|x l IH]; [constructor|].
  rewrite list_to_set_cons. simpl. intros Hsz.
  pose proof (size_list_to_set_le l) as Hle.
  destruct (decide (x ∈ l)) as [Hin|Hnin].
  - replace ({[x]} ∪ list_to_set l : gset Z) with (list_to_set l : gset Z) in Hsz
      by (apply set_eq; intros y; rewrite elem_of_union, elem_of_singleton,
            elem_of_list_to_set; naive_solver).
    lia.
  - rewrite size_union, size_singleton in Hsz
      by (intros y; rewrite elem_of_singleton, elem_of_list_to_set; naive_solver).
    constructor; [done|]. apply IH. lia.
Qed.

(** Two edges do not touch exactly when their four ends are distinct. *)
Lemma touching_false l ab :
  touching l ab = false ↔ NoDup [l.1; l.2; ab.1; ab.2].
Proof.
  unfold touching. rewrite Nat.ltb_ge. split.
  - intros Hsz. apply size_list_to_set_NoDup.
    pose proof (size_list_to_set_le [l.1; l.2; ab.1; ab.2]). simpl in *. lia.
  - intros Hnd. by rewrite size_list_to_set.
Qed.

Lemma touching_sym l ab : touching l ab = touching ab l.
Proof.
  unfold touching. f_equal. f_equal. apply set_eq. intros x.
  rewrite !elem_of_list_to_set, !elem_of_cons. naive_solver.
Qed.

Lemma touching_self ab : touching ab ab = true.
Proof.
  destruct (touching ab ab) eqn:H; [done|].
  apply touching_false in H. rewrite !NoDup_cons in H.
  destruct H as (H & _). exfalso. apply H. set_solver.
Qed.

Lemma touching_false_ne l ab : touching l ab = false → l ≠ ab.
Proof. intros H ->. by rewrite touching_self in H. Qed.

(** Edges recorded as crossing have no end in common. *)
Lemma touching_false_ends l ab :
  touching l ab = false →
  l.1 ≠ ab.1 ∧ l.1 ≠ ab.2 ∧ l.2 ≠ ab.1 ∧ l.2 ≠ ab.2.
Proof.
  intros H. apply touching_false in H. rewrite !NoDup_cons in H.
  destruct H as (H1 & H2 & _). set_solver.
Qed.

(** *** The relation a collision map stands for *)

Lemma linked_insert (m : gmap edge (gset edge)) k s e f :
  linked (<[k := s]> m) e f ↔ (e = k ∧ f ∈ s) ∨ (e ≠ k ∧ linked m e f).
Proof.
  unfold linked. destruct (decide (e = k)) as [->|Hne].
  - rewrite lookup_insert_eq. naive_solver.
  - rewrite lookup_insert_ne by done. naive_solver.
Qed.

Lemma linked_delete (m : gmap edge (gset edge)) k e f :
  linked (delete k m) e f ↔ e ≠ k ∧ linked m e f.
Proof.
  unfold linked. destruct (decide (e = k)) as [->|Hne].
  - rewrite lookup_delete_eq. naive_solver.
  - rewrite lookup_delete_ne by done. naive_solver.
Qed.

Lemma linked_empty e f : ¬ linked ∅ e f.
Proof. intros (s & Hs & _). by rewrite lookup_empty in Hs. Qed.

(** A map without empty sets is determined by its relation. *)
Lemma linked_ext (m1 m2 : gmap edge (gset edge)) :
  nonempty_sets m1 → nonempty_sets m2 →
  (∀ e f, linked m1 e f ↔ linked m2 e f) → m1 = m2.
Proof.
  intros Hn1 Hn2 Hrel. apply map_eq. intros e.
  assert (Hhalf : ∀ ma mb : gmap edge (gset edge), nonempty_sets ma →
            (∀ e f, linked ma e f → linked mb e f) →
            ∀ s, ma !! e = Some s → ∃ s', mb !! e = Some s' ∧ s ⊆ s').
  { intros ma mb Hna Hab s Hs.
    destruct (set_choose_L s (Hna _ _ Hs)) as [f Hf].
    destruct (Hab e f) as (s' & Hs' & _); [by exists s|].
    exists s'. split; [done|]. intros f' Hf'.
    destruct (Hab e f') as (s'' & Hs'' & Hin); [by exists s|]. congruence. }
  destruct (m1 !! e) as [s1|] eqn:H1, (m2 !! e) as [s2|] eqn:H2; try done.
  - destruct (Hhalf m1 m2 Hn1 (λ e f, proj1 (Hrel e f)) _ H1) as (s' & Hs' & Hsub1).
    destruct (Hhalf m2 m1 Hn2 (λ e f, proj2 (Hrel e f)) _ H2) as (s'' & Hs'' & Hsub2).
    f_equal. set_solver.
  - destruct (Hhalf m1 m2 Hn1 (λ e f, proj1 (Hrel e f)) _ H1) as (s' & Hs' & _).
    congruence.
  - destruct (Hhalf m2 m1 Hn2 (λ e f, proj2 (Hrel e f)) _ H2) as (s' & Hs' & _).
    congruence.
Qed.

Lemma elem_of_dom_linked (m : gmap edge (gset edge)) e :
  nonempty_sets m → e ∈ dom m ↔ ∃ f, linked m e f.
Proof.
  intros Hn. rewrite elem_of_dom. split.
  - intros [s Hs]. destruct (set_choose_L s (Hn _ _ Hs)) as [f Hf].
    exists f, s. done.
  - intros (f & s & Hs & _). by exists s.
Qed.

Lemma bind_ok {S A B} (c : M S A) (k : A → M S B) s a s' :
  c s = (Ok a, s') → bind c k s = k a s'.
Proof. intros H. unfold bind. by rewrite H. Qed.

Lemma bind_raise {S A B} (c : M S A) (k : A → M S B) s e s' :
  c s = (Raise e, s') → bind c k s = (Raise e, s').
Proof. intros H. unfold bind. by rewrite H. Qed.

Ltac step := erewrite bind_ok by (reflexivity || eassumption).

Lemma for_each_invariant {S A} (I : list A → S → Prop) (body : A → M S unit)
    (l : list A) :
  (∀ done x rest s, l = done ++ x :: rest → I done s →
     ∃ s', body x s = (Ok tt, s') ∧ I (done ++ [x]) s') →
  ∀ s, I [] s → ∃ s', for_each l body s = (Ok tt, s') ∧ I l s'.
Proof.
  intros Hbody.
  assert (Hgen : ∀ rest done s, l = done ++ rest → I done s →
            ∃ s', for_each rest body s = (Ok tt, s') ∧ I l s').
  { induction rest as [|x rest IH]; intros done s Hl Hs.
    - rewrite app_nil_r in Hl. subst done. by exists s.
    - destruct (Hbody done x rest s Hl Hs) as (s1 & Hx & Hs1).
      destruct (IH (done ++ [x]) s1) as (s' & Hrun & Hs'); [|done|].
      { by rewrite <- app_assoc. }
      exists s'. split; [|done]. simpl. unfold bind. by rewrite Hx. }
  intros s Hs. by apply (Hgen l [] s).
Qed.

Section TrackerFacts.
Context {point : Type}.
Variable segmentsCross : point → point → point → point → bool.
Variable lineMeetsNode : point → point → point → bool.

Local Abbreviation scene := (@scene point).
Local Abbreviation collidingItems := (collidingItems segmentsCross lineMeetsNode).
Local Abbreviation current_crossings := (current_crossings segmentsCross lineMeetsNode).
Local Abbreviation hit := (hit segmentsCross).

Implicit Types (sc : scene) (ab xy e f : edge) (E : gset edge).

(** *** What [collidingItems] finds *)

Lemma elem_of_collidingItems sc ab l :
  LineItem l ∈ collidingItems sc ab ↔
  l ≠ ab ∧ ∃ p q r s, lines sc !! ab = Some (p, q) ∧ lines sc !! l = Some (r, s) ∧
                      segmentsCross p q r s = true.
Proof.
  unfold Scene.collidingItems. destruct (lines sc !! ab) as [[p q]|] eqn:Hab.
  - rewrite elem_of_app, !list_elem_of_omap. split.
    + intros [([l' [r s]] & Hin & Hf)|Hnode].
      * simpl in Hf. apply elem_of_map_to_list in Hin.
        destruct (bool_decide (l' ≠ ab)) eqn:Hne; simpl in Hf; [|done].
        destruct (segmentsCross p q r s) eqn:Hc; [|done].
        injection Hf as ->. apply bool_decide_eq_true in Hne.
        split; [done|]. by exists p, q, r, s.
      * destruct (nodes_shown sc); [|by apply elem_of_nil in Hnode].
        apply list_elem_of_omap in Hnode as ([i c] & _ & Hf). simpl in Hf.
        by destruct (lineMeetsNode p q c).
    + intros (Hne & p' & q' & r & s & [= <- <-] & Hl & Hc).
      left. exists (l, (r, s)). split; [by apply elem_of_map_to_list|].
      simpl. rewrite bool_decide_eq_true_2 by done. simpl. by rewrite Hc.
  - split; [by intros ?%elem_of_nil|].
    by intros (_ & p & q & r & s & ? & _).
Qed.

Lemma elem_of_current_crossings sc ab l :
  l ∈ current_crossings sc ab ↔
  LineItem l ∈ collidingItems sc ab ∧ touching l ab = false.
Proof.
  unfold Scene.current_crossings.
  assert (Hgen : ∀ items (acc : gset edge),
    l ∈ foldl (λ coll it, match it with
                          | NodeItem _ => coll
                          | LineItem l_ab =>
                            if touching l_ab ab then coll else coll ∪ {[l_ab]}
                          end) acc items
    ↔ l ∈ acc ∨ (LineItem l ∈ items ∧ touching l ab = false)).
  { induction items as [|it items IH]; intros acc; simpl.
    - rewrite elem_of_nil. tauto.
    - rewrite IH, elem_of_cons. destruct it as [l'|i].
      + destruct (touching l' ab) eqn:Ht.
        * split; [tauto|]. intros [?|[[Heq|?] ?]]; [tauto| |tauto]. injection Heq as ->. congruence.
        * rewrite elem_of_union, elem_of_singleton. split.
          -- intros [[?|Heq]|?]; [tauto| |tauto]. subst l'. tauto.
          -- intros [?|[[Heq|?] ?]]; [tauto| |tauto]. injection Heq as ->. tauto.
      + split; [tauto|]. intros [?|[[?|?] ?]]; [tauto|done|tauto]. }
  rewrite Hgen. rewrite elem_of_empty. tauto.
Qed.

(** The crossings found for [ab] once its line item is in place. *)
Lemma current_crossings_spec sc ab l :
  ab ∈ dom (lines sc) →
  l ∈ current_crossings sc ab ↔
  l ∈ dom (lines sc) ∧ touching l ab = false ∧ hit (lines sc) ab l = true.
Proof.
  intros Hab. rewrite elem_of_current_crossings, elem_of_collidingItems.
  unfold Scene.hit. apply elem_of_dom in Hab as [[p q] Hab]. rewrite Hab.
  rewrite elem_of_dom. split.
  - intros ((Hne & p' & q' & r & s & [= <- <-] & Hl & Hc) & Ht).
    rewrite Hl. eauto.
  - intros ([[r s] Hl] & Ht & Hc). rewrite Hl in Hc.
    split; [|done]. split; [by apply touching_false_ne|].
    by exists p, q, r, s.
Qed.

(** *** The two inner loops of [updateNode] *)

Lemma getitem_valid {S A} (l : list A) (i : Z) (s : S) :
  0 ≤ i < Z.of_nat (length l) →
  ∃ x, l !! Z.to_nat i = Some x ∧ getitem l i s = (Ok x, s).
Proof.
  intros Hi. destruct (lookup_lt_is_Some_2 l (Z.to_nat i)) as [x Hx]; [lia|].
  exists x. split; [done|]. unfold getitem, py_index, py_norm.
  replace (0 <=? i) with true by (symmetry; apply Z.leb_le; lia).
  replace (i <? Z.of_nat (length l)) with true by (symmetry; apply Z.ltb_lt; lia).
  simpl. by rewrite Hx.
Qed.

Lemma same_frame_refl sc : same_frame sc sc.
Proof. by repeat split. Qed.

Lemma same_frame_trans sc1 sc2 sc3 :
  same_frame sc1 sc2 → same_frame sc2 sc3 → same_frame sc1 sc3.
Proof.
  intros (? & ? & ? & ? & ?) (? & ? & ? & ? & ?). repeat split; congruence.
Qed.

Lemma unlink_step E ab (coll : gset edge) xy sc s :
  xy ≠ ab → xy ∈ E → collisions sc !! xy = Some s → ab ∈ s → xy ∉ coll →
  nonempty_sets (collisions sc) → untangled sc = E ∖ dom (collisions sc) →
  ∃ sc', unlink ab coll xy sc = (Ok tt, sc') ∧ same_frame sc sc' ∧
    nonempty_sets (collisions sc') ∧ untangled sc' = E ∖ dom (collisions sc') ∧
    ∀ e f, linked (collisions sc') e f ↔
           linked (collisions sc) e f ∧ ¬ (e = xy ∧ f = ab).
Proof.
  intros Hne HxyE Hs Hab Hcoll Hnon Hpart.
  unfold unlink. rewrite decide_False by done. cbv [bind get]. rewrite Hs.
  rewrite decide_True by done. cbv [modify]. simpl.
  destruct (decide (size (s ∖ {[ab]}) = 0%nat)) as [Hz|Hnz]; simpl;
    rewrite decide_False by done; simpl;
    (eexists; split; [reflexivity|]); simpl;
    (split; [by repeat split|]).
  - apply size_empty_inv, leibniz_equiv in Hz.
    split; [|split].
    + intros e s' He. destruct (decide (e = xy)) as [->|Hexy].
      * by rewrite lookup_delete_eq in He.
      * rewrite lookup_delete_ne, lookup_insert_ne in He by done. eauto.
    + rewrite Hpart, dom_delete_L, dom_insert_L. apply set_eq. intros e.
      destruct (decide (e = xy)) as [->|Hexy]; set_solver.
    + intros e f. rewrite linked_delete, linked_insert. split.
      * intros (Hexy & [[? _]|[_ Hl]]); [done|]. split; [done|]. tauto.
      * intros (Hl & Hnot). destruct (decide (e = xy)) as [->|Hexy]; [|tauto].
        exfalso. destruct Hl as (s' & Hs' & Hf). rewrite Hs in Hs'.
        injection Hs' as <-. destruct (decide (f = ab)) as [->|Hfab]; [tauto|].
        set_solver.
  - split; [|split].
    + intros e s' He. destruct (decide (e = xy)) as [->|Hexy].
      * rewrite lookup_insert_eq in He. injection He as <-.
        intros Hempty. apply Hnz. rewrite Hempty. apply size_empty.
      * rewrite lookup_insert_ne in He by done. eauto.
    + rewrite Hpart, dom_insert_L. apply set_eq. intros e.
      assert (xy ∈ dom (collisions sc)) by (apply elem_of_dom; eauto).
      destruct (decide (e = xy)) as [->|Hexy]; set_solver.
    + intros e f. rewrite linked_insert. split.
      * intros [[-> Hf]|[Hexy Hl]].
        -- split; [exists s; set_solver|]. set_solver.
        -- split; [done|]. tauto.
      * intros (Hl & Hnot). destruct (decide (e = xy)) as [->|Hexy]; [|tauto].
        left. split; [done|]. destruct Hl as (s' & Hs' & Hf). rewrite Hs in Hs'.
        injection Hs' as <-. destruct (decide (f = ab)) as [->|Hfab]; [tauto|].
        set_solver.
Qed.

Lemma link_step E ab xy sc :
  xy ∈ E → nonempty_sets (collisions sc) →
  untangled sc = E ∖ dom (collisions sc) →
  ∃ sc', link ab xy sc = (Ok tt, sc') ∧ same_frame sc sc' ∧
    nonempty_sets (collisions sc') ∧ untangled sc' = E ∖ dom (collisions sc') ∧
    ∀ e f, linked (collisions sc') e f ↔
           linked (collisions sc) e f ∨ (e = xy ∧ f = ab).
Proof.
  intros HxyE Hnon Hpart. unfold link, setdefault_add. cbv [bind get].
  destruct (decide (xy ∈ dom (collisions sc))) as [Hdom|Hdom].
  - cbv [ret modify]. simpl. eexists. split; [reflexivity|]. simpl.
    split; [by repeat split|]. split; [|split].
    + intros e s He. destruct (decide (e = xy)) as [->|Hexy].
      * rewrite lookup_insert_eq in He. injection He as <-. set_solver.
      * rewrite lookup_insert_ne in He by done. eauto.
    + rewrite Hpart, dom_insert_L. apply set_eq. intros e.
      destruct (decide (e = xy)) as [->|Hexy]; set_solver.
    + intros e f. rewrite linked_insert.
      apply elem_of_dom in Hdom as [s Hs]. rewrite Hs. simpl. split.
      * intros [[-> Hf]|[Hexy Hl]]; [|tauto].
        apply elem_of_union in Hf as [Hf|Hf]; [left; by exists s|].
        apply elem_of_singleton in Hf. tauto.
      * intros [Hl|[-> ->]].
        -- destruct (decide (e = xy)) as [->|Hexy]; [|tauto]. left. split; [done|].
           destruct Hl as (s' & Hs' & Hf). rewrite Hs in Hs'. injection Hs' as <-.
           set_solver.
        -- left. split; [done|]. set_solver.
  - rewrite decide_True by (rewrite Hpart; set_solver).
    cbv [ret modify]. simpl. eexists. split; [reflexivity|]. simpl.
    split; [by repeat split|]. rewrite lookup_insert_eq. simpl.
    split; [|split].
    + intros e s He. destruct (decide (e = xy)) as [->|Hexy].
      * rewrite lookup_insert_eq in He. injection He as <-. set_solver.
      * rewrite !lookup_insert_ne in He by done. eauto.
    + rewrite Hpart, !dom_insert_L. apply set_eq. intros e.
      destruct (decide (e = xy)) as [->|Hexy]; set_solver.
    + intros e f. rewrite !linked_insert. split.
      * intros [[-> Hf]|[Hexy [[? _]|[_ Hl]]]]; [|done|tauto].
        right. split; [done|]. set_solver.
      * intros [Hl|[-> ->]].
        -- destruct (decide (e = xy)) as [->|Hexy]; [|tauto].
           exfalso. apply Hdom. destruct Hl as (s' & Hs' & _).
           apply elem_of_dom. eauto.
        -- left. split; [done|]. set_solver.
Qed.

Lemma unlink_loop E ab (coll : gset edge) sc :
  (∀ e f, linked (collisions sc) e f → linked (collisions sc) f e) →
  (∀ e f, linked (collisions sc) e f → touching f e = false ∧ e ∈ E) →
  nonempty_sets (collisions sc) → untangled sc = E ∖ dom (collisions sc) →
  ∃ sc', for_each (elements (default ∅ (collisions sc !! ab))) (unlink ab coll) sc
           = (Ok tt, sc') ∧
    same_frame sc sc' ∧
    nonempty_sets (collisions sc') ∧ untangled sc' = E ∖ dom (collisions sc') ∧
    ∀ e f, linked (collisions sc') e f ↔
           linked (collisions sc) e f ∧ (f = ab → e ∈ coll).
Proof.
  intros Hsym Hapart Hnon Hpart.
  set (prev := default ∅ (collisions sc !! ab)).
  assert (Hprev : ∀ e, e ∈ prev ↔ linked (collisions sc) ab e).
  { intros e. unfold prev, linked. destruct (collisions sc !! ab) as [s|]; simpl.
    - split; [by exists s|]. by intros (s' & [= <-] & ?).
    - split; [set_solver|]. by intros (s' & ? & ?). }
  destruct (for_each_invariant
    (λ done sc', same_frame sc sc' ∧ nonempty_sets (collisions sc') ∧
       untangled sc' = E ∖ dom (collisions sc') ∧
       ∀ e f, linked (collisions sc') e f ↔
              linked (collisions sc) e f ∧ (f = ab → e ∈ done → e ∈ coll))
    (unlink ab coll) (elements prev)) with (s := sc)
    as (sc' & Hrun & Hfr & Hnon' & Hpart' & Hrel).
  - intros done x rest s Hl (Hfr & Hnon' & Hpart' & Hrel).
    assert (Hx : x ∈ prev).
    { apply elem_of_elements. rewrite Hl. set_solver. }
    assert (Hxd : x ∉ done).
    { pose proof (NoDup_elements prev) as Hnd. rewrite Hl in Hnd.
      apply NoDup_app in Hnd as (_ & Hnd & _). intros Hin.
      apply (Hnd x Hin). left. }
    apply Hprev in Hx.
    destruct (Hapart _ _ Hx) as [Htouch _].
    pose proof (touching_false_ne _ _ Htouch) as Hxab.
    pose proof (Hsym _ _ Hx) as Hx'.
    destruct (Hapart _ _ Hx') as [_ HxE].
    destruct (decide (x ∈ coll)) as [Hxc|Hxc].
    + exists s. split; [unfold unlink; by rewrite decide_True|].
      split; [done|]. split; [done|]. split; [done|].
      intros e f. rewrite Hrel. split.
      * intros (Hl' & Himp). split; [done|]. intros Hf Hin.
        apply elem_of_app in Hin as [Hin|Hin]; [by apply Himp|].
        apply list_elem_of_singleton in Hin. by subst e.
      * intros (Hl' & Himp). split; [done|]. intros Hf Hin. apply Himp; [done|].
        apply elem_of_app. by left.
    + assert (Hlx : linked (collisions s) x ab).
      { apply Hrel. split; [done|]. intros _ Hin. done. }
      destruct Hlx as (sx & Hsx & Habx).
      destruct (unlink_step E ab coll x s sx) as (s' & Hrun & Hfr' & Hn & Hp & Hr);
        try done.
      exists s'. split; [done|]. split; [by eapply same_frame_trans|].
      split; [done|]. split; [done|].
      intros e f. rewrite Hr, Hrel. split.
      * intros ((Hl' & Himp) & Hnot). split; [done|]. intros Hf Hin.
        apply elem_of_app in Hin as [Hin|Hin]; [by apply Himp|].
        apply list_elem_of_singleton in Hin. subst e. tauto.
      * intros (Hl' & Himp). split.
        -- split; [done|]. intros Hf Hin. apply Himp; [done|].
           apply elem_of_app. by left.
        -- intros [-> ->]. apply Hxc, Himp; [done|].
           apply elem_of_app. right. apply list_elem_of_singleton. done.
  - split; [apply same_frame_refl|]. split; [done|]. split; [done|].
    intros e f. split; [|tauto]. intros Hl. split; [done|].
    intros _ Hin. by apply elem_of_nil in Hin.
  - exists sc'. split; [done|]. split; [done|]. split; [done|]. split; [done|].
    intros e f. rewrite Hrel. split.
    + intros (Hl & Himp). split; [done|]. intros ->. apply Himp; [done|].
      apply elem_of_elements, Hprev. by apply Hsym.
    + intros (Hl & Himp). split; [done|]. tauto.
Qed.

Lemma link_loop E ab (coll : gset edge) sc :
  coll ⊆ E → nonempty_sets (collisions sc) →
  untangled sc = E ∖ dom (collisions sc) →
  ∃ sc', for_each (elements coll) (link ab) sc = (Ok tt, sc') ∧
    same_frame sc sc' ∧
    nonempty_sets (collisions sc') ∧ untangled sc' = E ∖ dom (collisions sc') ∧
    ∀ e f, linked (collisions sc') e f ↔
           linked (collisions sc) e f ∨ (f = ab ∧ e ∈ coll).
Proof.
  intros Hsub Hnon Hpart.
  destruct (for_each_invariant
    (λ done sc', same_frame sc sc' ∧ nonempty_sets (collisions sc') ∧
       untangled sc' = E ∖ dom (collisions sc') ∧
       ∀ e f, linked (collisions sc') e f ↔
              linked (collisions sc) e f ∨ (f = ab ∧ e ∈ done))
    (link ab) (elements coll)) with (s := sc)
    as (sc' & Hrun & Hfr & Hnon' & Hpart' & Hrel).
  - intros done x rest s Hl (Hfr & Hnon' & Hpart' & Hrel).
    assert (Hx : x ∈ coll).
    { apply elem_of_elements. rewrite Hl. set_solver. }
    destruct (link_step E ab x s) as (s' & Hrun & Hfr' & Hn & Hp & Hr);
      [by apply Hsub|done|done|].
    exists s'. split; [done|]. split; [by eapply same_frame_trans|].
    split; [done|]. split; [done|].
    intros e f. rewrite Hr, Hrel, elem_of_app, list_elem_of_singleton.
    naive_solver.
  - split; [apply same_frame_refl|]. split; [done|]. split; [done|].
    intros e f. rewrite elem_of_nil. tauto.
  - exists sc'. split; [done|]. split; [done|]. split; [done|]. split; [done|].
    intros e f. rewrite Hrel, elem_of_elements. done.
Qed.

(** *** One edge of the moved node *)

Lemma update_edge_spec E sc ab :
  links_ok E sc → untangled sc = E ∖ dom (collisions sc) → ab ∈ E →
  0 ≤ ab.1 < Z.of_nat (length (nodes sc)) →
  0 ≤ ab.2 < Z.of_nat (length (nodes sc)) →
  ∃ sc' pa pb,
    update_edge segmentsCross lineMeetsNode ab sc = (Ok tt, sc') ∧
    nodes sc !! Z.to_nat ab.1 = Some pa ∧ nodes sc !! Z.to_nat ab.2 = Some pb ∧
    nodes sc' = nodes sc ∧ nodes_shown sc' = nodes_shown sc ∧
    node2lines sc' = node2lines sc ∧ emitted sc' = emitted sc ∧
    lines sc' = <[ab := (pa, pb)]> (lines sc) ∧
    nonempty_sets (collisions sc') ∧
    untangled sc' = E ∖ dom (collisions sc') ∧
    ∀ e f, linked (collisions sc') e f ↔
      (e = ab ∧ f ∈ current_crossings (set_lines (λ m, <[ab := (pa, pb)]> m) sc) ab) ∨
      (f = ab ∧ e ∈ current_crossings (set_lines (λ m, <[ab := (pa, pb)]> m) sc) ab) ∨
      (e ≠ ab ∧ f ≠ ab ∧ linked (collisions sc) e f).
Proof.
  intros [Hlines Hsym Hapart Hnon] Hpart HabE Ha Hb.
  destruct (getitem_valid (nodes sc) ab.1 sc Ha) as (pa & Hpa & Hga).
  destruct (getitem_valid (nodes sc) ab.2 sc Hb) as (pb & Hpb & Hgb).
  pose (sc1 := set_lines (λ m, <[ab := (pa, pb)]> m) sc).
  pose (C := current_crossings sc1 ab).
  assert (Hd1 : dom (lines sc1) = E).
  { simpl. rewrite dom_insert_L. set_solver. }
  assert (HC : ∀ l, l ∈ C → l ∈ E ∧ touching l ab = false).
  { intros l Hl. apply current_crossings_spec in Hl as (Hd & Ht & _).
    - split; [|done]. by rewrite Hd1 in Hd.
    - by rewrite Hd1. }
  assert (HabC : ab ∉ C).
  { intros H. apply HC in H as [_ H]. by rewrite touching_self in H. }
  destruct (unlink_loop E ab C sc1)
    as (sc2 & Hrun2 & Hfr2 & Hnon2 & Hpart2 & Hrel2); try done.
  assert (Hframe : ∀ sc', same_frame sc1 sc' →
            nodes sc' = nodes sc ∧ nodes_shown sc' = nodes_shown sc ∧
            node2lines sc' = node2lines sc ∧ emitted sc' = emitted sc ∧
            lines sc' = <[ab := (pa, pb)]> (lines sc)).
  { intros sc' (-> & -> & -> & -> & ->). done. }
  assert (Hstart : update_edge segmentsCross lineMeetsNode ab sc =
    (if decide (0 < size C)%nat then
       modify (set_collisions (λ m, <[ab := C]> m)) ;;;
       modify (set_untangled (λ u, u ∖ {[ab]})) ;;;
       for_each (elements C) (link ab)
     else
       sc <- get ;;
       if decide (ab ∈ dom (collisions sc)) then
         modify (set_collisions (λ m, delete ab m)) ;;;
         modify (set_untangled (λ u, {[ab]} ∪ u))
       else ret tt) sc2).
  { unfold update_edge. step. rewrite decide_True by (by rewrite Hlines).
    step. step. step. step. step. cbv zeta. fold sc1. fold C.
    by rewrite (bind_ok _ _ _ _ _ Hrun2). }
  rewrite Hstart. clear Hstart.
  destruct (decide (0 < size C)%nat) as [Hpos|Hzero].
  - pose (sc3 := set_untangled (λ u, u ∖ {[ab]})
                   (set_collisions (λ m, <[ab := C]> m) sc2)).
    destruct (link_loop E ab C sc3)
      as (sc4 & Hrun4 & Hfr4 & Hnon4 & Hpart4 & Hrel4).
    + intros l Hl. by apply HC.
    + intros e s0 He. simpl in He. destruct (decide (e = ab)) as [->|Hne].
      * rewrite lookup_insert_eq in He. injection He as <-.
        intros Hempty. rewrite Hempty, size_empty in Hpos. lia.
      * rewrite lookup_insert_ne in He by done. eauto.
    + simpl. rewrite Hpart2, dom_insert_L. set_solver.
    + exists sc4, pa, pb. step. step. fold sc3. split; [exact Hrun4|].
      destruct (Hframe sc4) as (? & ? & ? & ? & ?).
      { eapply same_frame_trans; [exact Hfr2|]. exact Hfr4. }
      repeat (split; [done|]).
      intros e f. rewrite Hrel4. simpl. rewrite linked_insert, Hrel2.
      fold sc1. fold C. simpl.
      destruct (decide (f = ab)) as [->|Hf]; naive_solver.
  - assert (HCe : C = ∅).
    { apply leibniz_equiv, size_empty_inv. lia. }
    step. destruct (decide (ab ∈ dom (collisions sc2))) as [Hdom|Hdom].
    + exists (set_untangled (λ u, {[ab]} ∪ u)
                (set_collisions (λ m, delete ab m) sc2)), pa, pb.
      step. split; [reflexivity|].
      destruct (Hframe sc2 Hfr2) as (? & ? & ? & ? & ?). simpl.
      repeat (split; [done|]).
      split; [|split].
      * intros e s0 He. destruct (decide (e = ab)) as [->|Hne].
        -- by rewrite lookup_delete_eq in He.
        -- rewrite lookup_delete_ne in He by done. eauto.
      * rewrite Hpart2, dom_delete_L. apply set_eq. intros e.
        destruct (decide (e = ab)) as [->|Hne]; set_solver.
      * intros e f. rewrite linked_delete, Hrel2. fold sc1. fold C.
        rewrite HCe. simpl. set_solver.
    + exists sc2, pa, pb. split; [reflexivity|].
      destruct (Hframe sc2 Hfr2) as (? & ? & ? & ? & ?).
      repeat (split; [done|]).
      intros e f. rewrite Hrel2. fold sc1. fold C. rewrite HCe. simpl.
      split.
      * intros (Hl & Hf). right. right.
        split; [|split; [set_solver|done]].
        intros ->. apply Hdom.
        assert (Hl2 : linked (collisions sc2) ab f) by (apply Hrel2; split; [done|set_solver]).
        destruct Hl2 as (s0 & Hs0 & _). apply elem_of_dom. eauto.
      * intros [[_ ?]|[[_ ?]|(? & ? & ?)]]; set_solver.
Qed.

Lemma hit_sym L e f : cross_symmetric segmentsCross → hit L e f = hit L f e.
Proof.
  intros Hcs. unfold Scene.hit.
  destruct (L !! e) as [[p q]|], (L !! f) as [[r s]|]; done.
Qed.

Lemma hit_insert_ne L ab pq e f :
  e ≠ ab → f ≠ ab → hit (<[ab := pq]> L) e f = hit L e f.
Proof.
  intros He Hf. unfold Scene.hit. by rewrite !lookup_insert_ne.
Qed.

Lemma update_edge_wf E sc ab :
  wf E sc → ab ∈ E →
  ∃ sc' pa pb,
    update_edge segmentsCross lineMeetsNode ab sc = (Ok tt, sc') ∧
    wf E sc' ∧
    nodes sc' = nodes sc ∧ nodes_shown sc' = nodes_shown sc ∧
    node2lines sc' = node2lines sc ∧ emitted sc' = emitted sc ∧
    nodes sc !! Z.to_nat ab.1 = Some pa ∧ nodes sc !! Z.to_nat ab.2 = Some pb ∧
    lines sc' = <[ab := (pa, pb)]> (lines sc) ∧
    (cross_symmetric segmentsCross → exact segmentsCross E sc →
     exact segmentsCross E sc').
Proof.
  intros [Hlo Hrange Hpart Hlen Hsound Hcomplete] HabE.
  destruct (Hrange ab HabE) as [Ha Hb].
  destruct (update_edge_spec E sc ab Hlo Hpart HabE Ha Hb)
    as (sc' & pa & pb & Hrun & Hpa & Hpb & Hn & Hsh & Hn2l & Hem & Hl & Hnon' & Hpart' & Hrel).
  destruct Hlo as [Hlines Hsym Hapart Hnon].
  pose (sc1 := set_lines (λ m, <[ab := (pa, pb)]> m) sc).
  assert (Hd1 : dom (lines sc1) = E).
  { simpl. rewrite dom_insert_L. set_solver. }
  assert (HC : ∀ l, l ∈ current_crossings sc1 ab ↔
                    l ∈ E ∧ touching l ab = false ∧ hit (lines sc1) ab l = true).
  { intros l. rewrite current_crossings_spec by (by rewrite Hd1). by rewrite Hd1. }
  fold sc1 in Hrel.
  exists sc', pa, pb. split; [done|]. split.
  { split.
    + split.
      * rewrite Hl, dom_insert_L. set_solver.
      * intros e f. rewrite !Hrel. intros [[-> Hf]|[[-> He]|(? & ? & Hlk)]].
        -- right. left. done.
        -- left. done.
        -- right. right. repeat split; try done. by apply Hsym.
      * intros e f. rewrite Hrel. intros [[-> Hf]|[[-> He]|(? & ? & Hlk)]].
        -- apply HC in Hf as (? & ? & _). done.
        -- apply HC in He as (? & ? & _). split; [|done]. by rewrite touching_sym.
        -- by apply Hapart.
      * done.
    + rewrite Hn. done.
    + done.
    + by rewrite Hn2l, Hn.
    + rewrite Hn2l. done.
    + rewrite Hn2l. done. }
  repeat (split; [done|]).
  - intros Hcs Hex e f. rewrite Hrel, !HC, Hl. simpl.
    destruct (decide (e = ab)) as [->|He].
    + split.
      * intros [[_ (H1 & H2 & H3)]|[[-> (H1 & Ht & H3)]|(Hne & _)]].
        -- by repeat split.
        -- by rewrite touching_self in Ht.
        -- done.
      * intros (_ & H1 & H2 & H3). left. by repeat split.
    + destruct (decide (f = ab)) as [->|Hf].
      * split.
        -- intros [[Heq _]|[[_ (H1 & H2 & H3)]|(_ & Hne & _)]]; [done| |done].
           split; [done|]. split; [done|].
           split; [by rewrite touching_sym|by rewrite hit_sym].
        -- intros (H1 & _ & H2 & H3). right. left. split; [done|].
           split; [done|].
           split; [by rewrite touching_sym|by rewrite hit_sym].
      * rewrite (hit_insert_ne _ ab _ e f) by done. rewrite (Hex e f). split.
        -- intros [[Heq _]|[[Heq _]|(_ & _ & H1)]]; done.
        -- intros H1. right. right. split; [done|]. split; [done|exact H1].
Qed.

(** *** [updateNode] *)

Lemma update_edges_loop E l : ∀ sc,
  wf E sc → (∀ e, e ∈ l → e ∈ E) →
  ∃ sc', for_each l (update_edge segmentsCross lineMeetsNode) sc = (Ok tt, sc') ∧
    wf E sc' ∧
    nodes sc' = nodes sc ∧ nodes_shown sc' = nodes_shown sc ∧
    node2lines sc' = node2lines sc ∧ emitted sc' = emitted sc ∧
    synced (list_to_set l) sc' ∧
    (∀ e, e ∉ l → lines sc' !! e = lines sc !! e) ∧
    (cross_symmetric segmentsCross → exact segmentsCross E sc →
     exact segmentsCross E sc').
Proof.
  induction l as [|ab l IH] using rev_ind; intros sc Hwf Hsub.
  - exists sc. split; [reflexivity|]. repeat (split; [done|]). auto.
  - destruct (IH sc Hwf) as (sc1 & Hrun1 & Hwf1 & Hn1 & Hsh1 & Hnl1 & Hem1 & Hsy1 & Hl1 & Hex1).
    { intros e He. apply Hsub. set_solver. }
    destruct (update_edge_wf E sc1 ab Hwf1) as
      (sc2 & pa & pb & Hrun2 & Hwf2 & Hn2 & Hsh2 & Hnl2 & Hem2 & Hpa & Hpb & Hl2 & Hex2).
    { apply Hsub. set_solver. }
    exists sc2. split.
    { clear -Hrun1 Hrun2. revert sc Hrun1.
      induction l as [|x l IHl]; intros sc Hrun1; simpl in *.
      - injection Hrun1 as <-. by rewrite (bind_ok _ _ _ _ _ Hrun2).
      - unfold bind in *. destruct (update_edge _ _ x sc) as [[[]|err] s1]; [|done].
        by apply IHl. }
    split; [done|]. split; [congruence|]. split; [congruence|].
    split; [congruence|]. split; [congruence|]. split; [|split].
    + intros e He. rewrite list_to_set_app_L in He.
      destruct (decide (e = ab)) as [->|Hne].
      * exists pa, pb. rewrite Hn2, Hl2, lookup_insert_eq. done.
      * assert (He1 : e ∈ (list_to_set l : gset edge)) by set_solver.
        destruct (Hsy1 e He1) as (p & q & Hp & Hq & Hpq).
        exists p, q. rewrite Hn2, Hl2, lookup_insert_ne by done. done.
    + intros e He. rewrite Hl2, lookup_insert_ne by set_solver.
      apply Hl1. set_solver.
    + intros Hcs Hex. apply Hex2; [done|]. by apply Hex1.
Qed.

Lemma updateNode_spec E sc (v : nat) l :
  wf E sc → E ≠ ∅ → node2lines sc !! v = Some l →
  ∃ sc', updateNode segmentsCross lineMeetsNode (Z.of_nat v) sc = (Ok tt, sc') ∧
    wf E sc' ∧
    nodes sc' = nodes sc ∧ nodes_shown sc' = nodes_shown sc ∧
    emitted sc' = emitted sc ++ [Progress (size (untangled sc')) (size E)] ∧
    synced (list_to_set l) sc' ∧
    (∀ e, e ∉ l → lines sc' !! e = lines sc !! e) ∧
    (cross_symmetric segmentsCross → exact segmentsCross E sc →
     exact segmentsCross E sc').
Proof.
  intros Hwf HE Hv.
  destruct (update_edges_loop E l sc Hwf)
    as (sc1 & Hrun1 & Hwf1 & Hn1 & Hsh1 & Hnl1 & Hem1 & Hsy1 & Hl1 & Hex1).
  { intros e He. by eapply (wf_n2l_sound _ _ Hwf). }
  assert (Hget : getitem (node2lines sc) (Z.of_nat v) sc = (Ok l, sc)).
  { destruct (getitem_valid (node2lines sc) (Z.of_nat v) sc) as (l' & Hl' & Hg).
    - apply lookup_lt_Some in Hv. lia.
    - rewrite Nat2Z.id in Hl'. congruence. }
  assert (Hsize : size (lines sc1) = size E).
  { rewrite <- (lo_lines _ _ (wf_links _ _ Hwf1)). by rewrite size_dom. }
  unfold updateNode. step. step. step. step.
  rewrite decide_False.
  2:{ rewrite Hsize. intros Hz. apply HE, leibniz_equiv, size_empty_inv. done. }
  eexists. split; [reflexivity|]. simpl. rewrite Hsize, Hem1.
  split.
  { destruct Hwf1 as [[? ? ? ?] ? ? ? ? ?]. split; [split|..]; assumption. }
  split; [done|]. split; [done|]. split; [done|].
  split; [exact Hsy1|]. split; [exact Hl1|exact Hex1].
Qed.

(** *** [mouseMoveEvent] *)

Lemma mouseMoveEvent_spec E sc (i : nat) p :
  wf E sc → synced E sc → E ≠ ∅ → (i < length (nodes sc))%nat →
  ∃ sc', mouseMoveEvent segmentsCross lineMeetsNode i p sc = (Ok tt, sc') ∧
    wf E sc' ∧ synced E sc' ∧
    nodes sc' = <[i := p]> (nodes sc) ∧ nodes_shown sc' = nodes_shown sc ∧
    emitted sc' = emitted sc ++ [Progress (size (untangled sc')) (size E)] ∧
    (cross_symmetric segmentsCross → exact segmentsCross E sc →
     exact segmentsCross E sc').
Proof.
  intros Hwf Hsy HE Hi.
  pose (sc0 := set_nodes (λ l, <[i := p]> l) sc).
  assert (Hwf0 : wf E sc0).
  { destruct Hwf as [[? ? ? ?] ? ? ? ? ?].
    split; [by split|..]; simpl; rewrite ?length_insert; done. }
  destruct (lookup_lt_is_Some_2 (node2lines sc) i) as [l Hl].
  { by rewrite (wf_n2l_length _ _ Hwf). }
  destruct (updateNode_spec E sc0 i l Hwf0 HE Hl)
    as (sc' & Hrun & Hwf' & Hn & Hsh & Hem & Hsyl & Hlines & Hex).
  exists sc'. unfold mouseMoveEvent. step. fold sc0.
  split; [done|]. split; [done|]. split; [|by repeat (split; [done|])].
  intros e He. destruct (decide (e ∈ l)) as [Hel|Hel].
  - apply Hsyl. set_solver.
  - destruct (Hsy e He) as (pa & pb & Hpa & Hpb & Hpq).
    destruct (wf_n2l_complete _ _ Hwf e He) as [(l1 & Hl1 & He1) (l2 & Hl2 & He2)].
    assert (Z.to_nat e.1 ≠ i) by (intros Heq; rewrite Heq in Hl1; congruence).
    assert (Z.to_nat e.2 ≠ i) by (intros Heq; rewrite Heq in Hl2; congruence).
    exists pa, pb. rewrite Hn, (Hlines e Hel). simpl.
    rewrite !list_lookup_insert_ne by done. done.
Qed.

(** *** [getEdges] *)

Lemma n2e_append_spec n2e (a : Z) x :
  0 ≤ a < Z.of_nat (length n2e) →
  ∃ n2e', n2e_append n2e a x = Some n2e' ∧ length n2e' = length n2e ∧
    ∀ i e, listed n2e' i e ↔ listed n2e i e ∨ (i = Z.to_nat a ∧ e = x).
Proof.
  intros Ha. unfold n2e_append, py_norm.
  replace (0 <=? a) with true by (symmetry; apply Z.leb_le; lia).
  replace (a <? Z.of_nat (length n2e)) with true by (symmetry; apply Z.ltb_lt; lia).
  simpl. destruct (lookup_lt_is_Some_2 n2e (Z.to_nat a)) as [l Hl]; [lia|].
  rewrite Hl. simpl. eexists. split; [reflexivity|].
  split; [by rewrite length_insert|].
  intros i e. unfold listed. destruct (decide (i = Z.to_nat a)) as [->|Hne].
  - rewrite list_lookup_insert_eq by (by eapply lookup_lt_Some). split.
    + intros (l' & [= <-] & He). apply elem_of_app in He as [He|He].
      * left. eauto.
      * right. apply list_elem_of_singleton in He. done.
    + intros [(l' & Hl' & He)|[_ ->]]; eexists; (split; [reflexivity|]).
      * rewrite Hl in Hl'. injection Hl' as <-. apply elem_of_app. by left.
      * apply elem_of_app. right. by apply list_elem_of_singleton.
  - rewrite list_lookup_insert_ne by done. naive_solver.
Qed.

Lemma n2e_fill_spec es : ∀ n2e,
  (∀ e, e ∈ es → 0 ≤ e.1 < Z.of_nat (length n2e) ∧ 0 ≤ e.2 < Z.of_nat (length n2e)) →
  ∃ n2e', n2e_fill es n2e = Some n2e' ∧ length n2e' = length n2e ∧
    ∀ i e, listed n2e' i e ↔
           listed n2e i e ∨ (e ∈ es ∧ (i = Z.to_nat e.1 ∨ i = Z.to_nat e.2)).
Proof.
  induction es as [|ab es IH]; intros n2e Hr; simpl.
  - exists n2e. split; [done|]. split; [done|]. intros i e.
    rewrite elem_of_nil. tauto.
  - destruct (Hr ab) as [Ha Hb]; [by left|].
    destruct (n2e_append_spec n2e ab.1 ab Ha) as (n1 & -> & Hlen1 & H1). simpl.
    destruct (n2e_append_spec n1 ab.2 ab) as (n2 & -> & Hlen2 & H2); [by rewrite Hlen1|].
    simpl. destruct (IH n2) as (n3 & -> & Hlen3 & H3).
    { intros e He. rewrite Hlen2, Hlen1. apply Hr. by right. }
    exists n3. split; [done|]. split; [congruence|].
    intros i e. rewrite H3, H2, H1, elem_of_cons. naive_solver.
Qed.

Lemma getEdges_spec n es :
  (∀ e, e ∈ es → 0 ≤ e.1 < Z.of_nat n ∧ 0 ≤ e.2 < Z.of_nat n) →
  ∃ n2e, getEdges n es = Some n2e ∧ length n2e = n ∧
    ∀ i e, listed n2e i e ↔ e ∈ es ∧ (i = Z.to_nat e.1 ∨ i = Z.to_nat e.2).
Proof.
  intros Hr. unfold getEdges.
  destruct (n2e_fill_spec es (replicate n [])) as (n2e & Hrun & Hlen & Hspec).
  { by rewrite length_replicate. }
  exists n2e. split; [done|]. split; [by rewrite Hlen, length_replicate|].
  intros i e. rewrite Hspec. split; [|tauto].
  intros [(l & Hl & He)|?]; [|done].
  apply lookup_replicate in Hl as [-> _]. by apply elem_of_nil in He.
Qed.

(** *** [init] *)

Lemma linked_setdefault (m : gmap edge (gset edge)) k v e f :
  linked (<[k := default ∅ (m !! k) ∪ {[v]}]> m) e f ↔
  linked m e f ∨ (e = k ∧ f = v).
Proof.
  rewrite linked_insert. unfold linked. destruct (m !! k) as [s|] eqn:Hk; simpl.
  - split.
    + intros [[-> Hf]|[Hne Hl]]; [|tauto].
      apply elem_of_union in Hf as [Hf|Hf]; [left; eauto|].
      apply elem_of_singleton in Hf. tauto.
    + intros [(s' & Hs' & Hf)|[-> ->]].
      * destruct (decide (e = k)) as [->|Hne]; [|right; eauto].
        left. split; [done|]. rewrite Hk in Hs'. injection Hs' as <-. set_solver.
      * left. split; [done|]. set_solver.
  - split.
    + intros [[-> Hf]|[Hne Hl]]; [|tauto]. right. split; [done|]. set_solver.
    + intros [(s' & Hs' & Hf)|[-> ->]].
      * destruct (decide (e = k)) as [->|Hne]; [congruence|]. right. eauto.
      * left. split; [done|]. set_solver.
Qed.

Lemma nonempty_setdefault (m : gmap edge (gset edge)) k v :
  nonempty_sets m → nonempty_sets (<[k := default ∅ (m !! k) ∪ {[v]}]> m).
Proof.
  intros Hn e s He. destruct (decide (e = k)) as [->|Hne].
  - rewrite lookup_insert_eq in He. injection He as <-. set_solver.
  - rewrite lookup_insert_ne in He by done. eauto.
Qed.

Lemma collidingItems_lines sc ab it :
  nodes_shown sc = false → it ∈ collidingItems sc ab → ∃ l, it = LineItem l.
Proof.
  intros Hsh. unfold Scene.collidingItems. rewrite Hsh.
  destruct (lines sc !! ab) as [[p q]|]; [|by intros ?%elem_of_nil].
  rewrite app_nil_r. intros ([l [r s]] & _ & Hf)%list_elem_of_omap.
  simpl in Hf. destruct (_ && _); [|done]. injection Hf as <-. eauto.
Qed.

Lemma add_line_spec D sc x :
  nodes_shown sc = false → links_ok D sc → x ∉ D →
  0 ≤ x.1 < Z.of_nat (length (nodes sc)) →
  0 ≤ x.2 < Z.of_nat (length (nodes sc)) →
  ∃ sc' pa pb,
    add_line segmentsCross lineMeetsNode x sc = (Ok tt, sc') ∧
    nodes sc' = nodes sc ∧ nodes_shown sc' = false ∧
    node2lines sc' = node2lines sc ∧ emitted sc' = emitted sc ∧
    untangled sc' = untangled sc ∧
    nodes sc !! Z.to_nat x.1 = Some pa ∧ nodes sc !! Z.to_nat x.2 = Some pb ∧
    lines sc' = <[x := (pa, pb)]> (lines sc) ∧
    links_ok ({[x]} ∪ D) sc' ∧
    (cross_symmetric segmentsCross → exact segmentsCross D sc →
     exact segmentsCross ({[x]} ∪ D) sc').
Proof.
  intros Hsh [Hlines Hsym Hapart Hnon] HxD Ha Hb.
  destruct (getitem_valid (nodes sc) x.1 sc Ha) as (pa & Hpa & Hga).
  destruct (getitem_valid (nodes sc) x.2 sc Hb) as (pb & Hpb & Hgb).
  pose (sc1 := set_lines (λ m, <[x := (pa, pb)]> m) sc).
  assert (Hd1 : dom (lines sc1) = {[x]} ∪ D).
  { simpl. by rewrite dom_insert_L, Hlines. }
  assert (HC : ∀ l, l ∈ current_crossings sc1 x ↔
                    l ∈ D ∧ touching l x = false ∧ hit (lines sc1) x l = true).
  { intros l. rewrite current_crossings_spec by (rewrite Hd1; set_solver).
    rewrite Hd1. split; [|set_solver].
    intros (Hl & Ht & Hh). split; [|done].
    pose proof (touching_false_ne _ _ Ht). set_solver. }
  destruct (for_each_invariant
    (λ done s, same_frame sc1 s ∧ untangled s = untangled sc1 ∧
       nonempty_sets (collisions s) ∧
       ∀ e f, linked (collisions s) e f ↔
              linked (collisions sc) e f ∨
              (e = x ∧ LineItem f ∈ done ∧ touching f x = false) ∨
              (f = x ∧ LineItem e ∈ done ∧ touching e x = false))
    (λ l, match l with
          | NodeItem _ => raise AttributeError
          | LineItem l_ab =>
            if touching l_ab x then ret tt
            else setdefault_add x l_ab ;;; setdefault_add l_ab x
          end) (collidingItems sc1 x)) with (s := sc1)
    as (sc' & Hrun & Hfr & Hunt & Hnon' & Hrel).
  - intros done it rest s Hl (Hfr & Hunt & Hnon' & Hrel).
    destruct (collidingItems_lines sc1 x it) as [l ->]; [done| |].
    { rewrite Hl. set_solver. }
    destruct (touching l x) eqn:Ht.
    + exists s. split; [done|]. split; [done|]. split; [done|]. split; [done|].
      intros e f. rewrite Hrel, !elem_of_app, !list_elem_of_singleton.
      split; [tauto|].
      intros [?|[(? & [?|Heq] & ?)|(? & [?|Heq] & ?)]]; try tauto;
        injection Heq as ->; congruence.
    + eexists. split; [reflexivity|]. simpl.
      split; [destruct Hfr as (? & ? & ? & ? & ?); by repeat split|].
      split; [done|]. split; [by do 2 apply nonempty_setdefault|].
      intros e f. rewrite !linked_setdefault, Hrel, !elem_of_app,
        !list_elem_of_singleton.
      naive_solver.
  - split; [apply same_frame_refl|]. split; [done|]. split; [done|].
    intros e f. rewrite !elem_of_nil. tauto.
  - assert (Hrel' : ∀ e f, linked (collisions sc') e f ↔
              linked (collisions sc) e f ∨
              (e = x ∧ f ∈ current_crossings sc1 x) ∨
              (f = x ∧ e ∈ current_crossings sc1 x)).
    { intros e f. rewrite Hrel, !elem_of_current_crossings. tauto. }
    assert (Hold : ∀ e f, linked (collisions sc) e f → e ∈ D ∧ f ∈ D).
    { intros e f Hl. split; [by apply (Hapart e f)|].
      by apply (Hapart f e), Hsym. }
    destruct Hfr as (Hn & Hs & Hl & Hn2 & Hem).
    exists sc', pa, pb. split.
    { unfold add_line. step. step. step. step. step. fold sc1. exact Hrun. }
    simpl in *. repeat (split; [congruence|]). split.
    + split.
      * by rewrite Hl.
      * intros e f. rewrite !Hrel'.
        intros [Hlk|[[-> Hf]|[-> He]]]; [left; by apply Hsym|tauto|tauto].
      * intros e f. rewrite Hrel'. intros [Hlk|[[-> Hf]|[-> He]]].
        -- destruct (Hapart _ _ Hlk). set_solver.
        -- apply HC in Hf as (? & ? & _). set_solver.
        -- apply HC in He as (? & ? & _). rewrite touching_sym. set_solver.
      * done.
    + intros Hcs Hex e f. rewrite Hrel', !HC, Hl.
      destruct (decide (e = x)) as [->|He].
      * split.
        -- intros [Hlk|[[_ (? & ? & ?)]|[-> (? & Ht & ?)]]].
           ++ apply Hold in Hlk. tauto.
           ++ repeat split; try done; set_solver.
           ++ by rewrite touching_self in Ht.
        -- intros (_ & Hf & Ht & Hh). right. left. split; [done|].
           pose proof (touching_false_ne _ _ Ht). repeat split; try done. set_solver.
      * destruct (decide (f = x)) as [->|Hf].
        -- split.
           ++ intros [Hlk|[[? _]|[_ (? & ? & ?)]]]; try done.
              ** apply Hold in Hlk. tauto.
              ** repeat split; try done; [set_solver|set_solver|by rewrite touching_sym|].
                 by rewrite hit_sym.
           ++ intros (Hee & _ & Ht & Hh). right. right. split; [done|].
              repeat split; [set_solver|by rewrite touching_sym|by rewrite hit_sym].
        -- rewrite (hit_insert_ne _ x _ e f) by done. rewrite (Hex e f).
           split.
           ++ intros [(? & ? & ? & ?)|[[? _]|[? _]]]; try done.
              repeat split; try done; set_solver.
           ++ intros (? & ? & ? & ?). left. repeat split; try done; set_solver.
Qed.

Lemma links_ok_frame E sc sc' :
  lines sc' = lines sc → collisions sc' = collisions sc →
  links_ok E sc → links_ok E sc'.
Proof. intros Hl Hc [? ? ? ?]. split; rewrite ?Hl, ?Hc; done. Qed.

Lemma init_spec es pos :
  NoDup es →
  (∀ e, e ∈ es → 0 ≤ e.1 < Z.of_nat (length pos) ∧ 0 ≤ e.2 < Z.of_nat (length pos)) →
  ∃ sc, init segmentsCross lineMeetsNode es pos = (Ok tt, sc) ∧
    wf (list_to_set es) sc ∧ synced (list_to_set es) sc ∧
    nodes sc = pos ∧ nodes_shown sc = true ∧ emitted sc = [] ∧
    (cross_symmetric segmentsCross → exact segmentsCross (list_to_set es) sc).
Proof.
  intros Hnd Hr.
  destruct (getEdges_spec (length pos) es Hr) as (n2e & Hge & Hlen & Hn2e).
  destruct (for_each_invariant
    (λ done s, nodes s = pos ∧ nodes_shown s = false ∧ emitted s = [] ∧
       links_ok (list_to_set done) s ∧ synced (list_to_set done) s ∧
       (cross_symmetric segmentsCross → exact segmentsCross (list_to_set done) s))
    (add_line segmentsCross lineMeetsNode) es) with (s := blank pos)
    as (sc & Hrun & Hn & Hsh & Hem & Hlo & Hsy & Hex).
  - intros done x rest s Hl (Hn & Hsh & Hem & Hlo & Hsy & Hex).
    assert (Hx : x ∉ (list_to_set done : gset edge)).
    { rewrite Hl in Hnd. apply NoDup_app in Hnd as (_ & Hnd & _).
      rewrite elem_of_list_to_set. intros Hin. apply (Hnd x Hin). left. }
    assert (Heq : (list_to_set (done ++ [x]) : gset edge) = {[x]} ∪ list_to_set done).
    { rewrite list_to_set_app_L. simpl. set_solver. }
    destruct (Hr x) as [Ha Hb]; [rewrite Hl; set_solver|]. rewrite <- Hn in Ha, Hb.
    destruct (add_line_spec (list_to_set done) s x Hsh Hlo Hx Ha Hb)
      as (s' & pa & pb & Hrun & Hn' & Hsh' & _ & Hem' & _ & Hpa & Hpb & Hl' & Hlo' & Hex').
    exists s'. split; [done|]. rewrite Heq.
    split; [congruence|]. split; [done|]. split; [congruence|]. split; [done|].
    split; [|by auto].
    intros e He. destruct (decide (e = x)) as [->|Hne].
    + exists pa, pb. rewrite Hn', Hl', lookup_insert_eq. done.
    + destruct (Hsy e) as (p & q & ? & ? & ?); [set_solver|].
      exists p, q. rewrite Hn', Hl', lookup_insert_ne by done. done.
  - split; [done|]. split; [done|]. split; [done|]. split; [|split].
    + split; simpl.
      * by rewrite dom_empty_L.
      * intros e f Hl. by apply linked_empty in Hl.
      * intros e f Hl. by apply linked_empty in Hl.
      * intros e s He. by rewrite lookup_empty in He.
    + intros e He. set_solver.
    + intros _ e f. simpl. split; [by intros ?%linked_empty|set_solver].
  - eexists. split.
    { unfold init, init_body. step. change (nodes (blank pos)) with pos.
      rewrite Hge. step. step. step. step. reflexivity. }
    simpl. split; [|split; [|by repeat (split; [done|])]].
    + split; simpl.
      * by eapply links_ok_frame; [| |exact Hlo].
      * intros e He. rewrite Hn. apply Hr. by apply elem_of_list_to_set in He.
      * done.
      * by rewrite Hn.
      * intros i l e Hl He. rewrite elem_of_list_to_set.
        apply (Hn2e i e). by exists l.
      * intros e He. rewrite elem_of_list_to_set in He.
        split; apply Hn2e; tauto.
    + intros e He. destruct (Hsy e He) as (p & q & ? & ? & ?). by exists p, q.
Qed.

(** *** A whole session *)

Lemma play_spec es pos (moves : list (nat * point)) :
  NoDup es → es ≠ [] →
  (∀ e, e ∈ es → 0 ≤ e.1 < Z.of_nat (length pos) ∧ 0 ≤ e.2 < Z.of_nat (length pos)) →
  Forall (λ m, (m.1 < length pos)%nat) moves →
  ∃ sc, play segmentsCross lineMeetsNode es pos moves = (Ok tt, sc) ∧
    wf (list_to_set es) sc ∧ synced (list_to_set es) sc ∧
    nodes sc = foldl (λ l m, <[m.1 := m.2]> l) pos moves ∧
    length (nodes sc) = length pos ∧
    (cross_symmetric segmentsCross → exact segmentsCross (list_to_set es) sc).
Proof.
  intros Hnd Hne Hr Hmoves.
  destruct (init_spec es pos Hnd Hr) as (sc0 & Hinit & Hwf0 & Hsy0 & Hn0 & _ & _ & Hex0).
  assert (HE : (list_to_set es : gset edge) ≠ ∅).
  { destruct es as [|e es']; [done|]. set_solver. }
  destruct (for_each_invariant
    (λ done s, wf (list_to_set es) s ∧ synced (list_to_set es) s ∧
       nodes s = foldl (λ l m, <[m.1 := m.2]> l) pos done ∧
       length (nodes s) = length pos ∧
       (cross_symmetric segmentsCross → exact segmentsCross (list_to_set es) s))
    (λ m, mouseMoveEvent segmentsCross lineMeetsNode m.1 m.2) moves) with (s := sc0)
    as (sc & Hrun & Hwf & Hsy & Hn & Hlen & Hex).
  - intros done m rest s Hl (Hwf & Hsy & Hn & Hlen & Hex).
    assert (Hm : (m.1 < length (nodes s))%nat).
    { rewrite Hlen. rewrite Forall_forall in Hmoves. apply Hmoves.
      rewrite Hl. set_solver. }
    destruct (mouseMoveEvent_spec _ s m.1 m.2 Hwf Hsy HE Hm)
      as (s' & Hrun & Hwf' & Hsy' & Hn' & _ & _ & Hex').
    exists s'. split; [done|]. split; [done|]. split; [done|].
    split; [by rewrite foldl_app, Hn'; simpl; rewrite Hn|].
    split; [by rewrite Hn', length_insert|]. auto.
  - by rewrite Hn0.
  - exists sc. split; [|done]. unfold play. unfold init in Hinit.
    by rewrite (bind_ok _ _ _ _ _ Hinit).
Qed.

End TrackerFacts.

End SceneFacts.

(** * The claims about the scene *)

Module SceneClaims.
Import Scene SceneFacts.

Lemma properCross_symmetric : cross_symmetric properCross.
Proof. intros p q r s. unfold properCross. apply andb_comm. Qed.

Lemma square_session_valid : valid_session square_edges square_pos square_moves.
Proof.
  split; [|split; [|split]].
  - by apply (bool_decide_unpack _).
  - discriminate.
  - repeat constructor; simpl; lia.
  - repeat constructor; simpl; lia.
Qed.

Section Claims.
Context {point : Type}.
Variable segmentsCross : point → point → point → point → bool.
Variable lineMeetsNode : point → point → point → bool.

Lemma session_spec es pos (moves : list (nat * point)) :
  valid_session es pos moves →
  ∃ sc, play segmentsCross lineMeetsNode es pos moves = (Ok tt, sc) ∧
    wf (list_to_set es) sc ∧ synced (list_to_set es) sc ∧
    length (nodes sc) = length pos ∧
    (cross_symmetric segmentsCross → exact segmentsCross (list_to_set es) sc).
Proof.
  intros (Hnd & Hne & Hr & Hm).
  destruct (play_spec segmentsCross lineMeetsNode es pos moves Hnd Hne)
    as (sc & Hrun & Hwf & Hsy & _ & Hlen & Hex); [|done|].
  { by apply Forall_forall. }
  by exists sc.
Qed.

(** C1 (incremental = brute force).  After [init] on the edges [es] and the
    positions [pos] and any sequence of moves, each followed by
    [updateNode], the collision map kept by the scene is the collision map
    [init] builds from scratch on the positions the nodes have then.  The
    intersection test is taken symmetric in its two line items. *)
Theorem incremental_equals_brute_force es pos (moves : list (nat * point)) :
  cross_symmetric segmentsCross →
  valid_session es pos moves →
  ∃ sc sc_b,
    play segmentsCross lineMeetsNode es pos moves = (Ok tt, sc) ∧
    init segmentsCross lineMeetsNode es (nodes sc) = (Ok tt, sc_b) ∧
    collisions sc = collisions sc_b.
Proof.
  intros Hcs Hv.
  destruct (session_spec es pos moves Hv) as (sc & Hrun & Hwf & Hsy & Hlen & Hex).
  destruct Hv as (Hnd & Hne & Hr & Hm).
  destruct (init_spec segmentsCross lineMeetsNode es (nodes sc) Hnd)
    as (sc_b & Hinit & Hwf_b & Hsy_b & Hn_b & _ & _ & Hex_b).
  { rewrite Hlen. by apply Forall_forall. }
  exists sc, sc_b. split; [done|]. split; [done|].
  apply linked_ext.
  - apply (lo_nonempty _ _ (wf_links _ _ Hwf)).
  - apply (lo_nonempty _ _ (wf_links _ _ Hwf_b)).
  - intros e f. rewrite (Hex Hcs e f), (Hex_b Hcs e f).
    assert (Hhit : e ∈ (list_to_set es : gset edge) → f ∈ (list_to_set es : gset edge) →
                   hit segmentsCross (lines sc) e f = hit segmentsCross (lines sc_b) e f).
    { intros He Hf. unfold hit.
      destruct (Hsy e He) as (p & q & Hp & Hq & ->).
      destruct (Hsy f Hf) as (r & s & Hr' & Hs & ->).
      destruct (Hsy_b e He) as (p' & q' & Hp' & Hq' & ->).
      destruct (Hsy_b f Hf) as (r' & s' & Hr'' & Hs' & ->).
      rewrite Hn_b in *. congruence. }
    split; intros (He & Hf & Ht & Hh); (repeat split; [done..|]);
      [rewrite <- Hhit by done|rewrite Hhit by done]; done.
Qed.

(** C2 (partition).  After [init] and after every move the untangled set
    and the keys of the collision map are disjoint and together hold every
    edge. *)
Theorem partition_invariant es pos (moves : list (nat * point)) :
  valid_session es pos moves →
  ∃ sc, play segmentsCross lineMeetsNode es pos moves = (Ok tt, sc) ∧
    untangled sc ∩ dom (collisions sc) = ∅ ∧
    (∀ e : edge, e ∈ es → e ∈ untangled sc ∪ dom (collisions sc)) ∧
    untangled sc ∪ dom (collisions sc) = list_to_set es.
Proof.
  intros Hv.
  destruct (session_spec es pos moves Hv) as (sc & Hrun & Hwf & _).
  exists sc. split; [done|].
  pose proof (wf_part _ _ Hwf) as Hpart.
  assert (Hdom : dom (collisions sc) ⊆ list_to_set es).
  { intros e He.
    apply elem_of_dom_linked in He as [f Hl];
      [|apply (lo_nonempty _ _ (wf_links _ _ Hwf))].
    by apply (lo_apart _ _ (wf_links _ _ Hwf) e f). }
  rewrite Hpart. split; [set_solver|]. split.
  - intros e He. apply (elem_of_list_to_set (C := gset edge)) in He.
    destruct (decide (e ∈ dom (collisions sc))); set_solver.
  - apply set_eq. intros e.
    destruct (decide (e ∈ dom (collisions sc))); set_solver.
Qed.

(** C3 (well-formed collision map).  After [init] and after every move the
    collision map is symmetric and irreflexive, and two edges it records as
    crossing have no end in common. *)
Theorem collision_map_well_formed es pos (moves : list (nat * point)) :
  valid_session es pos moves →
  ∃ sc, play segmentsCross lineMeetsNode es pos moves = (Ok tt, sc) ∧
    (∀ e1 e2, linked (collisions sc) e1 e2 ↔ linked (collisions sc) e2 e1) ∧
    (∀ e, ¬ linked (collisions sc) e e) ∧
    (∀ e1 e2, linked (collisions sc) e1 e2 →
       e1.1 ≠ e2.1 ∧ e1.1 ≠ e2.2 ∧ e1.2 ≠ e2.1 ∧ e1.2 ≠ e2.2).
Proof.
  intros Hv.
  destruct (session_spec es pos moves Hv) as (sc & Hrun & Hwf & _).
  destruct (wf_links _ _ Hwf) as [_ Hsym Hapart _].
  exists sc. split; [done|]. split; [|split].
  - intros e1 e2. split; apply Hsym.
  - intros e Hl. destruct (Hapart _ _ Hl) as [Ht _].
    by rewrite touching_self in Ht.
  - intros e1 e2 Hl. destruct (Hapart _ _ Hl) as [Ht _].
    rewrite touching_sym in Ht. by apply touching_false_ends.
Qed.

(** C5 (progress counts).  A move of a node of the scene, in any state a
    session reaches, ends normally and sends [progress(a, b)] where [a] is
    the size of the untangled set after the update and [b], computed as
    [len(self.lines)], is both [a] plus the number of keys of the collision
    map after the update and the number of edges. *)
Theorem progress_counts es pos (moves : list (nat * point)) (v : nat) (p : point) :
  valid_session es pos moves → (v < length pos)%nat →
  ∃ sc sc' a b,
    play segmentsCross lineMeetsNode es pos moves = (Ok tt, sc) ∧
    mouseMoveEvent segmentsCross lineMeetsNode v p sc = (Ok tt, sc') ∧
    emitted sc' = emitted sc ++ [Progress a b] ∧
    a = size (untangled sc') ∧
    b = (size (untangled sc') + size (dom (collisions sc')))%nat ∧
    b = length es.
Proof.
  intros Hv Hlt.
  destruct (session_spec es pos moves Hv) as (sc & Hrun & Hwf & Hsy & Hlen & _).
  destruct Hv as (Hnd & Hne & Hr & Hm).
  assert (HE : (list_to_set es : gset edge) ≠ ∅).
  { destruct es as [|e es']; [done|]. set_solver. }
  destruct (mouseMoveEvent_spec segmentsCross lineMeetsNode _ sc v p Hwf Hsy HE)
    as (sc' & Hrun' & Hwf' & _ & _ & _ & Hem & _); [by rewrite Hlen|].
  exists sc, sc', (size (untangled sc')), (size (list_to_set es : gset edge)).
  split; [done|]. split; [done|]. split; [done|]. split; [done|].
  split; [|by apply size_list_to_set].
  assert (Hdom : dom (collisions sc') ⊆ list_to_set es).
  { intros e He.
    apply elem_of_dom_linked in He as [f Hl];
      [|apply (lo_nonempty _ _ (wf_links _ _ Hwf'))].
    by apply (lo_apart _ _ (wf_links _ _ Hwf') e f). }
  rewrite (wf_part _ _ Hwf'), size_difference by done.
  apply subseteq_size in Hdom. lia.
Qed.

(** C7, as the code has it.  [updateNode] has no check of the vertex and no
    error of its own for it: the index goes to the list [node2lines] under
    Python's rule.  An index at or above the number of vertices [N], or below
    [-N], raises [IndexError] at the first line, before anything is changed;
    an index from [-N] to [-1] is taken as the vertex [N + idx]. *)
Theorem updateNode_index_rule (sc : @scene point) (idx : Z) :
  let N := Z.of_nat (length (node2lines sc)) in
  (idx < - N ∨ N ≤ idx →
   updateNode segmentsCross lineMeetsNode idx sc = (Raise IndexError, sc)) ∧
  (- N ≤ idx < 0 →
   updateNode segmentsCross lineMeetsNode idx sc =
   updateNode segmentsCross lineMeetsNode (N + idx) sc).
Proof.
  intros N. split.
  - intros Hout. unfold updateNode. step.
    apply bind_raise. unfold getitem, py_index, py_norm. fold N.
    destruct Hout as [Hlow|Hhigh].
    + replace (0 <=? idx) with false by (symmetry; apply Z.leb_gt; lia).
      replace (- N <=? idx) with false by (symmetry; apply Z.leb_gt; lia).
      by rewrite andb_false_r.
    + replace (idx <? N) with false by (symmetry; apply Z.ltb_ge; lia).
      replace (idx <? 0) with false by (symmetry; apply Z.ltb_ge; lia).
      by rewrite andb_false_r.
  - intros Hneg.
    assert (Hget : ∀ s : @scene point,
              getitem (node2lines sc) idx s = getitem (node2lines sc) (N + idx) s).
    { intros s. unfold getitem, py_index, py_norm. fold N.
      replace (0 <=? idx) with false by (symmetry; apply Z.leb_gt; lia).
      replace (idx <? 0) with true by (symmetry; apply Z.ltb_lt; lia).
      replace (- N <=? idx) with true by (symmetry; apply Z.leb_le; lia).
      replace (0 <=? N + idx) with true by (symmetry; apply Z.leb_le; lia).
      replace (N + idx <? N) with true by (symmetry; apply Z.ltb_lt; lia).
      reflexivity. }
    unfold updateNode, bind. simpl. by rewrite Hget.
Qed.

(** C10, as the code has it.  [checkVictory] ends normally and leaves the
    positions, the line items, the adjacency, the collision map and the
    untangled set as they were; it always sends [refit], and then sends
    [victory] exactly when the collision map is empty. *)
Theorem checkVictory_effect (sc : @scene point) :
  ∃ sc', checkVictory sc = (Ok tt, sc') ∧
    nodes sc' = nodes sc ∧ nodes_shown sc' = nodes_shown sc ∧
    lines sc' = lines sc ∧ node2lines sc' = node2lines sc ∧
    collisions sc' = collisions sc ∧ untangled sc' = untangled sc ∧
    emitted sc' =
      emitted sc ++ Refit :: (if decide (collisions sc = ∅) then [Victory] else []).
Proof.
  unfold checkVictory. step. step. simpl.
  destruct (decide (size (collisions sc) ≠ 0%nat)) as [Hne|He].
  - eexists. split; [reflexivity|]. simpl. repeat (split; [done|]).
    rewrite decide_False; [done|]. intros He. apply Hne.
    by apply map_size_empty_iff.
  - eexists. split; [reflexivity|]. simpl. repeat (split; [done|]).
    rewrite decide_True; [by rewrite <- app_assoc|].
    apply map_size_empty_iff. destruct (size (collisions sc)); [done|].
    exfalso. apply He. done.
Qed.

End Claims.

Lemma incremental_equals_brute_force_witness :
  ∃ sc sc_b,
    play properCross noNodeHit square_edges square_pos square_moves = (Ok tt, sc) ∧
    init properCross noNodeHit square_edges (nodes sc) = (Ok tt, sc_b) ∧
    collisions sc = collisions sc_b.
Proof.
  exact (incremental_equals_brute_force properCross noNodeHit
           square_edges square_pos square_moves
           properCross_symmetric square_session_valid).
Defined.

Lemma partition_invariant_witness :
  ∃ sc, play properCross noNodeHit square_edges square_pos square_moves = (Ok tt, sc) ∧
    untangled sc ∩ dom (collisions sc) = ∅ ∧
    (∀ e : edge, e ∈ square_edges → e ∈ untangled sc ∪ dom (collisions sc)) ∧
    untangled sc ∪ dom (collisions sc) = list_to_set square_edges.
Proof.
  exact (partition_invariant properCross noNodeHit
           square_edges square_pos square_moves square_session_valid).
Defined.

Lemma collision_map_well_formed_witness :
  ∃ sc, play properCross noNodeHit square_edges square_pos square_moves = (Ok tt, sc) ∧
    (∀ e1 e2, linked (collisions sc) e1 e2 ↔ linked (collisions sc) e2 e1) ∧
    (∀ e, ¬ linked (collisions sc) e e) ∧
    (∀ e1 e2, linked (collisions sc) e1 e2 →
       e1.1 ≠ e2.1 ∧ e1.1 ≠ e2.2 ∧ e1.2 ≠ e2.1 ∧ e1.2 ≠ e2.2).
Proof.
  exact (collision_map_well_formed properCross noNodeHit
           square_edges square_pos square_moves square_session_valid).
Defined.

Lemma progress_counts_witness :
  ∃ sc sc' a b,
    play properCross noNodeHit square_edges square_pos square_moves = (Ok tt, sc) ∧
    mouseMoveEvent properCross noNodeHit 1 (2, 0) sc = (Ok tt, sc') ∧
    emitted sc' = emitted sc ++ [Progress a b] ∧
    a = size (untangled sc') ∧
    b = (size (untangled sc') + size (dom (collisions sc')))%nat ∧
    b = length square_edges.
Proof.
  apply (progress_counts properCross noNodeHit
           square_edges square_pos square_moves 1 (2, 0) square_session_valid).
  simpl. lia.
Defined.

Lemma updateNode_index_rule_witness :
  updateNode properCross noNodeHit 4 square_scene = (Raise IndexError, square_scene) ∧
  updateNode properCross noNodeHit (-1) square_scene =
  updateNode properCross noNodeHit 3 square_scene.
Proof.
  destruct (updateNode_index_rule properCross noNodeHit square_scene 4) as [H4 _].
  destruct (updateNode_index_rule properCross noNodeHit square_scene (-1)) as [_ H1].
  split.
  - apply H4. right. vm_compute. discriminate.
  - apply H1. vm_compute. split; [discriminate|reflexivity].
Defined.

(** The two scenarios of the square: after [init] the diagonals are
    recorded against each other and the four sides are untangled; once
    vertex 1 is dragged to [(-1,3)] nothing crosses and [checkVictory] sends
    [victory]. *)
Example square_after_init :
  map_to_list (collisions square_scene) = [((0,2), {[ (1,3) ]}); ((1,3), {[ (0,2) ]})] ∧
  untangled square_scene = {[ (0,1); (1,2); (2,3); (0,3) ]}.
Proof. split; vm_compute; reflexivity. Qed.

Example square_untangled_by_move :
  let r := (mouseMoveEvent properCross noNodeHit 1 (-1, 3) ;;; checkVictory)
             square_scene in
  r.1 = Ok tt ∧ collisions r.2 = ∅ ∧
  emitted r.2 = [Progress 6 6; Refit; Victory].
Proof. repeat split; vm_compute; reflexivity. Qed.

Example triangle_solved_at_once :
  let r := init properCross noNodeHit [(0,1); (1,2); (0,2)] [(0,0); (4,0); (0,3)] in
  r.1 = Ok tt ∧ collisions r.2 = ∅ ∧
  emitted (checkVictory r.2).2 = [Refit; Victory].
Proof. repeat split; vm_compute; reflexivity. Qed.

(** C7 counterexample: on the square, a call with the index [-1], which is
    not one of [0 .. 3], raises nothing; it ends normally, having gone
    through the edges of vertex 3 and sent [progress]. *)
Lemma negative_index_not_rejected :
  (updateNode properCross noNodeHit (-1) square_scene).1 = Ok tt ∧
  (∀ e, (updateNode properCross noNodeHit (-1) square_scene).1 ≠ Raise e) ∧
  emitted (updateNode properCross noNodeHit (-1) square_scene).2 = [Progress 4 6] ∧
  length (nodes square_scene) = 4%nat.
Proof.
  split; [vm_compute; reflexivity|].
  split; [intros e; vm_compute; discriminate|].
  split; vm_compute; reflexivity.
Qed.

(** C10 counterexample: on the square, where the diagonals cross and the
    answer is "not solved", [checkVictory] still has an effect: it sends
    [refit]. *)
Lemma checkVictory_sends_refit :
  collisions square_scene ≠ ∅ ∧
  emitted square_scene = [] ∧
  emitted (checkVictory square_scene).2 = [Refit].
Proof.
  split; [|split; vm_compute; reflexivity].
  intros He. assert (Hs : size (collisions square_scene) = 0%nat) by (by rewrite He).
  vm_compute in Hs. discriminate.
Qed.

End SceneClaims.

(** * More about the generator *)

Module GenExtra.
Import Gen GenFacts Rest.

Lemma size_remove (x : edge) (X : gset edge) :
  x ∈ X → S (size (X ∖ {[x]})) = size X.
Proof.
  intros Hx. rewrite size_difference by set_solver. rewrite size_singleton.
  assert (size X ≠ 0%nat); [|lia].
  intros Hz. apply size_empty_inv in Hz. set_solver.
Qed.

Lemma size_add_le (x : edge) (X : gset edge) :
  (size ({[x]} ∪ X) ≤ S (size X))%nat.
Proof.
  rewrite size_union_alt, size_singleton.
  assert (size (X ∖ {[x]}) ≤ size X)%nat by (apply subseteq_size; set_solver).
  lia.
Qed.

Lemma size_add_new (x : edge) (X : gset edge) :
  x ∉ X → size ({[x]} ∪ X) = S (size X).
Proof.
  intros Hx. rewrite size_union by set_solver. by rewrite size_singleton.
Qed.

Lemma scan_curled endpoints l : scan endpoints l = Curled → endpoints ∈ l.
Proof.
  induction l as [|x l IH]; simpl; [done|].
  case_bool_decide as Hx; [intros _; subst; left|].
  destruct (in_pair x.1 endpoints || in_pair x.2 endpoints); [done|].
  intros H. right. by apply IH.
Qed.

Lemma choice_lookup {A} (l : list A) (i : nat) :
  l ≠ [] → is_Some (l !! (i mod length l)%nat).
Proof.
  intros Hl. apply lookup_lt_is_Some_2. apply Nat.mod_upper_bound.
  destruct l; [done|]. simpl. lia.
Qed.

Lemma elements_nonempty (X : gset edge) : X ≠ ∅ → elements X ≠ [].
Proof.
  intros HX Hel. apply HX. apply elements_empty_inv in Hel.
  by apply leibniz_equiv in Hel.
Qed.

Section Outcomes.
Variable rnd : tape.

Lemma choice_outside g (i : nat) :
  outside_edges g ≠ ∅ →
  ∃ ab, elements (outside_edges g) !!
          (i mod length (elements (outside_edges g)))%nat = Some ab ∧
        ab ∈ outside_edges g.
Proof.
  intros Hne.
  destruct (choice_lookup (elements (outside_edges g)) i) as [ab Hab];
    [by apply elements_nonempty|].
  exists ab. split; [exact Hab|].
  apply elem_of_elements. by eapply list_elem_of_lookup_2.
Qed.

Lemma choice_pair (ab : edge) (i : nat) :
  ∃ pivot, [ab.1; ab.2] !! (i mod 2)%nat = Some pivot ∧
           (pivot = ab.1 ∨ pivot = ab.2).
Proof.
  destruct (i mod 2)%nat as [|[|n]] eqn:Hi.
  - exists ab.1. by split; [|left].
  - exists ab.2. by split; [|right].
  - pose proof (Nat.mod_upper_bound i 2). lia.
Qed.

Lemma fan_fine k : ∀ ab base pivot g,
  ab ∈ outside_edges g → fine (fan rnd k ab base pivot g).
Proof.
  induction k as [|k IH]; intros ab base pivot g Hab; rewrite fan_eq;
    rewrite decide_True by done; cbv zeta;
    destruct (Qgtb _ _ || _).
  - split; [by left|]. intros _. simpl. set_solver.
  - split; [by right; right|]. done.
  - split; [by left|]. intros _. simpl. set_solver.
  - apply IH. simpl. set_solver.
Qed.

Lemma addLines_fine fuel : ∀ g,
  outside_edges g ≠ ∅ → fine (addLines rnd fuel g).
Proof.
  induction fuel as [|fuel IH]; intros g Hne.
  { split; [by right; right|done]. }
  rewrite addLines_eq.
  destruct (choice_outside g (index_at rnd (clock g)) Hne) as (ab & Hl & Hab).
  destruct (choice_pair ab (index_at rnd (S (clock g)))) as (pivot & Hp & _).
  unfold edge in *. rewrite Hl, Hp.
  cbv zeta. destruct (Qgtb _ _); [by apply IH|].
  by apply fan_fine.
Qed.

Lemma walk_fine retry :
  (∀ s, outside_edges s ≠ ∅ → fine (retry s)) →
  ∀ k endpoints g, fine (walk rnd retry k endpoints g).
Proof.
  intros Hretry. induction k as [|k IH]; intros endpoints g; rewrite walk_eq.
  all: destruct (scan _ _) as [|xy|] eqn:Hscan.
  all: try (split; [by right; left|done]).
  all: try (apply Hretry; simpl; apply scan_curled in Hscan;
            apply elem_of_rotate, elem_of_elements in Hscan; set_solver).
  all: apply scan_found in Hscan as (Hin & _ & _);
    apply elem_of_rotate, elem_of_elements in Hin;
    rewrite decide_True by done; cbv zeta;
    destruct (Qgtb _ _).
  - split; [by left|]. intros _. simpl. set_solver.
  - split; [by right; right|done].
  - split; [by left|]. intros _. simpl. set_solver.
  - apply IH.
Qed.

Lemma removeLines_fine fuel : ∀ g,
  outside_edges g ≠ ∅ → fine (removeLines rnd fuel g).
Proof.
  induction fuel as [|fuel IH]; intros g Hne.
  { split; [by right; right|done]. }
  rewrite removeLines_eq.
  destruct (choice_outside g (index_at rnd (clock g)) Hne) as (ab & Hl & Hab).
  unfold edge in *. rewrite Hl.
  rewrite decide_True by done.
  by apply walk_fine.
Qed.

Lemma shrink_fine fuel outside_limit : ∀ g,
  outside_edges g ≠ ∅ → fine (shrink rnd fuel outside_limit g).
Proof.
  induction fuel as [|fuel IH]; intros g Hne; cbn [shrink];
    cbv [bind get random]; destruct (_ >? _);
    try (split; [by left|done]);
    destruct (Qltb _ _); simpl;
    try (split; [by left|done]).
  { split; [by right; right|done]. }
  destruct (removeLines_fine fuel (tick g) Hne) as [Hout Hok].
  destruct (removeLines _ _ _) as [[[]|e] s']; simpl in *.
  - apply IH. by apply Hok.
  - split; [|done]. destruct Hout as [?|[?|?]]; [done|by right; left|by right; right].
Qed.

Lemma grow_fine fuel node_limit outside_limit : ∀ g,
  outside_edges g ≠ ∅ → fine (grow rnd fuel node_limit outside_limit g).
Proof.
  induction fuel as [|fuel IH]; intros g Hne; cbn [grow];
    cbv [bind get]; destruct (_ <? _);
    try (split; [by left|done]).
  { split; [by right; right|done]. }
  destruct (addLines_fine fuel g Hne) as [Hout1 Hok1].
  destruct (addLines _ _ _) as [[[]|e] s1]; simpl in *.
  2:{ split; [|done]. destruct Hout1 as [?|[?|?]]; [done|by right; left|by right; right]. }
  destruct (shrink_fine fuel outside_limit s1 (Hok1 eq_refl)) as [Hout2 Hok2].
  destruct (shrink _ _ _ _) as [[[]|e] s2]; simpl in *.
  2:{ split; [|done]. destruct Hout2 as [?|[?|?]]; [done|by right; left|by right; right]. }
  apply IH. by apply Hok2.
Qed.

(** X1.  The constructor never ends in one of Python's lookup errors: its
    [rnd.choice] calls always find a boundary edge to choose and its
    [remove] calls always find the edge they remove.  It returns, or the
    sanity check of line 100 fails, or (in the model) the fuel runs out. *)
Theorem constructor_outcomes fuel node_limit outside_limit :
  (RandomGraph2 rnd fuel node_limit outside_limit).1 = Ok tt ∨
  (RandomGraph2 rnd fuel node_limit outside_limit).1 = Raise AssertionError ∨
  (RandomGraph2 rnd fuel node_limit outside_limit).1 = Raise OutOfFuel.
Proof.
  unfold RandomGraph2. rewrite construct_eq.
  destruct (grow_fine fuel node_limit
              (default (default_outside_limit node_limit) outside_limit)
              (fresh node_limit)) as [Hout _].
  { simpl. set_solver. }
  destruct (grow _ _ _ _ _) as [[[]|e] g']; simpl in *; [by left|].
  destruct Hout as [?|[?|?]]; [done|by right; left|by right; right].
Qed.

Section Monotone.

Lemma fan_grows k : ∀ ab base pivot g,
  all_edges g ⊆ all_edges (fan rnd k ab base pivot g).2 ∧
  node_idx g ≤ node_idx (fan rnd k ab base pivot g).2.
Proof.
  induction k as [|k IH]; intros ab base pivot g; rewrite fan_eq;
    (case_decide as Hab; [|done]); cbv zeta.
  all: match goal with |- context [tick ?g0] =>
         assert (Hstep : all_edges g ⊆ all_edges (tick g0) ∧
                         node_idx g ≤ node_idx (tick g0)) end.
  all: try (split; [|simpl; lia]; unfold all_edges; simpl;
            rewrite <- (all_edges_move ab (edges g) (outside_edges g)) by done;
            set_solver).
  all: destruct (Qgtb _ _ || _); simpl; try done.
  destruct (IH (pivot, node_idx g) (node_idx g) pivot
    (tick (set_node_idx (node_idx g + 1)
       (set_outside (λ s, {[ (pivot, node_idx g) ]} ∪ s)
          (set_outside (λ s, {[ (base, node_idx g) ]} ∪ s)
             (set_edges (λ s, {[ab]} ∪ s)
                (set_outside (λ s, s ∖ {[ab]}) g))))))) as [H1 H2].
  destruct Hstep as [H3 H4]. split; [set_solver|lia].
Qed.

Lemma addLines_grows fuel : ∀ g,
  all_edges g ⊆ all_edges (addLines rnd fuel g).2 ∧
  node_idx g ≤ node_idx (addLines rnd fuel g).2.
Proof.
  induction fuel as [|fuel IH]; intros g; [done|].
  rewrite addLines_eq.
  destruct (elements _ !! _) as [ab|]; [|done].
  destruct ([ab.1; ab.2] !! _) as [pivot|]; [|done].
  cbv zeta. destruct (Qgtb _ _).
  - apply (IH (tick (tick (tick g)))).
  - apply (fan_grows fuel ab (ab.1 + ab.2 - pivot) pivot (tick (tick (tick g)))).
Qed.

Lemma walk_grows retry :
  (∀ g, all_edges g ⊆ all_edges (retry g).2 ∧ node_idx (retry g).2 = node_idx g) →
  ∀ k endpoints g,
  all_edges g ⊆ all_edges (walk rnd retry k endpoints g).2 ∧
  node_idx (walk rnd retry k endpoints g).2 = node_idx g.
Proof.
  intros Hretry. induction k as [|k IH]; intros endpoints g; rewrite walk_eq.
  all: destruct (scan _ _) as [|xy|]; [apply (Hretry (tick g))| |done].
  all: case_decide as Hxy; [|done]; cbv zeta.
  all: assert (Hmove : all_edges (tick (set_edges (λ s, {[xy]} ∪ s)
                         (set_outside (λ s, s ∖ {[xy]}) (tick g)))) = all_edges g)
         by (unfold all_edges; simpl; by apply all_edges_move).
  all: destruct (Qgtb _ _); simpl.
  - split; [|done]. unfold all_edges in *. simpl in *. set_solver.
  - split; [|done]. by rewrite Hmove.
  - split; [|done]. unfold all_edges in *. simpl in *. set_solver.
  - destruct (IH (merge endpoints xy) (tick (set_edges (λ s, {[xy]} ∪ s)
                         (set_outside (λ s, s ∖ {[xy]}) (tick g))))) as [H1 H2].
    rewrite Hmove in H1. split; [done|]. by rewrite H2.
Qed.

Lemma removeLines_grows fuel : ∀ g,
  all_edges g ⊆ all_edges (removeLines rnd fuel g).2 ∧
  node_idx (removeLines rnd fuel g).2 = node_idx g.
Proof.
  induction fuel as [|fuel IH]; intros g; [done|].
  rewrite removeLines_eq.
  destruct (elements _ !! _) as [ab|]; [|done].
  case_decide as Hab; [|done].
  destruct (walk_grows (removeLines rnd fuel) IH fuel ab
    (set_edges (λ s, {[ab]} ∪ s) (set_outside (λ s, s ∖ {[ab]}) (tick g))))
    as [H1 H2].
  split; [|by rewrite H2].
  assert (Hmove : all_edges (set_edges (λ s, {[ab]} ∪ s)
                    (set_outside (λ s, s ∖ {[ab]}) (tick g))) = all_edges g)
    by (unfold all_edges; simpl; by apply all_edges_move).
  by rewrite Hmove in H1.
Qed.

(** X2.  Neither step ever drops an edge, whatever its outcome: every edge
    of the permanent set or the boundary is still in one of them afterwards.
    [addLines] never lowers the vertex count and [removeLines] never changes
    it ("Does not increase node count"). *)
Theorem edges_never_dropped fuel g :
  all_edges g ⊆ all_edges (addLines rnd fuel g).2 ∧
  node_idx g ≤ node_idx (addLines rnd fuel g).2 ∧
  all_edges g ⊆ all_edges (removeLines rnd fuel g).2 ∧
  node_idx (removeLines rnd fuel g).2 = node_idx g.
Proof.
  destruct (addLines_grows fuel g) as [H1 H2].
  destruct (removeLines_grows fuel g) as [H3 H4].
  done.
Qed.

End Monotone.

Section Contraction.

Lemma walk_shrinks retry :
  (∀ s s', retry s = (Ok tt, s') →
     (size (outside_edges s') < size (outside_edges s))%nat) →
  ∀ k endpoints g g',
  walk rnd retry k endpoints g = (Ok tt, g') →
  (size (outside_edges g') ≤ size (outside_edges g))%nat.
Proof.
  intros Hretry. induction k as [|k IH]; intros endpoints g g'; rewrite walk_eq.
  all: destruct (scan _ _) as [|xy|]; [| |done].
  all: try (intros Hr; apply Hretry in Hr; simpl in Hr; lia).
  all: case_decide as Hxy; [|done]; cbv zeta.
  all: pose proof (size_remove xy (outside_edges g) Hxy) as Hsz.
  all: destruct (Qgtb _ _); try done.
  - intros [= <-]. simpl.
    pose proof (size_add_le (merge endpoints xy) (outside_edges g ∖ {[xy]})). lia.
  - intros [= <-]. simpl.
    pose proof (size_add_le (merge endpoints xy) (outside_edges g ∖ {[xy]})). lia.
  - intros Hr. apply IH in Hr. simpl in Hr. lia.
Qed.

Lemma removeLines_shrinks fuel : ∀ g g',
  removeLines rnd fuel g = (Ok tt, g') →
  (size (outside_edges g') < size (outside_edges g))%nat.
Proof.
  induction fuel as [|fuel IH]; intros g g'; [done|].
  rewrite removeLines_eq.
  destruct (elements _ !! _) as [ab|]; [|done].
  case_decide as Hab; [|done].
  intros Hr. apply (walk_shrinks _ IH) in Hr. simpl in Hr.
  pose proof (size_remove ab (outside_edges g) Hab). lia.
Qed.

Lemma walk_terminates retry : ∀ k endpoints g,
  (size (outside_edges g) ≤ k)%nat →
  (∀ s, (size (outside_edges s) ≤ size (outside_edges g))%nat →
        (retry s).1 ≠ Raise OutOfFuel) →
  (walk rnd retry k endpoints g).1 ≠ Raise OutOfFuel.
Proof.
  induction k as [|k IH]; intros endpoints g Hk Hretry; rewrite walk_eq.
  all: destruct (scan _ _) as [|xy|]; [by apply Hretry| |done].
  all: case_decide as Hxy; [|done]; cbv zeta.
  all: pose proof (size_remove xy (outside_edges g) Hxy) as Hsz.
  all: destruct (Qgtb _ _); try done.
  - lia.
  - apply IH; simpl; [lia|].
    intros s Hs. apply Hretry. lia.
Qed.

Lemma removeLines_terminates fuel : ∀ g,
  (size (outside_edges g) < fuel)%nat →
  (removeLines rnd fuel g).1 ≠ Raise OutOfFuel.
Proof.
  induction fuel as [|fuel IH]; intros g Hfuel; [lia|].
  rewrite removeLines_eq.
  destruct (elements _ !! _) as [ab|]; [|done].
  case_decide as Hab; [|done].
  pose proof (size_remove ab (outside_edges g) Hab) as Hsz.
  apply walk_terminates; simpl; [lia|].
  intros s Hs. apply IH. lia.
Qed.

Lemma shrink_terminates fuel outside_limit : ∀ g,
  (size (outside_edges g) + 2 ≤ fuel)%nat →
  (shrink rnd fuel outside_limit g).1 ≠ Raise OutOfFuel.
Proof.
  induction fuel as [|fuel IH]; intros g Hfuel; [lia|].
  cbn [shrink]. cbv [bind get random]. destruct (_ >? _); [|done].
  destruct (Qltb _ _); [done|].
  pose proof (removeLines_terminates fuel (tick g)) as Hterm.
  pose proof (removeLines_shrinks fuel (tick g)) as Hshr.
  destruct (removeLines _ _ _) as [[[]|e] s']; simpl in *.
  - apply IH. specialize (Hshr s' eq_refl). lia.
  - intros [= ->]. apply Hterm; [lia|done].
Qed.

(** X3.  A contraction that completes makes the boundary strictly shorter
    (it takes at least two boundary edges and gives back at most one). *)
Theorem contraction_shortens_boundary fuel g g' :
  removeLines rnd fuel g = (Ok tt, g') →
  (size (outside_edges g') < size (outside_edges g))%nat.
Proof. apply removeLines_shrinks. Qed.

(** X4.  The loops of the contraction are bounded by the length of the
    boundary, whatever the random draws and the sparseness parameter:
    [removeLines] (with its retries) ends within as many turns as there are
    boundary edges, and so does the loop of [__init__] that calls it.  In
    the model: with that much fuel they never run out of fuel. *)
Theorem contraction_terminates fuel outside_limit g :
  ((size (outside_edges g) < fuel)%nat →
   (removeLines rnd fuel g).1 ≠ Raise OutOfFuel) ∧
  ((size (outside_edges g) + 2 ≤ fuel)%nat →
   (shrink rnd fuel outside_limit g).1 ≠ Raise OutOfFuel).
Proof.
  split; [apply removeLines_terminates|apply shrink_terminates].
Qed.

End Contraction.

Section Growth.

Lemma fan_counts k : ∀ ab base pivot g g',
  (∀ e : edge, e ∈ outside_edges g → e.2 < node_idx g) →
  base ≠ pivot → pivot < node_idx g →
  fan rnd k ab base pivot g = (Ok tt, g') →
  node_idx g < node_idx g' ∧
  Z.of_nat (size (outside_edges g')) =
    Z.of_nat (size (outside_edges g)) + (node_idx g' - node_idx g).
Proof.
  induction k as [|k IH]; intros ab base pivot g g' Hfresh Hne Hp;
    rewrite fan_eq; (case_decide as Hab; [|done]); cbv zeta.
  all: pose proof (size_remove ab (outside_edges g) Hab) as Hsz.
  all: assert (Hb : (base, node_idx g) ∉ outside_edges g ∖ {[ab]})
         by (intros Hin; apply elem_of_difference in Hin as [Hin _];
             apply Hfresh in Hin; simpl in Hin; lia).
  all: assert (Hpv : (pivot, node_idx g) ∉
                     ({[ (base, node_idx g) ]} ∪ outside_edges g ∖ {[ab]} : gset edge))
         by (intros Hin; apply elem_of_union in Hin as [Hin|Hin];
             [apply elem_of_singleton in Hin; congruence
             |apply elem_of_difference in Hin as [Hin _];
              apply Hfresh in Hin; simpl in Hin; lia]).
  all: pose proof (size_add_new _ _ Hb) as Hs1.
  all: pose proof (size_add_new _ _ Hpv) as Hs2.
  all: destruct (Qgtb _ _ || _); try done.
  - intros [= <-]. cbn [outside_edges node_idx tick set_node_idx set_outside set_edges].
    unfold edge in *. split; lia.
  - intros [= <-]. cbn [outside_edges node_idx tick set_node_idx set_outside set_edges].
    unfold edge in *. split; lia.
  - intros Hrun. apply IH in Hrun;
      cbn [outside_edges node_idx tick set_node_idx set_outside set_edges] in *.
    + destruct Hrun as [H1 H2]. unfold edge in *. split; lia.
    + intros e He. apply elem_of_union in He as [He|He].
      { apply elem_of_singleton in He. subst e. simpl. lia. }
      apply elem_of_union in He as [He|He].
      { apply elem_of_singleton in He. subst e. simpl. lia. }
      apply elem_of_difference in He as [He _]. apply Hfresh in He. lia.
    + lia.
    + lia.
Qed.

Lemma addLines_counts L fuel : ∀ g g',
  good L g → addLines rnd fuel g = (Ok tt, g') →
  node_idx g < node_idx g' ∧
  Z.of_nat (size (outside_edges g')) =
    Z.of_nat (size (outside_edges g)) + (node_idx g' - node_idx g).
Proof.
  induction fuel as [|fuel IH]; intros g g' Hg; [done|].
  rewrite addLines_eq.
  destruct (elements _ !! _) as [ab|] eqn:Hab; [|done].
  destruct ([ab.1; ab.2] !! _) as [pivot|] eqn:Hpiv; [|done].
  cbv zeta.
  destruct (Qgtb _ _).
  - intros Hrun. apply IH in Hrun; [exact Hrun|]. by do 3 apply good_tick.
  - apply list_elem_of_lookup_2 in Hab. apply elem_of_elements in Hab.
    assert (Hcan : ∀ e : edge, e ∈ outside_edges g → canonical (node_idx g) e).
    { intros e He. apply (sound_canon _ _ (good_sound _ _ Hg)).
      unfold all_edges. set_solver. }
    apply list_elem_of_lookup_2 in Hpiv.
    assert (pivot = ab.1 ∨ pivot = ab.2) as Hp by set_solver.
    destruct (Hcan ab Hab) as (H0 & H1 & H2).
    intros Hrun. apply fan_counts in Hrun; simpl in *; [exact Hrun| |lia|lia].
    intros e He. by destruct (Hcan e He) as (_ & _ & ?).
Qed.

(** X5.  A growth step that completes, in a state the constructor can be
    in, hands out at least one new vertex, and the boundary grows by exactly
    one edge for each new vertex (each triangle of the fan takes one
    boundary edge and gives two). *)
Theorem growth_counts fuel node_limit outside_limit addfuel g' :
  let g := (RandomGraph2 rnd fuel node_limit outside_limit).2 in
  addLines rnd addfuel g = (Ok tt, g') →
  node_idx g < node_idx g' ∧
  Z.of_nat (size (outside_edges g')) =
    Z.of_nat (size (outside_edges g)) + (node_idx g' - node_idx g).
Proof.
  intros g. apply (addLines_counts node_limit).
  apply RandomGraph2_good.
Qed.

End Growth.

Section Sparse.

Ltac count :=
  unfold all_edges in *;
  cbn [outside_edges node_idx edges tick set_node_idx set_outside set_edges fst snd] in *;
  unfold edge in *; lia.

(** The count the constructor keeps low: stored edges plus boundary edges,
    against three per vertex. *)
Lemma fan_sparse k : ∀ ab base pivot g (c : Z),
  Z.of_nat (size (all_edges g)) + Z.of_nat (size (outside_edges g)) + c
    ≤ 3 * node_idx g →
  let g' := (fan rnd k ab base pivot g).2 in
  Z.of_nat (size (all_edges g')) + Z.of_nat (size (outside_edges g')) + c
    ≤ 3 * node_idx g'.
Proof.
  induction k as [|k IH]; intros ab base pivot g c Hg;
    rewrite fan_eq; (case_decide as Hab; [|done]); cbv zeta.
  all: pose proof (size_remove ab (outside_edges g) Hab) as Hsz.
  all: pose proof (size_add_le (base, node_idx g) (outside_edges g ∖ {[ab]})) as Ho1.
  all: pose proof (size_add_le (pivot, node_idx g)
                     ({[ (base, node_idx g) ]} ∪ outside_edges g ∖ {[ab]})) as Ho2.
  all: pose proof (size_add_le (base, node_idx g) (all_edges g)) as Ha1.
  all: pose proof (size_add_le (pivot, node_idx g)
                     ({[ (base, node_idx g) ]} ∪ all_edges g)) as Ha2.
  all: match goal with |- context [tick ?g0] =>
         assert (Hall : all_edges (tick g0) =
                        {[ (pivot, node_idx g) ]} ∪ ({[ (base, node_idx g) ]} ∪ all_edges g))
       end.
  all: try (unfold all_edges; simpl;
            rewrite <- (all_edges_move ab (edges g) (outside_edges g)) by done;
            set_solver).
  all: destruct (Qgtb _ _ || _); simpl.
  1-3: rewrite Hall; count.
  apply IH. rewrite Hall. count.
Qed.

Lemma addLines_sparse fuel : ∀ g (c : Z),
  Z.of_nat (size (all_edges g)) + Z.of_nat (size (outside_edges g)) + c
    ≤ 3 * node_idx g →
  let g' := (addLines rnd fuel g).2 in
  Z.of_nat (size (all_edges g')) + Z.of_nat (size (outside_edges g')) + c
    ≤ 3 * node_idx g'.
Proof.
  induction fuel as [|fuel IH]; intros g c Hg; [done|].
  rewrite addLines_eq.
  destruct (elements _ !! _) as [ab|]; [|done].
  destruct ([ab.1; ab.2] !! _) as [pivot|]; [|done].
  cbv zeta. destruct (Qgtb _ _).
  - by apply (IH (tick (tick (tick g)))).
  - by apply (fan_sparse fuel ab _ pivot (tick (tick (tick g)))).
Qed.

Lemma walk_sparse retry (B : Z) :
  (∀ s, Z.of_nat (size (all_edges s)) + Z.of_nat (size (outside_edges s)) ≤ B →
        Z.of_nat (size (all_edges (retry s).2)) +
        Z.of_nat (size (outside_edges (retry s).2)) ≤ B) →
  ∀ k endpoints g,
  Z.of_nat (size (all_edges g)) + Z.of_nat (size (outside_edges g)) + 1 ≤ B →
  Z.of_nat (size (all_edges (walk rnd retry k endpoints g).2)) +
  Z.of_nat (size (outside_edges (walk rnd retry k endpoints g).2)) ≤ B.
Proof.
  intros Hretry. induction k as [|k IH]; intros endpoints g Hg; rewrite walk_eq.
  all: destruct (scan _ _) as [|xy|];
    [apply Hretry; count| |count].
  all: case_decide as Hxy; [|count]; cbv zeta.
  all: pose proof (size_remove xy (outside_edges g) Hxy) as Hsz.
  all: assert (Hmove : all_edges (tick (set_edges (λ s, {[xy]} ∪ s)
                         (set_outside (λ s, s ∖ {[xy]}) (tick g)))) = all_edges g)
         by (unfold all_edges; simpl; by apply all_edges_move).
  all: pose proof (size_add_le (merge endpoints xy) (outside_edges g ∖ {[xy]})) as Ho.
  all: pose proof (size_add_le (merge endpoints xy) (all_edges g)) as Ha.
  all: assert (Hfin : all_edges (set_outside (λ s, {[merge endpoints xy]} ∪ s)
                        (tick (set_edges (λ s, {[xy]} ∪ s)
                           (set_outside (λ s, s ∖ {[xy]}) (tick g)))))
                      = {[merge endpoints xy]} ∪ all_edges g)
         by (rewrite <- Hmove; unfold all_edges; simpl; set_solver).
  all: destruct (Qgtb _ _); cbn [snd].
  - rewrite Hfin. count.
  - rewrite Hmove. count.
  - rewrite Hfin. count.
  - apply IH. rewrite Hmove. count.
Qed.

Lemma removeLines_sparse fuel (B : Z) : ∀ g,
  Z.of_nat (size (all_edges g)) + Z.of_nat (size (outside_edges g)) ≤ B →
  Z.of_nat (size (all_edges (removeLines rnd fuel g).2)) +
  Z.of_nat (size (outside_edges (removeLines rnd fuel g).2)) ≤ B.
Proof.
  induction fuel as [|fuel IH]; intros g Hg; [done|].
  rewrite removeLines_eq.
  destruct (elements _ !! _) as [ab|]; [|count].
  case_decide as Hab; [|count].
  pose proof (size_remove ab (outside_edges g) Hab) as Hsz.
  apply (walk_sparse _ B IH).
  assert (Hmove : all_edges (set_edges (λ s, {[ab]} ∪ s)
                    (set_outside (λ s, s ∖ {[ab]}) (tick g))) = all_edges g)
    by (unfold all_edges; simpl; by apply all_edges_move).
  rewrite Hmove. count.
Qed.

Lemma removeLines_sparse' fuel g :
  Z.of_nat (size (all_edges g)) + Z.of_nat (size (outside_edges g)) + 3
    ≤ 3 * node_idx g →
  Z.of_nat (size (all_edges (removeLines rnd fuel g).2)) +
  Z.of_nat (size (outside_edges (removeLines rnd fuel g).2)) + 3
    ≤ 3 * node_idx (removeLines rnd fuel g).2.
Proof.
  intros Hg. destruct (removeLines_grows fuel g) as [_ ->].
  pose proof (removeLines_sparse fuel (3 * node_idx g - 3) g). lia.
Qed.

Lemma shrink_sparse fuel outside_limit : ∀ g,
  Z.of_nat (size (all_edges g)) + Z.of_nat (size (outside_edges g)) + 3
    ≤ 3 * node_idx g →
  Z.of_nat (size (all_edges (shrink rnd fuel outside_limit g).2)) +
  Z.of_nat (size (outside_edges (shrink rnd fuel outside_limit g).2)) + 3
    ≤ 3 * node_idx (shrink rnd fuel outside_limit g).2.
Proof.
  induction fuel as [|fuel IH]; intros g Hg; cbn [shrink];
    cbv [bind get random]; destruct (_ >? _); try done;
    destruct (Qltb _ _); try done.
  pose proof (removeLines_sparse' fuel (tick g) Hg) as Hr.
  destruct (removeLines _ _ _) as [[[]|e] s']; [by apply IH|done].
Qed.

Lemma grow_sparse fuel node_limit outside_limit : ∀ g,
  Z.of_nat (size (all_edges g)) + Z.of_nat (size (outside_edges g)) + 3
    ≤ 3 * node_idx g →
  Z.of_nat (size (all_edges (grow rnd fuel node_limit outside_limit g).2)) +
  Z.of_nat (size (outside_edges (grow rnd fuel node_limit outside_limit g).2)) + 3
    ≤ 3 * node_idx (grow rnd fuel node_limit outside_limit g).2.
Proof.
  induction fuel as [|fuel IH]; intros g Hg; cbn [grow];
    cbv [bind get]; destruct (_ <? _); try done.
  pose proof (addLines_sparse fuel g 3 Hg) as H1. cbv zeta in H1.
  destruct (addLines _ _ _) as [[[]|e] s1]; [|done].
  pose proof (shrink_sparse fuel outside_limit s1 H1) as H2.
  destruct (shrink _ _ _ _) as [[[]|e] s2]; [by apply IH|done].
Qed.

(** X6.  The constructor keeps the graph as sparse as a planar graph must
    be: in the state it ends in, whatever the outcome, the number of edges
    stored (permanent or boundary) plus the number of boundary edges is at
    most three per vertex less three. *)
Theorem edge_count_bound fuel node_limit outside_limit :
  let g := (RandomGraph2 rnd fuel node_limit outside_limit).2 in
  Z.of_nat (size (edges g ∪ outside_edges g)) + Z.of_nat (size (outside_edges g))
    ≤ 3 * node_idx g - 3.
Proof.
  intros g. subst g. unfold RandomGraph2. rewrite construct_eq.
  pose proof (grow_sparse fuel node_limit
                (default (default_outside_limit node_limit) outside_limit)
                (fresh node_limit)) as Hg.
  destruct (grow _ _ _ _ _) as [[[]|e] g'].
  - cbn [snd edges outside_edges node_idx set_edges].
    replace (edges g' ∪ outside_edges g' ∪ outside_edges g')
      with (all_edges g') by (unfold all_edges; set_solver).
    cbn [snd] in Hg. enough (Z.of_nat (size (all_edges (fresh node_limit))) +
      Z.of_nat (size (outside_edges (fresh node_limit))) + 3
      ≤ 3 * node_idx (fresh node_limit)) as H0 by (specialize (Hg H0); lia).
    vm_compute. discriminate.
  - cbn [snd] in *. fold (all_edges g').
    enough (Z.of_nat (size (all_edges (fresh node_limit))) +
      Z.of_nat (size (outside_edges (fresh node_limit))) + 3
      ≤ 3 * node_idx (fresh node_limit)) as H0 by (specialize (Hg H0); lia).
    vm_compute. discriminate.
Qed.

End Sparse.

End Outcomes.

Lemma growth_counts_witness :
  let g := (RandomGraph2 zero_tape 0 6 None).2 in
  ∃ g', addLines zero_tape 10 g = (Ok tt, g') ∧
    node_idx g < node_idx g' ∧
    Z.of_nat (size (outside_edges g')) =
      Z.of_nat (size (outside_edges g)) + (node_idx g' - node_idx g).
Proof.
  intros g. exists (addLines zero_tape 10 g).2.
  assert (Hrun : addLines zero_tape 10 g = (Ok tt, (addLines zero_tape 10 g).2))
    by (vm_compute; reflexivity).
  split; [exact Hrun|].
  exact (growth_counts zero_tape 0 6 None 10 _ Hrun).
Defined.

Lemma ring6_boundary : size (outside_edges ring6) = 6%nat.
Proof. vm_compute. reflexivity. Qed.

Lemma contraction_shortens_boundary_witness :
  ∃ g', removeLines high_tape 9 ring6 = (Ok tt, g') ∧
        (size (outside_edges g') < size (outside_edges ring6))%nat.
Proof.
  exists (removeLines high_tape 9 ring6).2.
  assert (Hrun : removeLines high_tape 9 ring6
                 = (Ok tt, (removeLines high_tape 9 ring6).2))
    by (vm_compute; reflexivity).
  split; [exact Hrun|].
  exact (contraction_shortens_boundary high_tape 9 ring6 _ Hrun).
Defined.

Lemma contraction_terminates_witness :
  (removeLines half_tape 7 ring6).1 ≠ Raise OutOfFuel ∧
  (shrink half_tape 8 2 ring6).1 ≠ Raise OutOfFuel.
Proof.
  destruct (contraction_terminates half_tape 7 2 ring6) as [H1 _].
  destruct (contraction_terminates half_tape 8 2 ring6) as [_ H2].
  split.
  - apply H1. rewrite ring6_boundary. lia.
  - apply H2. rewrite ring6_boundary. lia.
Defined.

End GenExtra.

(** * More about the scene *)

Module SceneExtra.
Import Scene SceneFacts Rest.

(** *** The places of the nodes *)

Lemma gcd_succ n : Z.gcd (n + 1) n = 1.
Proof.
  rewrite Z.gcd_comm. replace (n + 1) with (1 + 1 * n) by lia.
  rewrite Z.gcd_add_mult_diag_r. apply Z.gcd_1_r.
Qed.

Lemma stride_loop_spec n : 1 ≤ n → ∀ k a,
  0 ≤ a ≤ n + 1 → (Z.to_nat (n + 1 - a) ≤ k)%nat →
  ∃ a', stride_loop k a n = Some a' ∧ a ≤ a' ≤ n + 1 ∧ Z.gcd a' n = 1.
Proof.
  intros Hn.
  assert (Hone : ∀ a, (1 <? Z.gcd a n) = false → Z.gcd a n = 1).
  { intros a Hg. apply Z.ltb_ge in Hg. pose proof (Z.gcd_nonneg a n).
    destruct (decide (Z.gcd a n = 0)) as [H0|H0]; [|lia].
    apply Z.gcd_eq_0_r in H0. lia. }
  assert (Hlast : ∀ a, (1 <? Z.gcd a n) = true → a ≠ n + 1).
  { intros a Hg ->. rewrite gcd_succ in Hg. discriminate. }
  induction k as [|k IH]; intros a Ha Hk; simpl;
    destruct (1 <? Z.gcd a n) eqn:Hg.
  - apply Hlast in Hg. lia.
  - exists a. split; [done|]. split; [lia|]. by apply Hone.
  - apply Hlast in Hg. destruct (IH (a + 1)) as (a' & Hrun & Hle & Hgcd); [lia|lia|].
    exists a'. split; [done|]. split; [lia|done].
  - exists a. split; [done|]. split; [lia|]. by apply Hone.
Qed.

Lemma place_inj a n i j :
  1 ≤ n → Z.gcd a n = 1 → 0 ≤ i < n → 0 ≤ j < n →
  place a n i = place a n j → i = j.
Proof.
  unfold place. intros Hn Hg Hi Hj Heq.
  assert (Hdiv : (n | a * (i - j))).
  { apply Z.mod_divide; [lia|].
    replace (a * (i - j)) with ((a * i + 47806) - (a * j + 47806)) by lia.
    rewrite Zminus_mod, Heq, Z.sub_diag. apply Z.mod_0_l. lia. }
  apply Z.gauss in Hdiv; [|by rewrite Z.gcd_comm].
  clear Heq. destruct Hdiv as [q Hq].
  assert (q = 0); [|subst q; lia].
  destruct (Z.lt_trichotomy q 0) as [Hq0|[Hq0|Hq0]]; [|done|].
  - assert (q * n ≤ - n) by nia. lia.
  - assert (n ≤ q * n) by nia. lia.
Qed.

(** X7.  The places of the nodes (lines 158-169).  For a scene of [n >= 1]
    nodes the search for the stride ends, with a stride that has no factor
    in common with [n]; so the [n] nodes get [n] different places
    [0 .. n-1] round the circle: no two nodes are put on the same place. *)
Theorem places_distinct n :
  1 ≤ n →
  ∃ a, stride n = Some a ∧ Z.gcd a n = 1 ∧
    (∀ i, 0 ≤ place a n i < n) ∧
    (∀ i j, 0 ≤ i < n → 0 ≤ j < n → place a n i = place a n j → i = j).
Proof.
  intros Hn. unfold stride.
  pose proof (Z.sqrt_nonneg n). pose proof (Z.sqrt_le_lin n ltac:(lia)).
  destruct (stride_loop_spec n Hn (Z.to_nat (n + 1)) (Z.sqrt n))
    as (a & Hrun & _ & Hg); [lia|lia|].
  exists a. split; [done|]. split; [done|]. split.
  - intros i. unfold place. apply Z.mod_pos_bound. lia.
  - intros i j Hi Hj. by apply place_inj.
Qed.

Lemma places_distinct_witness :
  ∃ a, stride 12 = Some a ∧ Z.gcd a 12 = 1 ∧
    (∀ i, 0 ≤ place a 12 i < 12) ∧
    (∀ i j, 0 ≤ i < 12 → 0 ≤ j < 12 → place a 12 i = place a 12 j → i = j).
Proof. apply places_distinct. lia. Defined.

(** *** The test for a shared end *)

(** X8.  The test [len(set(l.ab + ab)) < 4] of lines 181 and 224 skips a
    pair of edges exactly when they have an end in common or one of them is
    a loop. *)
Theorem touching_iff l ab :
  touching l ab = true ↔
  l.1 = l.2 ∨ ab.1 = ab.2 ∨
  l.1 = ab.1 ∨ l.1 = ab.2 ∨ l.2 = ab.1 ∨ l.2 = ab.2.
Proof.
  split.
  - intros Ht.
    destruct (decide (l.1 = l.2)); [tauto|].
    destruct (decide (ab.1 = ab.2)); [tauto|].
    destruct (decide (l.1 = ab.1)); [tauto|].
    destruct (decide (l.1 = ab.2)); [tauto|].
    destruct (decide (l.2 = ab.1)); [tauto|].
    destruct (decide (l.2 = ab.2)); [tauto|].
    exfalso. assert (Hf : touching l ab = false); [|congruence].
    apply touching_false. repeat constructor; set_solver.
  - intros Heq. destruct (touching l ab) eqn:Ht; [done|].
    apply touching_false in Ht. rewrite !NoDup_cons in Ht.
    destruct Ht as (H1 & H2 & H3 & _). exfalso. set_solver.
Qed.

(** *** The adjacency lists *)

Lemma py_norm_lt len i k : py_norm len i = Some k → (k < len)%nat.
Proof.
  unfold py_norm. destruct ((0 <=? i) && (i <? Z.of_nat len)) eqn:H1.
  - apply andb_true_iff in H1 as [H0 H1].
    apply Z.leb_le in H0. apply Z.ltb_lt in H1. intros [= <-]. lia.
  - destruct ((i <? 0) && (- Z.of_nat len <=? i)) eqn:H2; [|done].
    apply andb_true_iff in H2 as [H0 H2].
    apply Z.ltb_lt in H0. apply Z.leb_le in H2. intros [= <-]. lia.
Qed.

Lemma py_norm_None len i :
  py_norm len i = None ↔ i < - Z.of_nat len ∨ Z.of_nat len ≤ i.
Proof.
  unfold py_norm. destruct ((0 <=? i) && (i <? Z.of_nat len)) eqn:H1.
  - apply andb_true_iff in H1 as [H0 H1].
    apply Z.leb_le in H0. apply Z.ltb_lt in H1. split; [done|lia].
  - destruct ((i <? 0) && (- Z.of_nat len <=? i)) eqn:H2.
    + apply andb_true_iff in H2 as [H0 H2].
      apply Z.ltb_lt in H0. apply Z.leb_le in H2. split; [done|lia].
    + split; [intros _|done].
      apply andb_false_iff in H1. apply andb_false_iff in H2.
      rewrite Z.leb_gt, Z.ltb_ge in H1. rewrite Z.ltb_ge, Z.leb_gt in H2. lia.
Qed.

Lemma n2e_append_None n2e a x :
  n2e_append n2e a x = None ↔ py_norm (length n2e) a = None.
Proof.
  unfold n2e_append. destruct (py_norm (length n2e) a) as [k|] eqn:Hk; simpl; [|done].
  apply py_norm_lt in Hk. destruct (lookup_lt_is_Some_2 n2e k Hk) as [l ->]. done.
Qed.

Lemma n2e_append_length n2e a x n2e' :
  n2e_append n2e a x = Some n2e' → length n2e' = length n2e.
Proof.
  unfold n2e_append. destruct (py_norm (length n2e) a) as [k|]; simpl; [|done].
  destruct (n2e !! k); simpl; [|done]. intros [= <-]. apply length_insert.
Qed.

Lemma n2e_fill_None es : ∀ n2e,
  n2e_fill es n2e = None ↔
  ∃ e, e ∈ es ∧ (py_norm (length n2e) e.1 = None ∨ py_norm (length n2e) e.2 = None).
Proof.
  induction es as [|ab es IH]; intros n2e; simpl.
  - split; [done|]. intros (e & He & _). by apply elem_of_nil in He.
  - destruct (n2e_append n2e ab.1 ab) as [n1|] eqn:H1; simpl.
    2:{ apply n2e_append_None in H1. split; [intros _|done].
        exists ab. split; [left|by left]. }
    pose proof (n2e_append_length _ _ _ _ H1) as Hl1.
    assert (Hn1 : py_norm (length n2e) ab.1 ≠ None).
    { intros Hn. apply n2e_append_None with (x := ab) in Hn. congruence. }
    destruct (n2e_append n1 ab.2 ab) as [n2|] eqn:H2; simpl.
    2:{ apply n2e_append_None in H2. rewrite Hl1 in H2. split; [intros _|done].
        exists ab. split; [left|by right]. }
    pose proof (n2e_append_length _ _ _ _ H2) as Hl2.
    assert (Hn2 : py_norm (length n2e) ab.2 ≠ None).
    { intros Hn. rewrite <- Hl1 in Hn.
      apply n2e_append_None with (x := ab) in Hn. congruence. }
    rewrite IH, Hl2, Hl1. split.
    + intros (e & He & Hbad). exists e. split; [by right|done].
    + intros (e & He & Hbad). apply elem_of_cons in He as [->|He].
      * destruct Hbad; done.
      * by exists e.
Qed.

(** X9.  [getEdges] for a graph of [n] vertices whose edges all have their
    ends in [0 .. n-1] gives [n] lists, and an edge is in the list of a
    vertex exactly when it is an edge of the graph and the vertex is one of
    its ends. *)
Theorem adjacency_lists (n : nat) (es : list edge) :
  Forall (λ e : edge, 0 ≤ e.1 < Z.of_nat n ∧ 0 ≤ e.2 < Z.of_nat n) es →
  ∃ n2e, getEdges n es = Some n2e ∧ length n2e = n ∧
    ∀ (i : nat) (e : edge),
      listed n2e i e ↔ e ∈ es ∧ (i = Z.to_nat e.1 ∨ i = Z.to_nat e.2).
Proof.
  intros Hr. apply getEdges_spec. by apply Forall_forall.
Qed.

Lemma adjacency_lists_witness :
  ∃ n2e, getEdges 4 square_edges = Some n2e ∧ length n2e = 4%nat ∧
    ∀ (i : nat) (e : edge),
      listed n2e i e ↔ e ∈ square_edges ∧ (i = Z.to_nat e.1 ∨ i = Z.to_nat e.2).
Proof.
  apply adjacency_lists. repeat constructor; simpl; lia.
Defined.

(** X10.  [getEdges] raises [IndexError] exactly when some edge has an end
    that is no index of the list of [n] lists under Python's rule: at or
    above [n], or below [-n]. *)
Theorem getEdges_fails_iff (n : nat) (es : list edge) :
  getEdges n es = None ↔
  ∃ e : edge, e ∈ es ∧
    (e.1 < - Z.of_nat n ∨ Z.of_nat n ≤ e.1 ∨ e.2 < - Z.of_nat n ∨ Z.of_nat n ≤ e.2).
Proof.
  unfold getEdges. rewrite n2e_fill_None, length_replicate.
  split; intros (e & He & Hbad); exists e; (split; [done|]).
  - rewrite !py_norm_None in Hbad. tauto.
  - rewrite !py_norm_None. tauto.
Qed.

(** *** Sessions *)

Section Sessions.
Context {point : Type}.
Variable segmentsCross : point → point → point → point → bool.
Variable lineMeetsNode : point → point → point → bool.

Local Abbreviation scene := (@scene point).
Local Abbreviation play := (play segmentsCross lineMeetsNode).
Local Abbreviation init := (init segmentsCross lineMeetsNode).
Local Abbreviation crossing_at := (crossing_at segmentsCross).

Lemma session_runs es pos (moves : list (nat * point)) :
  valid_session es pos moves →
  ∃ sc, play es pos moves = (Ok tt, sc) ∧
    wf (list_to_set es) sc ∧ synced (list_to_set es) sc ∧
    nodes sc = foldl (λ l m, <[m.1 := m.2]> l) pos moves ∧
    length (nodes sc) = length pos ∧
    (cross_symmetric segmentsCross → exact segmentsCross (list_to_set es) sc).
Proof.
  intros (Hnd & Hne & Hr & Hm).
  apply play_spec; try done. by apply Forall_forall.
Qed.

Lemma hit_synced E (sc : scene) (e f : edge) :
  synced E sc → e ∈ E → f ∈ E →
  hit segmentsCross (lines sc) e f = crossing_at (nodes sc) e f.
Proof.
  intros Hsy He Hf. unfold hit, Rest.crossing_at.
  destruct (Hsy e He) as (p & q & -> & -> & ->).
  destruct (Hsy f Hf) as (r & s & -> & -> & ->). done.
Qed.

(** In a state a session reaches, what the collision map records is what
    the positions of the nodes say. *)
Lemma linked_crossing E (sc : scene) (e f : edge) :
  exact segmentsCross E sc → synced E sc →
  linked (collisions sc) e f ↔
  e ∈ E ∧ f ∈ E ∧ touching f e = false ∧ crossing_at (nodes sc) e f = true.
Proof.
  intros Hex Hsy. rewrite (Hex e f). split.
  - intros (He & Hf & Ht & Hh). rewrite <- (hit_synced E) by done. done.
  - intros (He & Hf & Ht & Hh). rewrite (hit_synced E) by done. done.
Qed.

Lemma same_crossings E (sc1 sc2 : scene) :
  wf E sc1 → wf E sc2 → synced E sc1 → synced E sc2 →
  exact segmentsCross E sc1 → exact segmentsCross E sc2 →
  nodes sc1 = nodes sc2 →
  collisions sc1 = collisions sc2 ∧ untangled sc1 = untangled sc2.
Proof.
  intros Hwf1 Hwf2 Hsy1 Hsy2 Hex1 Hex2 Hn.
  assert (Hc : collisions sc1 = collisions sc2).
  { apply linked_ext.
    - apply (lo_nonempty _ _ (wf_links _ _ Hwf1)).
    - apply (lo_nonempty _ _ (wf_links _ _ Hwf2)).
    - intros e f. rewrite (linked_crossing E sc1), (linked_crossing E sc2) by done.
      by rewrite Hn. }
  split; [done|]. by rewrite (wf_part _ _ Hwf1), (wf_part _ _ Hwf2), Hc.
Qed.

(** X11.  Pressing a node without moving it (line 137 calls [updateNode]
    all the same) changes nothing in a state a session has reached: the
    collision map, the untangled set, the positions and the line items are
    as before. *)
Theorem press_changes_nothing es pos (moves : list (nat * point)) (v : nat) :
  cross_symmetric segmentsCross →
  valid_session es pos moves → (v < length pos)%nat →
  ∃ sc sc',
    play es pos moves = (Ok tt, sc) ∧
    mousePressEvent segmentsCross lineMeetsNode v sc = (Ok tt, sc') ∧
    collisions sc' = collisions sc ∧ untangled sc' = untangled sc ∧
    nodes sc' = nodes sc ∧ lines sc' = lines sc.
Proof.
  intros Hcs Hv Hlt.
  destruct (session_runs es pos moves Hv) as (sc & Hrun & Hwf & Hsy & _ & Hlen & Hex).
  destruct Hv as (Hnd & Hne & Hr & Hm).
  assert (HE : (list_to_set es : gset edge) ≠ ∅).
  { destruct es as [|e es']; [done|]. set_solver. }
  destruct (lookup_lt_is_Some_2 (node2lines sc) v) as [l Hl].
  { by rewrite (wf_n2l_length _ _ Hwf), Hlen. }
  destruct (updateNode_spec segmentsCross lineMeetsNode _ sc v l Hwf HE Hl)
    as (sc' & Hrun' & Hwf' & Hn & _ & _ & Hsyl & Hlines & Hex').
  assert (Hsame : lines sc' = lines sc).
  { apply map_eq. intros e. destruct (decide (e ∈ l)) as [Hel|Hel]; [|by apply Hlines].
    destruct (Hsyl e) as (p & q & Hp & Hq & ->); [set_solver|].
    destruct (Hsy e) as (p' & q' & Hp' & Hq' & ->).
    { by eapply (wf_n2l_sound _ _ Hwf). }
    rewrite Hn in Hp, Hq. congruence. }
  assert (Hsy' : synced (list_to_set es) sc').
  { intros e He. destruct (Hsy e He) as (p & q & ? & ? & ?).
    exists p, q. by rewrite Hn, Hsame. }
  destruct (same_crossings (list_to_set es) sc' sc) as [Hc Hu]; auto.
  exists sc, sc'. by repeat split.
Qed.

(** X12.  The bookkeeping has no memory: two sessions on the same edge
    set, visited in whatever order, whose moves leave the nodes at the same
    positions, end with the same collision map and the same untangled
    set. *)
Theorem state_depends_on_positions_only es es' pos pos'
    (moves moves' : list (nat * point)) :
  cross_symmetric segmentsCross →
  valid_session es pos moves → valid_session es' pos' moves' →
  es ≡ₚ es' →
  foldl (λ l m, <[m.1 := m.2]> l) pos moves =
  foldl (λ l m, <[m.1 := m.2]> l) pos' moves' →
  ∃ sc sc',
    play es pos moves = (Ok tt, sc) ∧
    play es' pos' moves' = (Ok tt, sc') ∧
    nodes sc = nodes sc' ∧
    collisions sc = collisions sc' ∧ untangled sc = untangled sc'.
Proof.
  intros Hcs Hv Hv' Hperm Hpos.
  destruct (session_runs es pos moves Hv) as (sc & Hrun & Hwf & Hsy & Hn & _ & Hex).
  destruct (session_runs es' pos' moves' Hv')
    as (sc' & Hrun' & Hwf' & Hsy' & Hn' & _ & Hex').
  assert (HE : (list_to_set es' : gset edge) = list_to_set es).
  { apply set_eq. intros e. rewrite !elem_of_list_to_set. by rewrite Hperm. }
  rewrite HE in Hwf', Hsy', Hex'.
  assert (Hnodes : nodes sc = nodes sc') by congruence.
  exists sc, sc'. split; [done|]. split; [done|]. split; [done|].
  apply (same_crossings (list_to_set es)); auto.
Qed.

Lemma checkVictory_run (sc : scene) :
  ∃ sc', checkVictory sc = (Ok tt, sc') ∧
    emitted sc' =
      emitted sc ++ Refit :: (if decide (collisions sc = ∅) then [Victory] else []).
Proof.
  unfold checkVictory. step. step. simpl.
  destruct (decide (size (collisions sc) ≠ 0%nat)) as [Hne|He].
  - eexists. split; [reflexivity|]. simpl.
    rewrite decide_False; [done|]. intros He. apply Hne.
    by apply map_size_empty_iff.
  - eexists. split; [reflexivity|]. simpl.
    rewrite decide_True; [by rewrite <- app_assoc|].
    apply map_size_empty_iff. destruct (size (collisions sc)); [done|].
    exfalso. apply He. done.
Qed.

(** X13.  Letting go of a node sends [victory] exactly when the drawing is
    untangled: when no two edges without a common end have segments,
    between the places where their nodes now are, that intersect.
    Otherwise only [refit] is sent. *)
Theorem victory_iff_untangled es pos (moves : list (nat * point)) :
  cross_symmetric segmentsCross →
  valid_session es pos moves →
  ∃ sc sc',
    play es pos moves = (Ok tt, sc) ∧
    mouseReleaseEvent sc = (Ok tt, sc') ∧
    (emitted sc' = emitted sc ++ [Refit; Victory] ∨
     emitted sc' = emitted sc ++ [Refit]) ∧
    (emitted sc' = emitted sc ++ [Refit; Victory] ↔
     ∀ e f : edge, e ∈ es → f ∈ es → touching f e = false →
                   crossing_at (nodes sc) e f = false).
Proof.
  intros Hcs Hv.
  destruct (session_runs es pos moves Hv) as (sc & Hrun & Hwf & Hsy & _ & _ & Hex).
  specialize (Hex Hcs).
  assert (Hempty : collisions sc = ∅ ↔
            ∀ e f : edge, e ∈ es → f ∈ es → touching f e = false →
                          crossing_at (nodes sc) e f = false).
  { split.
    - intros He e f Hin Hfin Ht.
      destruct (crossing_at (nodes sc) e f) eqn:Hc; [|done].
      exfalso. apply (linked_empty e f). rewrite <- He.
      apply (linked_crossing (list_to_set es)); try done.
      by rewrite !elem_of_list_to_set.
    - intros Hno. apply map_empty. intros e.
      destruct (collisions sc !! e) as [s|] eqn:Hs; [|done]. exfalso.
      destruct (set_choose_L s) as [f Hf].
      { by apply (lo_nonempty _ _ (wf_links _ _ Hwf) e). }
      assert (Hl : linked (collisions sc) e f) by (by exists s).
      apply (linked_crossing (list_to_set es)) in Hl as (He & Hfe & Ht & Hc); try done.
      rewrite !elem_of_list_to_set in He, Hfe.
      by rewrite (Hno e f He Hfe Ht) in Hc. }
  destruct (checkVictory_run sc) as (sc' & Hrun' & Hem).
  exists sc, sc'. split; [done|]. split; [done|]. rewrite Hem.
  destruct (decide (collisions sc = ∅)) as [He|Hne].
  - split; [by left|]. split; [intros _; by apply Hempty|done].
  - split; [by right|]. split.
    + intros Heq. apply app_inv_head in Heq. discriminate.
    + intros Hno. exfalso. by apply Hne, Hempty.
Qed.

(** X14.  The untangled set, whose size [progress] reports, holds exactly
    the edges that cross no other edge where the nodes now are. *)
Theorem untangled_iff_crossing_free es pos (moves : list (nat * point)) :
  cross_symmetric segmentsCross →
  valid_session es pos moves →
  ∃ sc, play es pos moves = (Ok tt, sc) ∧
    ∀ e : edge, e ∈ untangled sc ↔
      e ∈ es ∧ ∀ f : edge, f ∈ es → touching f e = false →
                           crossing_at (nodes sc) e f = false.
Proof.
  intros Hcs Hv.
  destruct (session_runs es pos moves Hv) as (sc & Hrun & Hwf & Hsy & _ & _ & Hex).
  specialize (Hex Hcs). exists sc. split; [done|].
  intros e. rewrite (wf_part _ _ Hwf), elem_of_difference, elem_of_list_to_set.
  rewrite (elem_of_dom_linked _ _ (lo_nonempty _ _ (wf_links _ _ Hwf))).
  split.
  - intros [He Hno]. split; [done|]. intros f Hf Ht.
    destruct (crossing_at (nodes sc) e f) eqn:Hc; [|done].
    exfalso. apply Hno. exists f.
    apply (linked_crossing (list_to_set es)); try done.
    by rewrite !elem_of_list_to_set.
  - intros [He Hno]. split; [done|]. intros [f Hl].
    apply (linked_crossing (list_to_set es)) in Hl as (_ & Hf & Ht & Hc); try done.
    rewrite elem_of_list_to_set in Hf. by rewrite (Hno f Hf Ht) in Hc.
Qed.

(** *** What a call leaves alone *)

Section Frame.
Context {B : Type} (f : scene → B).

Lemma unchanged_ret {A} (a : A) : unchanged f (ret a).
Proof. by intros sc. Qed.

Lemma unchanged_raise {A} e : unchanged f (raise (A := A) e).
Proof. by intros sc. Qed.

Lemma unchanged_get : unchanged f get.
Proof. by intros sc. Qed.

Lemma unchanged_getitem {A} (l : list A) i : unchanged f (getitem l i).
Proof. intros sc. unfold getitem. by destruct (py_index l i). Qed.

Lemma unchanged_modify g : (∀ sc, f (g sc) = f sc) → unchanged f (modify g).
Proof. intros Hg sc. apply Hg. Qed.

Lemma unchanged_bind {A C} (c : M scene A) (k : A → M scene C) :
  unchanged f c → (∀ a, unchanged f (k a)) → unchanged f (bind c k).
Proof.
  intros Hc Hk sc. unfold bind. specialize (Hc sc).
  destruct (c sc) as [[a|e] s']; simpl in *; [|done].
  by rewrite Hk.
Qed.

Lemma unchanged_for_each {A} (l : list A) (body : A → M scene unit) :
  (∀ x, unchanged f (body x)) → unchanged f (for_each l body).
Proof.
  intros Hbody. induction l as [|x l IH]; simpl.
  - apply unchanged_ret.
  - apply unchanged_bind; [apply Hbody|]. intros _. apply IH.
Qed.

End Frame.

(** The loops of [update_edge] write to the collision map and to the
    untangled set only. *)
Lemma update_edge_rest_frame {B} (f : scene → B) ab (sc0 : scene) :
  (∀ g sc, f (set_collisions g sc) = f sc) →
  (∀ g sc, f (set_untangled g sc) = f sc) →
  unchanged f
    (sc <- get ;;
     let coll := current_crossings segmentsCross lineMeetsNode sc ab in
     for_each (elements (default ∅ (collisions sc !! ab))) (unlink ab coll) ;;;
     if decide (0 < size coll)%nat then
       modify (set_collisions (λ m, <[ab := coll]> m)) ;;;
       modify (set_untangled (λ u, u ∖ {[ab]})) ;;;
       for_each (elements coll) (link ab)
     else
       sc <- get ;;
       if decide (ab ∈ dom (collisions sc)) then
         modify (set_collisions (λ m, delete ab m)) ;;;
         modify (set_untangled (λ u, {[ab]} ∪ u))
       else ret tt).
Proof.
  intros Hc Hu. unfold unlink, link, setdefault_add.
  repeat first
    [ apply unchanged_bind; [|intros ?]
    | apply unchanged_for_each; intros ?
    | apply unchanged_ret
    | apply unchanged_raise
    | apply unchanged_get
    | apply unchanged_modify; intros ?; first [apply Hc|apply Hu]
    | case_decide
    | case_match ].
Qed.

Lemma update_edge_frame {B} (f : scene → B) ab :
  (∀ g sc, f (set_collisions g sc) = f sc) →
  (∀ g sc, f (set_untangled g sc) = f sc) →
  (∀ pq sc, ab ∈ dom (lines sc) → f (set_lines (λ m, <[ab := pq]> m) sc) = f sc) →
  unchanged f (update_edge segmentsCross lineMeetsNode ab).
Proof.
  intros Hc Hu Hl sc. unfold update_edge.
  unfold bind at 1. simpl.
  destruct (decide (ab ∈ dom (lines sc))) as [Hin|Hout]; [|done].
  rewrite (bind_ok _ _ sc tt sc) by done.
  unfold bind at 1.
  pose proof (unchanged_getitem f (nodes sc) ab.1 sc) as Ha.
  destruct (getitem (nodes sc) ab.1 sc) as [[pa|e] s1] eqn:Hga; [|done].
  assert (s1 = sc) as ->.
  { unfold getitem in Hga. destruct (py_index (nodes sc) ab.1); by inversion Hga. }
  unfold bind at 1.
  destruct (getitem (nodes sc) ab.2 sc) as [[pb|e] s1] eqn:Hgb.
  2:{ unfold getitem in Hgb. destruct (py_index (nodes sc) ab.2); by inversion Hgb. }
  assert (s1 = sc) as ->.
  { unfold getitem in Hgb. destruct (py_index (nodes sc) ab.2); by inversion Hgb. }
  unfold bind at 1. simpl.
  rewrite (update_edge_rest_frame f ab sc Hc Hu). by apply Hl.
Qed.

Lemma updateNode_unchanged {B} (f : scene → B) idx :
  (∀ g sc, f (set_collisions g sc) = f sc) →
  (∀ g sc, f (set_untangled g sc) = f sc) →
  (∀ ab pq sc, ab ∈ dom (lines sc) → f (set_lines (λ m, <[ab := pq]> m) sc) = f sc) →
  (∀ x sc, f (emit x sc).2 = f sc) →
  unchanged f (updateNode segmentsCross lineMeetsNode idx).
Proof.
  intros Hc Hu Hl He. unfold updateNode.
  apply unchanged_bind; [apply unchanged_get|]. intros sc.
  apply unchanged_bind; [apply unchanged_getitem|]. intros es.
  apply unchanged_bind.
  { apply unchanged_for_each. intros ab. apply update_edge_frame; auto. }
  intros _. apply unchanged_bind; [apply unchanged_get|]. intros sc1.
  case_decide; [apply unchanged_raise|]. intros s. apply He.
Qed.

(** X15.  Whatever the state and the index, and however the call ends
    (also when it raises), [updateNode] moves no node, changes no adjacency
    list, and neither creates nor removes a line item. *)
Theorem updateNode_frame (idx : Z) (sc : scene) :
  let sc' := (updateNode segmentsCross lineMeetsNode idx sc).2 in
  nodes sc' = nodes sc ∧ node2lines sc' = node2lines sc ∧
  nodes_shown sc' = nodes_shown sc ∧ dom (lines sc') = dom (lines sc).
Proof.
  simpl. split; [|split; [|split]].
  - by apply (updateNode_unchanged nodes).
  - by apply (updateNode_unchanged node2lines).
  - by apply (updateNode_unchanged nodes_shown).
  - apply (updateNode_unchanged (λ s, dom (lines s))); try done.
    intros ab pq s Hin. simpl. rewrite dom_insert_L. set_solver.
Qed.

Lemma session_node2lines es pos (moves : list (nat * point)) sc :
  play es pos moves = (Ok tt, sc) →
  getEdges (length pos) es = Some (node2lines sc).
Proof.
  unfold Scene.play. intros Hrun. unfold bind in Hrun.
  destruct (init_body segmentsCross lineMeetsNode es (blank pos))
    as [[[]|e] s0] eqn:Hinit; [|done].
  assert (Hkeep : node2lines sc = node2lines s0).
  { assert (Hk : unchanged node2lines (for_each moves
      (λ m, mouseMoveEvent segmentsCross lineMeetsNode m.1 m.2))).
    { apply unchanged_for_each. intros m. unfold mouseMoveEvent.
      apply unchanged_bind; [by apply unchanged_modify|].
      intros _. by apply updateNode_unchanged. }
    rewrite <- (Hk s0). by rewrite Hrun. }
  rewrite Hkeep. clear Hrun Hkeep.
  unfold init_body in Hinit. unfold bind at 1 in Hinit. simpl in Hinit.
  destruct (getEdges (length pos) es) as [n2e|]; [|done].
  unfold bind at 1 in Hinit.
  destruct (for_each es _ (blank pos)) as [[[]|e] s1]; [|done].
  simpl in Hinit. by injection Hinit as <-.
Qed.

(** *** A move is local *)

Lemma update_edges_local E l : ∀ sc sc' : scene,
  wf E sc → (∀ e, e ∈ l → e ∈ E) →
  for_each l (update_edge segmentsCross lineMeetsNode) sc = (Ok tt, sc') →
  ∀ e f : edge, e ∉ l → f ∉ l →
    linked (collisions sc') e f ↔ linked (collisions sc) e f.
Proof.
  induction l as [|ab l IH]; intros sc sc' Hwf Hsub Hrun e f He Hf.
  - simpl in Hrun. unfold ret in Hrun. by injection Hrun as <-.
  - simpl in Hrun.
    assert (HabE : ab ∈ E) by (apply Hsub; set_solver).
    destruct (update_edge_wf segmentsCross lineMeetsNode E sc ab Hwf HabE)
      as (sc1 & pa & pb & Hrun1 & Hwf1 & _).
    destruct (update_edge_spec segmentsCross lineMeetsNode E sc ab
                (wf_links _ _ Hwf) (wf_part _ _ Hwf) HabE)
      as (sc1' & pa' & pb' & Hrun1' & _ & _ & _ & _ & _ & _ & _ & _ & _ & Hrel);
      [by apply (wf_range _ _ Hwf)..|].
    rewrite Hrun1 in Hrun1'. injection Hrun1' as <-.
    rewrite (bind_ok _ _ _ _ _ Hrun1) in Hrun.
    rewrite (IH sc1 sc' Hwf1) by (try done; set_solver).
    rewrite Hrel.
    assert (e ≠ ab) by set_solver. assert (f ≠ ab) by set_solver.
    naive_solver.
Qed.

(** X16.  Dragging a node changes only what involves an edge at that
    node: the line items of the other edges stay as they were, and whether
    two edges that both avoid the node are recorded as crossing is as
    before. *)
Theorem move_is_local es pos (moves : list (nat * point)) (v : nat) (p : point) :
  valid_session es pos moves → (v < length pos)%nat →
  ∃ sc sc',
    play es pos moves = (Ok tt, sc) ∧
    mouseMoveEvent segmentsCross lineMeetsNode v p sc = (Ok tt, sc') ∧
    nodes sc' = <[v := p]> (nodes sc) ∧
    (∀ e : edge, e.1 ≠ Z.of_nat v → e.2 ≠ Z.of_nat v →
       lines sc' !! e = lines sc !! e) ∧
    (∀ e f : edge,
       e.1 ≠ Z.of_nat v → e.2 ≠ Z.of_nat v →
       f.1 ≠ Z.of_nat v → f.2 ≠ Z.of_nat v →
       linked (collisions sc') e f ↔ linked (collisions sc) e f).
Proof.
  intros Hv Hlt.
  destruct (session_runs es pos moves Hv) as (sc & Hrun & Hwf & Hsy & _ & Hlen & _).
  pose proof (session_node2lines es pos moves sc Hrun) as Hn2l.
  destruct Hv as (Hnd & Hne & Hr & Hm).
  destruct (getEdges_spec (length pos) es) as (n2e & Hge & _ & Hspec).
  { by apply Forall_forall. }
  assert (n2e = node2lines sc) as -> by congruence.
  assert (HE : (list_to_set es : gset edge) ≠ ∅).
  { destruct es as [|e es']; [done|]. set_solver. }
  destruct (lookup_lt_is_Some_2 (node2lines sc) v) as [l Hl].
  { by rewrite (wf_n2l_length _ _ Hwf), Hlen. }
  assert (Hat : ∀ e : edge, e ∈ l → e.1 = Z.of_nat v ∨ e.2 = Z.of_nat v).
  { intros e He. destruct (Hspec v e) as [Hs _].
    destruct Hs as [Hin Hends]; [by exists l|].
    rewrite Forall_forall in Hr. destruct (Hr e Hin). lia. }
  pose (sc0 := set_nodes (λ l, <[v := p]> l) sc).
  assert (Hwf0 : wf (list_to_set es) sc0).
  { destruct Hwf as [[? ? ? ?] ? ? ? ? ?].
    split; [by split|..]; simpl; rewrite ?length_insert; done. }
  destruct (update_edges_loop segmentsCross lineMeetsNode (list_to_set es) l sc0 Hwf0)
    as (sc1 & Hrun1 & Hwf1 & Hn1 & _ & _ & _ & _ & Hl1 & _).
  { intros e He. by eapply (wf_n2l_sound _ _ Hwf). }
  pose proof (update_edges_local (list_to_set es) l sc0 sc1 Hwf0) as Hloc.
  assert (Hget : getitem (node2lines sc0) (Z.of_nat v) sc0 = (Ok l, sc0)).
  { destruct (getitem_valid (node2lines sc0) (Z.of_nat v) sc0) as (l' & Hl' & Hg).
    - apply lookup_lt_Some in Hl. simpl. lia.
    - rewrite Nat2Z.id in Hl'. simpl in Hl'. congruence. }
  assert (Hsize : size (lines sc1) ≠ 0%nat).
  { rewrite <- size_dom, (lo_lines _ _ (wf_links _ _ Hwf1)).
    intros Hz. by apply HE, leibniz_equiv, size_empty_inv. }
  exists sc. eexists. split; [done|]. split.
  { unfold mouseMoveEvent, updateNode. step. fold sc0. step. step. step. step.
    rewrite decide_False by done. reflexivity. }
  simpl. split; [by rewrite Hn1|]. split.
  - intros e H1 H2. rewrite Hl1; [done|]. intros He. destruct (Hat e He); done.
  - intros e f He1 He2 Hf1 Hf2. apply Hloc; try done.
    + intros e' He'. by eapply (wf_n2l_sound _ _ Hwf).
    + intros He. destruct (Hat e He); done.
    + intros He. destruct (Hat f He); done.
Qed.

(** *** Hovering *)

Lemma collect_map {A C} (l : list A) (body : A → M scene C) (g : A → C) sc :
  (∀ x, x ∈ l → body x sc = (Ok (g x), sc)) →
  collect l body sc = (Ok (map g l), sc).
Proof.
  induction l as [|x l IH]; intros Hb; [done|]. simpl.
  rewrite (bind_ok _ _ _ _ _ (Hb x ltac:(set_solver))).
  rewrite (bind_ok _ _ _ _ _ (IH ltac:(intros; apply Hb; set_solver))).
  done.
Qed.

(** X17.  Hovering over a node of a scene a session has reached never
    fails and changes nothing in the tracker's state.  It sets the pen of
    exactly the edges at the node (thick when entering; when leaving, black
    for an untangled edge and gray for the others) and the brush of exactly
    the neighbours of the node. *)
Theorem hover_marks_neighbours es pos (moves : list (nat * point))
    (v : nat) (onoff : bool) :
  valid_session es pos moves → (v < length pos)%nat →
  ∃ sc pens brushes,
    play es pos moves = (Ok tt, sc) ∧
    hover v onoff sc = (Ok (pens, brushes), sc) ∧
    (∀ (e : edge) (pn : pen), (e, pn) ∈ pens ↔
       e ∈ es ∧ (e.1 = Z.of_nat v ∨ e.2 = Z.of_nat v) ∧
       pn = if onoff then thick_pen
            else if decide (e ∈ untangled sc) then black_pen else gray_pen) ∧
    (∀ (o : nat) (b : brush), (o, b) ∈ brushes ↔
       (o < length pos)%nat ∧
       b = (if onoff then red_brush else blue_brush) ∧
       ∃ e : edge, e ∈ es ∧
         ((e.1 = Z.of_nat v ∧ e.2 = Z.of_nat o) ∨
          (e.2 = Z.of_nat v ∧ e.1 = Z.of_nat o))).
Proof.
  intros Hv Hlt.
  destruct (session_runs es pos moves Hv) as (sc & Hrun & Hwf & Hsy & _ & Hlen & _).
  pose proof (session_node2lines es pos moves sc Hrun) as Hn2l.
  destruct Hv as (Hnd & Hne & Hr & Hm).
  destruct (getEdges_spec (length pos) es) as (n2e & Hge & _ & Hspec).
  { by apply Forall_forall. }
  assert (n2e = node2lines sc) as -> by congruence.
  rewrite Forall_forall in Hr.
  destruct (lookup_lt_is_Some_2 (node2lines sc) v) as [l Hl].
  { by rewrite (wf_n2l_length _ _ Hwf), Hlen. }
  assert (Hat : ∀ e : edge, e ∈ l ↔
            e ∈ es ∧ (e.1 = Z.of_nat v ∨ e.2 = Z.of_nat v)).
  { intros e. split.
    - intros He. destruct (Hspec v e) as [Hs _].
      destruct Hs as [Hin Hends]; [by exists l|].
      destruct (Hr e Hin). split; [done|lia].
    - intros [Hin Hends]. destruct (Hspec v e) as [_ Hs].
      destruct Hs as (l' & Hl' & He'); [|congruence].
      split; [done|]. destruct (Hr e Hin). lia. }
  assert (Hget : getitem (node2lines sc) (Z.of_nat v) sc = (Ok l, sc)).
  { destruct (getitem_valid (node2lines sc) (Z.of_nat v) sc) as (l' & Hl' & Hg).
    - apply lookup_lt_Some in Hl. lia.
    - rewrite Nat2Z.id in Hl'. congruence. }
  pose (gp := λ ab : edge,
    (ab, if onoff then thick_pen
         else if decide (ab ∈ untangled sc) then black_pen else gray_pen)).
  pose (gb := λ ab : edge,
    (Z.to_nat (ab.1 + ab.2 - Z.of_nat v),
     if onoff then red_brush else blue_brush)).
  exists sc, (map gp l), (map gb l). split; [done|]. split.
  { unfold hover. step. step.
    erewrite bind_ok.
    2:{ apply (collect_map l _ gp). intros ab Hab.
        apply Hat in Hab as [Hin _].
        rewrite decide_True; [done|].
        rewrite (lo_lines _ _ (wf_links _ _ Hwf)). by apply elem_of_list_to_set. }
    erewrite bind_ok.
    2:{ apply (collect_map l _ gb). intros ab Hab.
        apply Hat in Hab as [Hin Hends]. destruct (Hr ab Hin) as [H1 H2].
        unfold py_norm.
        replace (0 <=? ab.1 + ab.2 - Z.of_nat v) with true
          by (symmetry; apply Z.leb_le; lia).
        replace (ab.1 + ab.2 - Z.of_nat v <? Z.of_nat (length (nodes sc))) with true
          by (symmetry; apply Z.ltb_lt; lia).
        done. }
    done. }
  split.
  - intros e pn. rewrite list_elem_of_fmap. split.
    + intros (ab & [= -> ->] & Hab). apply Hat in Hab as [? ?]. done.
    + intros (Hin & Hends & ->). exists e. split; [done|]. by apply Hat.
  - intros o b. rewrite list_elem_of_fmap. split.
    + intros (ab & [= -> ->] & Hab). apply Hat in Hab as [Hin Hends].
      destruct (Hr ab Hin) as [H1 H2].
      split; [lia|]. split; [done|]. exists ab. split; [done|]. lia.
    + intros (Ho & -> & e & Hin & Hends). exists e. split.
      * unfold gb. f_equal. lia.
      * apply Hat. split; [done|]. lia.
Qed.

(** *** No edges *)

(** X18.  A scene without edges is set up without error, with nothing to
    untangle, and letting go of a node sends [victory]; but dragging any
    node then fails: line 258 of [updateNode] divides by [len(self.lines)],
    which is zero. *)
Theorem no_edges_no_progress (pos : list point) (i : nat) (p : point) :
  (i < length pos)%nat →
  ∃ sc, init [] pos = (Ok tt, sc) ∧
    lines sc = ∅ ∧ collisions sc = ∅ ∧ untangled sc = ∅ ∧
    (mouseMoveEvent segmentsCross lineMeetsNode i p sc).1 = Raise ZeroDivisionError ∧
    emitted (mouseReleaseEvent sc).2 = [Refit; Victory].
Proof.
  intros Hi. eexists. split; [reflexivity|]. simpl.
  split; [done|]. split; [done|]. split; [set_solver|]. split.
  - unfold mouseMoveEvent, updateNode. step. step.
    erewrite bind_ok.
    2:{ simpl. destruct (getitem_valid (replicate (length pos) ([] : list edge))
                 (Z.of_nat i) (set_nodes (λ l, <[i := p]> l)
                   (init [] pos).2)) as (x & Hx & Hg).
        - rewrite length_replicate. lia.
        - rewrite Nat2Z.id in Hx. apply lookup_replicate in Hx as [-> _].
          exact Hg. }
    simpl. done.
  - done.
Qed.

(** *** The generator and the scene together *)

(** X19.  Every graph the generator returns can be played: with its edges,
    visited in whatever order, one position for each of its [node_limit]
    vertices and moves of nodes of the scene, [init] and every move end
    normally, there is one line item for each edge of the graph, and the
    untangled edges and the keys of the collision map divide the edges of
    the graph between them. *)
Theorem generated_graph_playable rnd fuel node_limit outside_limit (g : Gen.graph)
    es pos (moves : list (nat * point)) :
  3 ≤ node_limit →
  Gen.RandomGraph2 rnd fuel node_limit outside_limit = (Ok tt, g) →
  es ≡ₚ elements (Gen.edges g) →
  length pos = Z.to_nat node_limit →
  Forall (λ m : nat * point, (m.1 < length pos)%nat) moves →
  ∃ sc, play es pos moves = (Ok tt, sc) ∧
    dom (lines sc) = Gen.edges g ∧
    length (node2lines sc) = Z.to_nat node_limit ∧
    untangled sc ∪ dom (collisions sc) = Gen.edges g ∧
    untangled sc ∩ dom (collisions sc) = ∅.
Proof.
  intros Hn Hgen Hperm Hlen Hmoves.
  apply GenFacts.RandomGraph2_ok in Hgen as ([_ Hcan _ Hdeg] & Hge & Hle & _).
  assert (Hidx : Gen.node_idx g = node_limit) by lia.
  assert (HE : (list_to_set es : gset edge) = Gen.edges g).
  { apply set_eq. intros e. rewrite elem_of_list_to_set, Hperm. apply elem_of_elements. }
  assert (Hvalid : valid_session es pos moves).
  { split; [|split; [|split]]; [| | |done].
    - rewrite Hperm. apply NoDup_elements.
    - destruct (Hdeg 0 ltac:(lia)) as (e1 & _ & _ & He1 & _).
      intros ->. rewrite <- HE in He1. set_solver.
    - apply Forall_forall. intros e He.
      assert (Hin : e ∈ Gen.edges g) by (rewrite <- HE; by apply elem_of_list_to_set).
      destruct (Hcan e Hin) as (? & ? & ?). lia. }
  destruct (session_runs es pos moves Hvalid) as (sc & Hrun & Hwf & _ & _ & Hl & _).
  exists sc. split; [done|]. rewrite <- HE.
  split; [apply (lo_lines _ _ (wf_links _ _ Hwf))|].
  split; [by rewrite (wf_n2l_length _ _ Hwf), Hl|].
  assert (Hsub : dom (collisions sc) ⊆ list_to_set es).
  { intros e He.
    apply (elem_of_dom_linked _ _ (lo_nonempty _ _ (wf_links _ _ Hwf))) in He as [f Hf].
    by apply (lo_apart _ _ (wf_links _ _ Hwf)) in Hf as [_ ?]. }
  rewrite (wf_part _ _ Hwf). split.
  - apply set_eq. intros e. rewrite elem_of_union, elem_of_difference.
    destruct (decide (e ∈ dom (collisions sc))); set_solver.
  - set_solver.
Qed.

(** *** The label *)

Lemma session_signals es pos (moves : list (nat * point)) :
  valid_session es pos moves →
  ∃ sc, play es pos moves = (Ok tt, sc) ∧
    length (emitted sc) = length moves ∧
    Forall (λ x, ∃ a : nat, x = Progress a (length es) ∧ (a ≤ length es)%nat)
           (emitted sc).
Proof.
  intros (Hnd & Hne & Hr & Hmoves).
  destruct (init_spec segmentsCross lineMeetsNode es pos Hnd)
    as (sc0 & Hinit & Hwf0 & Hsy0 & Hn0 & _ & Hem0 & _).
  { by apply Forall_forall. }
  assert (HE : (list_to_set es : gset edge) ≠ ∅).
  { destruct es as [|e es']; [done|]. set_solver. }
  assert (Hsize : size (list_to_set es : gset edge) = length es)
    by (by apply size_list_to_set).
  destruct (for_each_invariant
    (λ done s, wf (list_to_set es) s ∧ synced (list_to_set es) s ∧
       length (nodes s) = length pos ∧
       length (emitted s) = length done ∧
       Forall (λ x, ∃ a : nat, x = Progress a (length es) ∧ (a ≤ length es)%nat)
              (emitted s))
    (λ m, mouseMoveEvent segmentsCross lineMeetsNode m.1 m.2) moves) with (s := sc0)
    as (sc & Hrun & _ & _ & _ & Hlen & Hall).
  - intros done m rest s Hl (Hwf & Hsy & Hlen & Hcount & Hall).
    assert (Hm : (m.1 < length (nodes s))%nat).
    { rewrite Hlen. rewrite Forall_forall in Hmoves. apply Hmoves.
      rewrite Hl. set_solver. }
    destruct (mouseMoveEvent_spec segmentsCross lineMeetsNode _ s m.1 m.2 Hwf Hsy HE Hm)
      as (s' & Hrun & Hwf' & Hsy' & Hn' & _ & Hem' & _).
    exists s'. split; [done|]. split; [done|]. split; [done|].
    split; [by rewrite Hn', length_insert|].
    rewrite Hem', !length_app, Hcount. split; [done|].
    apply Forall_app. split; [done|]. apply Forall_singleton.
    exists (size (untangled s')). rewrite Hsize. split; [done|].
    rewrite <- Hsize, (wf_part _ _ Hwf'). apply subseteq_size. set_solver.
  - rewrite Hn0, Hem0. repeat (split; [done|]). constructor.
  - exists sc. split; [|done]. unfold Scene.play. unfold Scene.init in Hinit.
    by rewrite (bind_ok _ _ _ _ _ Hinit).
Qed.

Lemma progress_percentage (a b : nat) :
  (a ≤ b)%nat → (0 < b)%nat →
  ∃ q, progress a b = Ok q ∧ (0 <= q)%Q ∧ (q <= 100)%Q.
Proof.
  intros Hab Hb. unfold progress. rewrite decide_False by lia.
  eexists. split; [reflexivity|].
  assert (Hpos : (0 < inject_Z (Z.of_nat b))%Q).
  { unfold Qlt, inject_Z. cbn [Qnum Qden]. lia. }
  split.
  - apply Qle_shift_div_l; [done|].
    unfold Qle, Qmult, inject_Z. cbn [Qnum Qden]. lia.
  - apply Qle_shift_div_r; [done|].
    unfold Qle, Qmult, inject_Z. cbn [Qnum Qden]. lia.
Qed.

(** X20.  The label never fails and never shows nonsense: a session sends
    one [progress] signal for each move, each with the number of edges as
    its total, and on each of them [Contents.progress] computes, without a
    division by zero, a percentage between 0 and 100. *)
Theorem label_shows_percentage es pos (moves : list (nat * point)) :
  valid_session es pos moves →
  ∃ sc, play es pos moves = (Ok tt, sc) ∧
    length (emitted sc) = length moves ∧
    ∀ x, x ∈ emitted sc →
      ∃ (a : nat) (q : Q), x = Progress a (length es) ∧
        progress a (length es) = Ok q ∧ (0 <= q)%Q ∧ (q <= 100)%Q.
Proof.
  intros Hv.
  destruct (session_signals es pos moves Hv) as (sc & Hrun & Hlen & Hall).
  destruct Hv as (_ & Hne & _ & _).
  exists sc. split; [done|]. split; [done|].
  intros x Hx. rewrite Forall_forall in Hall.
  destruct (Hall x Hx) as (a & -> & Ha).
  destruct (progress_percentage a (length es) Ha) as (q & Hq & H0 & H100).
  { destruct es; [done|simpl; lia]. }
  by exists a, q.
Qed.

End Sessions.

Lemma square_direct_valid :
  valid_session square_edges_shuffled square_pos square_moves_direct.
Proof.
  split; [|split; [|split]].
  - by apply (bool_decide_unpack _).
  - discriminate.
  - repeat constructor; simpl; lia.
  - repeat constructor; simpl; lia.
Qed.

Lemma square_shuffled : square_edges ≡ₚ square_edges_shuffled.
Proof.
  apply NoDup_Permutation.
  - by apply (bool_decide_unpack _).
  - by apply (bool_decide_unpack _).
  - intros e. unfold square_edges, square_edges_shuffled.
    rewrite !elem_of_cons, !elem_of_nil. naive_solver.
Qed.

Lemma press_changes_nothing_witness :
  ∃ sc sc',
    play properCross noNodeHit square_edges square_pos square_moves = (Ok tt, sc) ∧
    mousePressEvent properCross noNodeHit 1 sc = (Ok tt, sc') ∧
    collisions sc' = collisions sc ∧ untangled sc' = untangled sc ∧
    nodes sc' = nodes sc ∧ lines sc' = lines sc.
Proof.
  apply (press_changes_nothing properCross noNodeHit
           square_edges square_pos square_moves 1
           SceneClaims.properCross_symmetric SceneClaims.square_session_valid).
  simpl. lia.
Defined.

Lemma state_depends_on_positions_only_witness :
  ∃ sc sc',
    play properCross noNodeHit square_edges square_pos square_moves = (Ok tt, sc) ∧
    play properCross noNodeHit square_edges_shuffled square_pos square_moves_direct
      = (Ok tt, sc') ∧
    nodes sc = nodes sc' ∧
    collisions sc = collisions sc' ∧ untangled sc = untangled sc'.
Proof.
  apply (state_depends_on_positions_only properCross noNodeHit
           square_edges square_edges_shuffled square_pos square_pos
           square_moves square_moves_direct
           SceneClaims.properCross_symmetric SceneClaims.square_session_valid
           square_direct_valid square_shuffled).
  reflexivity.
Defined.

Lemma victory_iff_untangled_witness :
  ∃ sc sc',
    play properCross noNodeHit square_edges square_pos square_moves = (Ok tt, sc) ∧
    mouseReleaseEvent sc = (Ok tt, sc') ∧
    (emitted sc' = emitted sc ++ [Refit; Victory] ∨
     emitted sc' = emitted sc ++ [Refit]) ∧
    (emitted sc' = emitted sc ++ [Refit; Victory] ↔
     ∀ e f : edge, e ∈ square_edges → f ∈ square_edges → touching f e = false →
                   crossing_at properCross (nodes sc) e f = false).
Proof.
  exact (victory_iff_untangled properCross noNodeHit
           square_edges square_pos square_moves
           SceneClaims.properCross_symmetric SceneClaims.square_session_valid).
Defined.

Lemma untangled_iff_crossing_free_witness :
  ∃ sc,
    play properCross noNodeHit square_edges square_pos square_moves = (Ok tt, sc) ∧
    ∀ e : edge, e ∈ untangled sc ↔
      e ∈ square_edges ∧
      ∀ f : edge, f ∈ square_edges → touching f e = false →
                  crossing_at properCross (nodes sc) e f = false.
Proof.
  exact (untangled_iff_crossing_free properCross noNodeHit
           square_edges square_pos square_moves
           SceneClaims.properCross_symmetric SceneClaims.square_session_valid).
Defined.

Lemma move_is_local_witness :
  ∃ sc sc',
    play properCross noNodeHit square_edges square_pos square_moves = (Ok tt, sc) ∧
    mouseMoveEvent properCross noNodeHit 1 (2, 0) sc = (Ok tt, sc') ∧
    nodes sc' = <[1%nat := (2, 0)]> (nodes sc) ∧
    (∀ e : edge, e.1 ≠ 1 → e.2 ≠ 1 → lines sc' !! e = lines sc !! e) ∧
    (∀ e f : edge, e.1 ≠ 1 → e.2 ≠ 1 → f.1 ≠ 1 → f.2 ≠ 1 →
       linked (collisions sc') e f ↔ linked (collisions sc) e f).
Proof.
  apply (move_is_local properCross noNodeHit
           square_edges square_pos square_moves 1 (2, 0)
           SceneClaims.square_session_valid).
  simpl. lia.
Defined.

Lemma hover_marks_neighbours_witness :
  ∃ sc pens brushes,
    play properCross noNodeHit square_edges square_pos square_moves = (Ok tt, sc) ∧
    hover 1 false sc = (Ok (pens, brushes), sc) ∧
    (∀ (e : edge) (pn : pen), (e, pn) ∈ pens ↔
       e ∈ square_edges ∧ (e.1 = 1 ∨ e.2 = 1) ∧
       pn = if decide (e ∈ untangled sc) then black_pen else gray_pen) ∧
    (∀ (o : nat) (b : brush), (o, b) ∈ brushes ↔
       (o < 4)%nat ∧ b = blue_brush ∧
       ∃ e : edge, e ∈ square_edges ∧
         ((e.1 = 1 ∧ e.2 = Z.of_nat o) ∨ (e.2 = 1 ∧ e.1 = Z.of_nat o))).
Proof.
  apply (hover_marks_neighbours properCross noNodeHit
           square_edges square_pos square_moves 1 false
           SceneClaims.square_session_valid).
  simpl. lia.
Defined.

Lemma no_edges_no_progress_witness :
  ∃ sc, init properCross noNodeHit [] square_pos = (Ok tt, sc) ∧
    lines sc = ∅ ∧ collisions sc = ∅ ∧ untangled sc = ∅ ∧
    (mouseMoveEvent properCross noNodeHit 1 (2, 0) sc).1 = Raise ZeroDivisionError ∧
    emitted (mouseReleaseEvent sc).2 = [Refit; Victory].
Proof.
  apply (no_edges_no_progress properCross noNodeHit square_pos 1 (2, 0)).
  simpl. lia.
Defined.

Lemma label_shows_percentage_witness :
  ∃ sc,
    play properCross noNodeHit square_edges square_pos square_moves = (Ok tt, sc) ∧
    length (emitted sc) = 2%nat ∧
    ∀ x, x ∈ emitted sc →
      ∃ (a : nat) (q : Q), x = Progress a 6 ∧
        progress a 6 = Ok q ∧ (0 <= q)%Q ∧ (q <= 100)%Q.
Proof.
  exact (label_shows_percentage properCross noNodeHit
           square_edges square_pos square_moves
           SceneClaims.square_session_valid).
Defined.

Lemma generated_graph_playable_witness :
  let g := (Gen.RandomGraph2 Gen.zero_tape 6 4 None).2 in
  ∃ sc,
    play properCross noNodeHit (elements (Gen.edges g)) square_pos square_moves
      = (Ok tt, sc) ∧
    dom (lines sc) = Gen.edges g ∧
    length (node2lines sc) = 4%nat ∧
    untangled sc ∪ dom (collisions sc) = Gen.edges g ∧
    untangled sc ∩ dom (collisions sc) = ∅.
Proof.
  intros g.
  apply (generated_graph_playable properCross noNodeHit
           Gen.zero_tape 6%nat 4 None g (elements (Gen.edges g))
           square_pos square_moves).
  - lia.
  - vm_compute. reflexivity.
  - reflexivity.
  - reflexivity.
  - repeat constructor; simpl; lia.
Defined.

End SceneExtra.
